(** * Garbled 3-bit adder: a shallow embedding of [garbled-circuit.py]

    The development follows the Python file top to bottom: the hash based
    one-time pad ([hash_value], [encrypt], [decrypt]), the [Wire] and [Gate]
    classes, the three gate functions and the [GarbledFullAdderCircuit]
    class.  Python integers are [Z]; the dictionary [self.wires] is a
    [gmap string Wire]; gates refer to their wires by the key under which
    the wire object is registered, so that a label written by one gate is
    the label read by the next one. *)

From Stdlib Require Import ZArith DecimalString Ascii String List Permutation.
From Stdlib Require DecimalZ DecimalPos.
From stdpp Require Import gmap strings list fin_maps.

Local Open Scope Z_scope.

(** ** hashlib.sha256

    The pad is derived with SHA-256 (FIPS 180-4).  Words are 32-bit
    integers held in [Z]; every addition is reduced modulo [2^32] by
    masking with [2^32 - 1]. *)

Module SHA256.

Definition mask32 : Z := 4294967295.

Definition wrap (x : Z) : Z := Z.land x mask32.

Definition rotr (n x : Z) : Z :=
  Z.lor (Z.shiftr x n) (wrap (Z.shiftl x (32 - n))).

Definition Ch (x y z : Z) : Z :=
  Z.lxor (Z.land x y) (Z.land (Z.lxor x mask32) z).

Definition Maj (x y z : Z) : Z :=
  Z.lxor (Z.lxor (Z.land x y) (Z.land x z)) (Z.land y z).

Definition Sigma0 (x : Z) : Z :=
  Z.lxor (Z.lxor (rotr 2 x) (rotr 13 x)) (rotr 22 x).

Definition Sigma1 (x : Z) : Z :=
  Z.lxor (Z.lxor (rotr 6 x) (rotr 11 x)) (rotr 25 x).

Definition sigma0 (x : Z) : Z :=
  Z.lxor (Z.lxor (rotr 7 x) (rotr 18 x)) (Z.shiftr x 3).

Definition sigma1 (x : Z) : Z :=
  Z.lxor (Z.lxor (rotr 17 x) (rotr 19 x)) (Z.shiftr x 10).

(** Round constants and initial hash value (FIPS 180-4, 4.2.2 and 5.3.3),
    in decimal. *)
Definition K : list Z :=
  [
    1116352408; 1899447441; 3049323471; 3921009573; 961987163;
    1508970993; 2453635748; 2870763221; 3624381080; 310598401;
    607225278; 1426881987; 1925078388; 2162078206; 2614888103;
    3248222580; 3835390401; 4022224774; 264347078; 604807628;
    770255983; 1249150122; 1555081692; 1996064986; 2554220882;
    2821834349; 2952996808; 3210313671; 3336571891; 3584528711;
    113926993; 338241895; 666307205; 773529912; 1294757372;
    1396182291; 1695183700; 1986661051; 2177026350; 2456956037;
    2730485921; 2820302411; 3259730800; 3345764771; 3516065817;
    3600352804; 4094571909; 275423344; 430227734; 506948616;
    659060556; 883997877; 958139571; 1322822218; 1537002063;
    1747873779; 1955562222; 2024104815; 2227730452; 2361852424;
    2428436474; 2756734187; 3204031479; 3329325298 ].

Definition H0 : list Z :=
  [
    1779033703; 3144134277; 1013904242; 2773480762; 1359893119;
    2600822924; 528734635; 1541459225 ].

(** Big-endian value of a byte string: [int.from_bytes(bs, 'big')]. *)
Definition from_bytes_big (bs : list Z) : Z :=
  fold_left (fun acc b => acc * 256 + b) bs 0.

(** The [n] low bytes of [x], most significant first. *)
Fixpoint to_bytes_big (n : nat) (x : Z) : list Z :=
  match n with
  | O => []
  | S n' => Z.land (Z.shiftr x (8 * Z.of_nat n')) 255 :: to_bytes_big n' x
  end.

(** Padding: a single byte 128, zeros up to 56 modulo 64, then the bit
    length on 8 bytes. *)
Definition pad (msg : list Z) : list Z :=
  let len := Z.of_nat (length msg) in
  let zeros := Z.to_nat ((55 - len) mod 64) in
  msg ++ [128] ++ repeat 0 zeros ++ to_bytes_big 8 (8 * len).

(** Cut a byte string into groups of [k] bytes; [fuel] bounds the number
    of groups. *)
Fixpoint chunks (fuel : nat) (k : nat) (bs : list Z) : list (list Z) :=
  match fuel with
  | O => []
  | S fuel' =>
      match bs with
      | [] => []
      | _ => firstn k bs :: chunks fuel' k (skipn k bs)
      end
  end.

Definition words_of_block (block : list Z) : list Z :=
  map from_bytes_big (chunks 16 4 block).

(** Message schedule: [win] holds the last sixteen words, oldest first. *)
Fixpoint schedule (n : nat) (win : list Z) : list Z :=
  match n with
  | O => []
  | S n' =>
      let w := wrap (sigma1 (nth 14 win 0) + nth 9 win 0
                     + sigma0 (nth 1 win 0) + nth 0 win 0) in
      w :: schedule n' (tl win ++ [w])
  end.

Definition round (st : list Z) (kw : Z * Z) : list Z :=
  match st with
  | [a; b; c; d; e; f; g; h] =>
      let T1 := wrap (h + Sigma1 e + Ch e f g + fst kw + snd kw) in
      let T2 := wrap (Sigma0 a + Maj a b c) in
      [wrap (T1 + T2); a; b; c; wrap (d + T1); e; f; g]
  | _ => st
  end.

Definition compress (st : list Z) (block : list Z) : list Z :=
  let w16 := words_of_block block in
  let W := w16 ++ schedule 48 w16 in
  let st' := fold_left round (combine K W) st in
  map (fun p => wrap (fst p + snd p)) (combine st st').

(** [hashlib.sha256(msg).digest()] as a list of 32 bytes. *)
Definition digest (msg : list Z) : list Z :=
  let padded := pad msg in
  let blocks := chunks (length padded) 64 padded in
  flat_map (to_bytes_big 4) (fold_left compress blocks H0).

End SHA256.

(** ** Encryption utilities *)

(** [str.encode()] on a string of ASCII characters. *)
Definition encode (s : string) : list Z :=
  map (fun c => Z.of_N (N_of_ascii c)) (list_ascii_of_string s).

(** [f"{n}"] for a Python integer: decimal digits, a minus sign when
    negative. *)
Definition str (n : Z) : string := NilZero.string_of_int (Z.to_int n).

(** [hash_value(k1, k2, gate_id)]: the digest of ["k1_k2_gate_id"] read as
    a big-endian integer. *)
Definition hash_value (k1 k2 gate_id : Z) : Z :=
  let s := (str k1 ++ "_" ++ str k2 ++ "_" ++ str gate_id)%string in
  let h := SHA256.digest (encode s) in
  SHA256.from_bytes_big h.

Definition encrypt (key1 key2 gate_id out_label : Z) : Z :=
  let pad := hash_value key1 key2 gate_id in
  Z.lxor out_label pad.

Definition decrypt (key1 key2 gate_id ciphertext : Z) : Z :=
  let pad := hash_value key1 key2 gate_id in
  Z.lxor ciphertext pad.

(** ** Process state, exceptions and the state-and-exception monad *)

(** The exceptions the program can raise.  [DanglingRef] is raised when a
    wire key is looked up in a store that has no such wire; Python object
    references cannot dangle, and the theorems below show that circuits
    built by the constructor never raise it. *)
Inductive exn : Type :=
| ValueError
| KeyError (key : Z)
| IndexError
| DanglingRef (ref : string).

(** One line written on [sys.stderr]. *)
Inductive stderr_line : Type :=
| GateEvaluationError (gate_id : Z) (gate_type : string)
| MissingInputLabelError (gate_id : Z).

(** The process-wide state: the global gate counter, the state of the
    [random] module and the two output streams.  The random module is an
    oracle: [random_source n] is the raw outcome of its [n]-th draw, so
    that every run of the program is the run for some oracle. *)
Record State : Type := mkState {
  gate_id_counter : Z;
  random_source : nat → Z;
  random_pos : nat;
  stderr : list stderr_line;
  stdout : list (list (option Z))
}.

Inductive Result (A : Type) : Type :=
| Ok (a : A)
| Raise (e : exn).
Arguments Ok {A} a.
Arguments Raise {A} e.

Definition M (S A : Type) : Type := S → Result A * S.

Definition ret {S A} (a : A) : M S A := fun s => (Ok a, s).
Definition raise {S A} (e : exn) : M S A := fun s => (Raise e, s).
Definition bind {S A B} (c : M S A) (k : A → M S B) : M S B :=
  fun s => match c s with
           | (Ok a, s') => k a s'
           | (Raise e, s') => (Raise e, s')
           end.
Definition of_result {S A} (r : Result A) : M S A := fun s => (r, s).

Notation "'let!' x ':=' c 'in' k" := (bind c (fun x => k))
  (at level 10, x pattern, c at level 100, k at level 200).
Notation "c ';;;' k" := (bind c (fun _ => k))
  (at level 100, k at level 200, right associativity).

(** [l[i]] on a Python list. *)
Definition getitem {A} (l : list A) (i : nat) : Result A :=
  match l !! i with
  | Some x => Ok x
  | None => Raise IndexError
  end.

(** *** The global gate counter *)

Definition get_next_gate_id : M State Z :=
  fun s =>
    let gate_id := gate_id_counter s in
    (Ok gate_id,
     mkState (gate_id_counter s + 1) (random_source s) (random_pos s)
             (stderr s) (stdout s)).

(** *** The random module *)

Definition next_draw : M State Z :=
  fun s =>
    (Ok (random_source s (random_pos s)),
     mkState (gate_id_counter s) (random_source s) (S (random_pos s))
             (stderr s) (stdout s)).

(** [random.getrandbits(k)]: any integer in [0, 2^k). *)
Definition getrandbits (k : Z) : M State Z :=
  let! r := next_draw in ret (r mod 2 ^ k).

(** [random._randbelow(n)]: any integer in [0, n). *)
Definition randbelow (n : Z) : M State Z :=
  let! r := next_draw in ret (r mod n).

Definition swap {A} (x : list A) (i j : nat) : list A :=
  match x !! i, x !! j with
  | Some xi, Some xj => <[j := xi]> (<[i := xj]> x)
  | _, _ => x
  end.

(** [random.shuffle(x)], the Fisher-Yates loop of the standard library:
    [for i in reversed(range(1, len(x))): j = randbelow(i + 1);
     x[i], x[j] = x[j], x[i]]. *)
Fixpoint shuffle_from {A} (i : nat) (x : list A) : M State (list A) :=
  match i with
  | O => ret x
  | S i' =>
      let! j := randbelow (Z.of_nat i + 1) in
      shuffle_from i' (swap x i (Z.to_nat j))
  end.

Definition shuffle {A} (x : list A) : M State (list A) :=
  shuffle_from (length x - 1) x.

Definition eprint (line : stderr_line) : M State unit :=
  fun s =>
    (Ok tt,
     mkState (gate_id_counter s) (random_source s) (random_pos s)
             (stderr s ++ [line]) (stdout s)).

Definition print (output : list (option Z)) : M State unit :=
  fun s =>
    (Ok tt,
     mkState (gate_id_counter s) (random_source s) (random_pos s)
             (stderr s) (stdout s ++ [output])).

(** ** Wire *)

Module Wire.

(** [labels] is the dictionary [{0: l0, 1: l1}]; [value] and
    [evaluated_label] are [None] or an integer. *)
Record t : Type := mk {
  name : string;
  labels0 : Z;
  labels1 : Z;
  value : option Z;
  evaluated_label : option Z
}.

(** [self.labels[k]]: a [KeyError] for any key other than 0 and 1. *)
Definition labels (w : t) (k : Z) : Result Z :=
  if k =? 0 then Ok (labels0 w)
  else if k =? 1 then Ok (labels1 w)
  else Raise (KeyError k).

Definition init (name : string) (value : option Z) : M State t :=
  let! l0 := getrandbits 64 in
  let! l1 := getrandbits 64 in
  ret (mk name l0 l1 value None).

Definition set_value (w : t) (v : Z) : Result t :=
  match labels w v with
  | Ok l => Ok (mk (name w) (labels0 w) (labels1 w) (Some v) (Some l))
  | Raise e => Raise e
  end.

Definition set_evaluated_label (w : t) (l : Z) : t :=
  mk (name w) (labels0 w) (labels1 w) (value w) (Some l).

(** The dictionary is scanned in insertion order, key 0 first; [None]
    equals no label. *)
Definition get_bit_from_label (w : t) (label : option Z) : option Z :=
  match label with
  | Some l =>
      if labels0 w =? l then Some 0
      else if labels1 w =? l then Some 1
      else None
  | None => None
  end.

End Wire.

(** The wire objects reachable from a circuit, under the key by which
    [self.wires] and the gates refer to them. *)
Abbreviation WireStore := (gmap string Wire.t).

Definition deref {S} (ws : WireStore) (r : string) : M S Wire.t :=
  match ws !! r with
  | Some w => ret w
  | None => raise (DanglingRef r)
  end.

(** ** Logic gate functions *)

Definition xor_gate (a b : Z) : Z := Z.lxor a b.
Definition and_gate (a b : Z) : Z := Z.land a b.
Definition or_gate (a b : Z) : Z := Z.lor a b.

(** ** Gate *)

Module Gate.

Record t : Type := mk {
  input_wire1 : string;
  input_wire2 : string;
  output_wire : string;
  func : Z → Z → Z;
  gate_id : Z;
  gate_type : string;
  garbled_table : list Z
}.

(** The body of the two nested loops of [_garble] for one [(a, b)]. *)
Definition garble_entry (w1 w2 wo : Wire.t) (func : Z → Z → Z)
    (gate_id : Z) (ab : Z * Z) : Result ((Z * Z) * Z) :=
  let '(a, b) := ab in
  let out_bit := func a b in
  match Wire.labels w1 a with
  | Raise e => Raise e
  | Ok key_a =>
      match Wire.labels w2 b with
      | Raise e => Raise e
      | Ok key_b =>
          match Wire.labels wo out_bit with
          | Raise e => Raise e
          | Ok out_label =>
              Ok ((a, b), encrypt key_a key_b gate_id out_label)
          end
      end
  end.

Fixpoint garble_loop (w1 w2 wo : Wire.t) (func : Z → Z → Z) (gate_id : Z)
    (combos : list (Z * Z)) : Result (list ((Z * Z) * Z)) :=
  match combos with
  | [] => Ok []
  | ab :: rest =>
      match garble_entry w1 w2 wo func gate_id ab with
      | Raise e => Raise e
      | Ok entry =>
          match garble_loop w1 w2 wo func gate_id rest with
          | Raise e => Raise e
          | Ok table => Ok (entry :: table)
          end
      end
  end.

(** [for a in [0, 1]: for b in [0, 1]: ...] *)
Definition combos : list (Z * Z) := [(0, 0); (0, 1); (1, 0); (1, 1)].

Definition garble (ws : WireStore) (in1 in2 out : string)
    (func : Z → Z → Z) (gate_id : Z) : M State (list Z) :=
  let! w1 := deref ws in1 in
  let! w2 := deref ws in2 in
  let! wo := deref ws out in
  let! table := of_result (garble_loop w1 w2 wo func gate_id combos) in
  let! table := shuffle table in
  ret (map snd table).

Definition init (ws : WireStore) (in1 in2 out : string)
    (func : Z → Z → Z) (gate_type : string) : M State t :=
  let! gate_id := get_next_gate_id in
  let! table := garble ws in1 in2 out func gate_id in
  ret (mk in1 in2 out func gate_id gate_type table).

(** The [for ciphertext in self.garbled_table] loop: the first
    ciphertext that decrypts to one of the output wire's labels. *)
Fixpoint evaluate_loop (wo : Wire.t) (gate_id label_a label_b : Z)
    (table : list Z) : option Z :=
  match table with
  | [] => None
  | ciphertext :: rest =>
      let decrypted := decrypt label_a label_b gate_id ciphertext in
      if (decrypted =? Wire.labels0 wo) || (decrypted =? Wire.labels1 wo)
      then Some decrypted
      else evaluate_loop wo gate_id label_a label_b rest
  end.

(** [evaluate] returns the label or [None]; it writes the output wire
    and, on failure, [sys.stderr]. *)
Definition evaluate (g : t) (label_a label_b : Z)
    : M (WireStore * State) (option Z) :=
  fun '(ws, s) =>
    match ws !! output_wire g with
    | None => (Raise (DanglingRef (output_wire g)), (ws, s))
    | Some wo =>
        match evaluate_loop wo (gate_id g) label_a label_b
                            (garbled_table g) with
        | Some decrypted =>
            (Ok (Some decrypted),
             (<[output_wire g := Wire.set_evaluated_label wo decrypted]> ws,
              s))
        | None =>
            (Ok None,
             (ws, snd (eprint (GateEvaluationError (gate_id g)
                                                    (gate_type g)) s)))
        end
    end.

End Gate.

(** ** GarbledFullAdderCircuit *)

Module GarbledFullAdderCircuit.

Record t : Type := mk {
  a_bits : list (option Z);
  b_bits : list (option Z);
  wires : WireStore;
  gates : list Gate.t;
  full_sum_wires : list string;
  result_wires : list string
}.

(** Methods run on the object [self] and on the process state. *)
Abbreviation Method := (M (t * State)).

Definition lift {A} (c : M State A) : Method A :=
  fun '(self, s) => let '(r, s') := c s in (r, (self, s')).

Definition get_self : Method t := fun '(self, s) => (Ok self, (self, s)).

Definition set_wire (name : string) (w : Wire.t) : Method unit :=
  fun '(self, s) =>
    (Ok tt,
     (mk (a_bits self) (b_bits self) (<[name := w]> (wires self))
         (gates self) (full_sum_wires self) (result_wires self), s)).

Definition append_gate (g : Gate.t) : Method unit :=
  fun '(self, s) =>
    (Ok tt,
     (mk (a_bits self) (b_bits self) (wires self) (gates self ++ [g])
         (full_sum_wires self) (result_wires self), s)).

Definition set_outputs (full_sum result : list string) : Method unit :=
  fun '(self, s) =>
    (Ok tt,
     (mk (a_bits self) (b_bits self) (wires self) (gates self)
         full_sum result, s)).

Definition new_wire (name : string) (value : option Z) : Method string :=
  let! wire := lift (Wire.init name value) in
  set_wire name wire;;;
  match value with
  | Some v =>
      let! wire := of_result (Wire.set_value wire v) in
      set_wire name wire;;;
      ret name
  | None => ret name
  end.

(** [gate = Gate(in1, in2, out, func, gate_type); self.gates.append(gate)] *)
Definition add_gate (in1 in2 out : string) (func : Z → Z → Z)
    (gate_type : string) : Method unit :=
  let! self := get_self in
  let! gate := lift (Gate.init (wires self) in1 in2 out func gate_type) in
  append_gate gate.

Definition build_circuit : Method unit :=
  let! self := get_self in
  let! va0 := of_result (getitem (a_bits self) 0) in
  let! a0 := new_wire "a0" va0 in
  let! va1 := of_result (getitem (a_bits self) 1) in
  let! a1 := new_wire "a1" va1 in
  let! va2 := of_result (getitem (a_bits self) 2) in
  let! a2 := new_wire "a2" va2 in
  let! vb0 := of_result (getitem (b_bits self) 0) in
  let! b0 := new_wire "b0" vb0 in
  let! vb1 := of_result (getitem (b_bits self) 1) in
  let! b1 := new_wire "b1" vb1 in
  let! vb2 := of_result (getitem (b_bits self) 2) in
  let! b2 := new_wire "b2" vb2 in
  (* bit 0 *)
  let! sum0 := new_wire "sum0" None in
  add_gate a0 b0 sum0 xor_gate "XOR";;;
  let! carry0 := new_wire "carry0" None in
  add_gate a0 b0 carry0 and_gate "AND";;;
  (* bit 1 *)
  let! temp1 := new_wire "temp1" None in
  add_gate a1 b1 temp1 xor_gate "XOR";;;
  let! sum1 := new_wire "sum1" None in
  add_gate temp1 carry0 sum1 xor_gate "XOR";;;
  let! and1 := new_wire "and1" None in
  add_gate a1 b1 and1 and_gate "AND";;;
  let! and2 := new_wire "and2" None in
  add_gate temp1 carry0 and2 and_gate "AND";;;
  let! carry1 := new_wire "carry1" None in
  add_gate and1 and2 carry1 or_gate "OR";;;
  (* bit 2 *)
  let! temp2 := new_wire "temp2" None in
  add_gate a2 b2 temp2 xor_gate "XOR";;;
  let! sum2 := new_wire "sum2" None in
  add_gate temp2 carry1 sum2 xor_gate "XOR";;;
  let! and3 := new_wire "and3" None in
  add_gate a2 b2 and3 and_gate "AND";;;
  let! and4 := new_wire "and4" None in
  add_gate temp2 carry1 and4 and_gate "AND";;;
  let! carry2 := new_wire "carry2" None in
  add_gate and3 and4 carry2 or_gate "OR";;;
  set_outputs [sum0; sum1; sum2; carry2] [sum1; sum2; carry2].

(** [GarbledFullAdderCircuit(a_bits, b_bits)]: the new object, or the
    exception raised by the constructor. *)
Definition init (a_bits b_bits : list (option Z)) : M State t :=
  fun s =>
    if negb (length a_bits =? 3)%nat || negb (length b_bits =? 3)%nat
    then (Raise ValueError, s)
    else
      match build_circuit (mk a_bits b_bits ∅ [] [] [], s) with
      | (Ok _, (self, s')) => (Ok self, s')
      | (Raise e, (_, s')) => (Raise e, s')
      end.

(** [[wire.get_bit_from_label(wire.evaluated_label) for wire in ws]] *)
Fixpoint decode (store : WireStore) (ws : list string)
    : Result (list (option Z)) :=
  match ws with
  | [] => Ok []
  | r :: rest =>
      match store !! r with
      | None => Raise (DanglingRef r)
      | Some wire =>
          match decode store rest with
          | Raise e => Raise e
          | Ok output =>
              Ok (Wire.get_bit_from_label wire (Wire.evaluated_label wire)
                  :: output)
          end
      end
  end.

(** The [for gate in self.gates] loop of [evaluate]; [false] when the
    loop was left by the bare [return]. *)
Fixpoint evaluate_gates (gs : list Gate.t) : M (WireStore * State) bool :=
  match gs with
  | [] => ret true
  | gate :: rest =>
      let! store := (fun '(ws, s) => (Ok ws, (ws, s))) in
      let! w1 := deref store (Gate.input_wire1 gate) in
      let! w2 := deref store (Gate.input_wire2 gate) in
      match Wire.evaluated_label w1, Wire.evaluated_label w2 with
      | Some label_a, Some label_b =>
          Gate.evaluate gate label_a label_b;;;
          evaluate_gates rest
      | _, _ =>
          (fun '(ws, s) =>
             (Ok false,
              (ws, snd (eprint (MissingInputLabelError (Gate.gate_id gate))
                               s))))
      end
  end.

Definition with_wires (self : t) (ws : WireStore) : t :=
  mk (a_bits self) (b_bits self) ws (gates self)
     (full_sum_wires self) (result_wires self).

(** [evaluate] returns [None] (the bare [return]) or the list of decoded
    result bits, each of them a bit or [None]. *)
Definition evaluate : Method (option (list (option Z))) :=
  fun '(self, s) =>
    match evaluate_gates (gates self) (wires self, s) with
    | (Raise e, (ws, s')) => (Raise e, (with_wires self ws, s'))
    | (Ok false, (ws, s')) => (Ok None, (with_wires self ws, s'))
    | (Ok true, (ws, s')) =>
        match decode ws (result_wires self) with
        | Raise e => (Raise e, (with_wires self ws, s'))
        | Ok output =>
            (Ok (Some output),
             (with_wires self ws, snd (print output s')))
        end
    end.

(** The full sum as [print_details] and the driver read it off the
    evaluated circuit. *)
Definition full_sum (self : t) : Result (list (option Z)) :=
  decode (wires self) (full_sum_wires self).

(** [result] of [print_details]. *)
Definition result (self : t) : Result (list (option Z)) :=
  decode (wires self) (result_wires self).

End GarbledFullAdderCircuit.

(** [bits_to_int] of the driver. *)
Fixpoint bits_to_int (bits : list Z) : Z :=
  match bits with
  | [] => 0
  | bit :: rest => bit + 2 * bits_to_int rest
  end.

(** ** Vocabulary of the statements *)

Definition is_bit (z : Z) : Prop := z = 0 ∨ z = 1.

(** The label a wire holds for a bit: [w.labels[bit]]. *)
Definition label_of (w : Wire.t) (bit : Z) : Z :=
  if bit =? 0 then Wire.labels0 w else Wire.labels1 w.

(** The state after [n] more draws of the random module. *)
Definition advance (n : nat) (s : State) : State :=
  mkState (gate_id_counter s) (random_source s) (n + random_pos s)
          (stderr s) (stdout s).

(** The state after one more gate was constructed: one identifier taken,
    three draws spent on shuffling the four table entries. *)
Definition after_gate (s : State) : State :=
  mkState (gate_id_counter s + 1) (random_source s) (3 + random_pos s)
          (stderr s) (stdout s).

(** The ciphertext [_garble] computes for the combination [(a, b)], and
    the four of them in the order of the two loops. *)
Definition ciphertext (w1 w2 wo : Wire.t) (func : Z → Z → Z) (gate_id : Z)
    (a b : Z) : Z :=
  encrypt (label_of w1 a) (label_of w2 b) gate_id (label_of wo (func a b)).

Definition ciphertexts (w1 w2 wo : Wire.t) (func : Z → Z → Z) (gate_id : Z)
    : list Z :=
  [ ciphertext w1 w2 wo func gate_id 0 0;
    ciphertext w1 w2 wo func gate_id 0 1;
    ciphertext w1 w2 wo func gate_id 1 0;
    ciphertext w1 w2 wo func gate_id 1 1 ].

(** A function from bits to bits, as the three gate functions are. *)
Definition bit_function (func : Z → Z → Z) : Prop :=
  ∀ a b, is_bit a → is_bit b → is_bit (func a b).

(** No false acceptance under the labels of [(a, b)]: a ciphertext of the
    table that decrypts, under these two labels, to one of the output
    wire's two labels decrypts to the label of [func a b]. *)
Definition no_false_accept (w1 w2 wo : Wire.t) (func : Z → Z → Z)
    (gate_id : Z) (a b : Z) : Prop :=
  ∀ a' b', is_bit a' → is_bit b' →
    let decrypted :=
      decrypt (label_of w1 a) (label_of w2 b) gate_id
              (ciphertext w1 w2 wo func gate_id a' b') in
    decrypted = Wire.labels0 wo ∨ decrypted = Wire.labels1 wo →
    decrypted = label_of wo (func a b).

(** *** The plain circuit behind the garbled one *)

(** The wiring of a gate: its two inputs, its output and its function. *)
Definition wiring (g : Gate.t) : string * string * string * (Z → Z → Z) :=
  (Gate.input_wire1 g, Gate.input_wire2 g, Gate.output_wire g, Gate.func g).

(** A valuation gives a bit to some of the wires. *)
Definition valuation : Type := string → option Z.

Definition update (val : valuation) (r : string) (bit : Z) : valuation :=
  fun r' => if String.eqb r' r then Some bit else val r'.

(** Evaluation of a list of wirings on plain bits, in list order. *)
Fixpoint plain (netlist : list (string * string * string * (Z → Z → Z)))
    (val : valuation) : option valuation :=
  match netlist with
  | [] => Some val
  | (in1, in2, out, func) :: rest =>
      match val in1, val in2 with
      | Some a, Some b => plain rest (update val out (func a b))
      | _, _ => None
      end
  end.

(** The bits a valuation gives to a list of wires. *)
Fixpoint read (val : valuation) (rs : list string) : option (list Z) :=
  match rs with
  | [] => Some []
  | r :: rest =>
      match val r, read val rest with
      | Some bit, Some bits => Some (bit :: bits)
      | _, _ => None
      end
  end.

(** The twelve gates of [_build_circuit]. *)
Definition adder_netlist : list (string * string * string * (Z → Z → Z)) :=
  [ ("a0", "b0", "sum0", xor_gate);
    ("a0", "b0", "carry0", and_gate);
    ("a1", "b1", "temp1", xor_gate);
    ("temp1", "carry0", "sum1", xor_gate);
    ("a1", "b1", "and1", and_gate);
    ("temp1", "carry0", "and2", and_gate);
    ("and1", "and2", "carry1", or_gate);
    ("a2", "b2", "temp2", xor_gate);
    ("temp2", "carry1", "sum2", xor_gate);
    ("a2", "b2", "and3", and_gate);
    ("temp2", "carry1", "and4", and_gate);
    ("and3", "and4", "carry2", or_gate) ].

Definition input_names : list string := ["a0"; "a1"; "a2"; "b0"; "b1"; "b2"].

(** The bits on the six input wires. *)
Definition input_valuation (a0 a1 a2 b0 b1 b2 : Z) : valuation :=
  update (update (update (update (update (update (fun _ => None)
    "a0" a0) "a1" a1) "a2" a2) "b0" b0) "b1" b1) "b2" b2.

(** The [n] low bits of [x], least significant first. *)
Fixpoint to_bits (n : nat) (x : Z) : list Z :=
  match n with
  | O => []
  | S n' => x mod 2 :: to_bits n' (x / 2)
  end.

(** A store encodes a valuation when every wire the valuation gives a bit
    to carries, as its evaluated label, its label for that bit. *)
Definition encodes (ws : WireStore) (val : valuation) : Prop :=
  ∀ r bit, val r = Some bit →
    is_bit bit
    ∧ ∃ w, ws !! r = Some w
           ∧ Wire.evaluated_label w = Some (label_of w bit).

Definition labels_pair (w : Wire.t) : Z * Z :=
  (Wire.labels0 w, Wire.labels1 w).

(** Two stores with the same wires carrying the same label pairs. *)
Definition same_labels (ws ws' : WireStore) : Prop :=
  ∀ r, labels_pair <$> ws !! r = labels_pair <$> ws' !! r.

(** The gate was garbled with the labels its wires have in the store. *)
Definition garbled_in (ws : WireStore) (g : Gate.t) : Prop :=
  ∃ w1 w2 wo,
    ws !! Gate.input_wire1 g = Some w1
    ∧ ws !! Gate.input_wire2 g = Some w2
    ∧ ws !! Gate.output_wire g = Some wo
    ∧ Gate.garbled_table g
        ≡ₚ ciphertexts w1 w2 wo (Gate.func g) (Gate.gate_id g)
    ∧ bit_function (Gate.func g).

(** No combination of input bits is falsely accepted by the gate. *)
Definition accepts_only_true (ws : WireStore) (g : Gate.t) : Prop :=
  ∀ w1 w2 wo,
    ws !! Gate.input_wire1 g = Some w1 →
    ws !! Gate.input_wire2 g = Some w2 →
    ws !! Gate.output_wire g = Some wo →
    ∀ a b, is_bit a → is_bit b →
           no_false_accept w1 w2 wo (Gate.func g) (Gate.gate_id g) a b.

(** The two labels of the wire differ. *)
Definition distinct_labels (ws : WireStore) (r : string) : Prop :=
  ∀ w, ws !! r = Some w → Wire.labels0 w ≠ Wire.labels1 w.

(** *** What the constructor builds *)

(** A value the constructor can turn into a wire: [None] or a bit. *)
Definition ok_value (v : option Z) : Prop :=
  match v with
  | None => True
  | Some z => is_bit z
  end.

(** The wire [_new_wire(name, value)] registers when the random module is
    in state [s]: its labels are the next two 64-bit draws. *)
Definition made_wire (name : string) (value : option Z) (s : State)
    : Wire.t :=
  let l0 := random_source s (random_pos s) mod 2 ^ 64 in
  let l1 := random_source s (S (random_pos s)) mod 2 ^ 64 in
  Wire.mk name l0 l1 value
          (match value with
           | Some v => Some (if v =? 0 then l0 else l1)
           | None => None
           end).

(** The labels of the wire are two successive draws made from [s] on. *)
Definition drawn (s : State) (w : Wire.t) : Prop :=
  ∃ n, (random_pos s ≤ n)%nat
       ∧ Wire.labels0 w = random_source s n mod 2 ^ 64
       ∧ Wire.labels1 w = random_source s (S n) mod 2 ^ 64.

(** The input wire [name] was given the value [v]. *)
Definition input_bound (ws : WireStore) (name : string) (v : option Z)
    : Prop :=
  ∃ w, ws !! name = Some w
       ∧ Wire.value w = v
       ∧ Wire.evaluated_label w = label_of w <$> v.

(** The circuit the constructor returns when started in state [s] on the
    six input values. *)
Record built (s : State) (values : list (option Z))
    (c : GarbledFullAdderCircuit.t) : Prop := {
  built_netlist :
    map wiring (GarbledFullAdderCircuit.gates c) = adder_netlist;
  built_garbled :
    Forall (garbled_in (GarbledFullAdderCircuit.wires c))
           (GarbledFullAdderCircuit.gates c);
  built_gate_ids :
    map Gate.gate_id (GarbledFullAdderCircuit.gates c)
    = map (Z.add (gate_id_counter s)) [0; 1; 2; 3; 4; 5; 6; 7; 8; 9; 10; 11];
  built_full_sum :
    GarbledFullAdderCircuit.full_sum_wires c
    = ["sum0"; "sum1"; "sum2"; "carry2"];
  built_result :
    GarbledFullAdderCircuit.result_wires c = ["sum1"; "sum2"; "carry2"];
  built_outputs :
    Forall (fun r => is_Some (GarbledFullAdderCircuit.wires c !! r))
           (GarbledFullAdderCircuit.full_sum_wires c);
  built_drawn :
    ∀ name w, GarbledFullAdderCircuit.wires c !! name = Some w → drawn s w;
  built_inputs :
    Forall2 (input_bound (GarbledFullAdderCircuit.wires c))
            input_names values;
  built_internal :
    ∀ name w, GarbledFullAdderCircuit.wires c !! name = Some w →
              name ∉ input_names → Wire.evaluated_label w = None
}.

(** The process state once a circuit has been built: twelve gate
    identifiers and seventy-two draws later. *)
Definition after_build (s : State) : State :=
  mkState (gate_id_counter s + 12) (random_source s) (72 + random_pos s)
          (stderr s) (stdout s).

Definition is_bitb (z : Z) : bool := (z =? 0) || (z =? 1).

(** The first value of the list that is neither [None] nor a bit. *)
Fixpoint first_bad (values : list (option Z)) : option Z :=
  match values with
  | [] => None
  | None :: rest => first_bad rest
  | Some v :: rest => if is_bitb v then first_bad rest else Some v
  end.

(** *** Deciding the side conditions on a concrete circuit *)

(** The test of [no_false_accept] for the ciphertext of [(a', b')], of
    pad [p'], decrypted with the pad [p] of [(a, b)]. *)
Definition accept_ok (wo : Wire.t) (func : Z → Z → Z)
    (ab : Z * Z * Z) (ab' : Z * Z * Z) : bool :=
  let '(a, b, p) := ab in
  let '(a', b', p') := ab' in
  let decrypted := Z.lxor (Z.lxor (label_of wo (func a' b')) p') p in
  implb ((decrypted =? Wire.labels0 wo) || (decrypted =? Wire.labels1 wo))
        (decrypted =? label_of wo (func a b)).

(** The four combinations of input bits with their pads. *)
Definition pads (w1 w2 : Wire.t) (gate_id : Z) : list (Z * Z * Z) :=
  [ (0, 0, hash_value (label_of w1 0) (label_of w2 0) gate_id);
    (0, 1, hash_value (label_of w1 0) (label_of w2 1) gate_id);
    (1, 0, hash_value (label_of w1 1) (label_of w2 0) gate_id);
    (1, 1, hash_value (label_of w1 1) (label_of w2 1) gate_id) ].

Definition no_false_accept_b (w1 w2 wo : Wire.t) (func : Z → Z → Z)
    (gate_id : Z) : bool :=
  let ps := pads w1 w2 gate_id in
  forallb (fun ab => forallb (accept_ok wo func ab) ps) ps.

Definition accepts_only_true_b (ws : WireStore) (g : Gate.t) : bool :=
  match ws !! Gate.input_wire1 g, ws !! Gate.input_wire2 g,
        ws !! Gate.output_wire g with
  | Some w1, Some w2, Some wo =>
      no_false_accept_b w1 w2 wo (Gate.func g) (Gate.gate_id g)
  | _, _, _ => true
  end.

Definition distinct_labels_b (ws : WireStore) (r : string) : bool :=
  match ws !! r with
  | Some w => negb (Wire.labels0 w =? Wire.labels1 w)
  | None => true
  end.

(** ** Example runs

    Concrete runs used to exercise the statements: a store of three wires
    and one gate over them, drawn from a given state of the random
    module. *)

Definition three_wires : M State WireStore :=
  let! x := Wire.init "x" None in
  let! y := Wire.init "y" None in
  let! z := Wire.init "z" None in
  ret (<["z" := z]> (<["y" := y]> (<["x" := x]> ∅))).

Definition store_of (r : Result WireStore * State) : WireStore :=
  match r with
  | (Ok ws, _) => ws
  | (Raise _, _) => ∅
  end.

Definition gate_of (r : Result Gate.t * State) : Gate.t :=
  match r with
  | (Ok g, _) => g
  | (Raise _, _) => Gate.mk "" "" "" and_gate 0 "" []
  end.

(** An arbitrary run of the random module. *)
Definition demo_source (n : nat) : Z :=
  (Z.of_nat n * 6364136223846793005 + 1442695040888963407) ^ 3.

Definition demo_state : State := mkState 0 demo_source 0 [] [].

Definition demo_store : WireStore := store_of (three_wires demo_state).

Definition demo_gate : Gate.t :=
  gate_of (Gate.init demo_store "x" "y" "z" and_gate "AND"
                     (three_wires demo_state).2).

(** A run of the random module whose first two 64-bit draws are equal
    (the two labels of wire x) and whose shuffle leaves the table in the
    order of the loops. *)
Definition collision_source (n : nat) : Z :=
  match n with
  | 0%nat | 1%nat => 5
  | 6%nat => 3
  | 7%nat => 2
  | 8%nat => 1
  | _ => Z.of_nat n + 10
  end.

Definition collision_state : State := mkState 0 collision_source 0 [] [].

Definition collision_store : WireStore :=
  store_of (three_wires collision_state).

Definition collision_gate : Gate.t :=
  gate_of (Gate.init collision_store "x" "y" "z" and_gate "AND"
                     (three_wires collision_state).2).

Definition circuit_of (r : Result GarbledFullAdderCircuit.t * State)
    : GarbledFullAdderCircuit.t :=
  match r with
  | (Ok c, _) => c
  | (Raise _, _) => GarbledFullAdderCircuit.mk [] [] ∅ [] [] []
  end.

(** The inputs of the driver: A = 5 and B = 1, least significant bit
    first. *)
Definition demo_a : list (option Z) := [Some 1; Some 0; Some 1].
Definition demo_b : list (option Z) := [Some 1; Some 0; Some 0].

Definition demo_circuit : GarbledFullAdderCircuit.t :=
  circuit_of (GarbledFullAdderCircuit.init demo_a demo_b demo_state).

(** The circuit and the process state after [circuit.evaluate()]. *)
Definition evaluated (c : GarbledFullAdderCircuit.t) (s : State)
    : GarbledFullAdderCircuit.t * State :=
  (GarbledFullAdderCircuit.evaluate (c, s)).2.

(** A run of the random module in which the two draws for the labels of
    wire sum1 (the 28th and 29th of a construction) are equal. *)
Definition sum1_collision_source (n : nat) : Z :=
  match n with
  | 28%nat => demo_source 27
  | _ => demo_source n
  end.

Definition sum1_collision_state : State :=
  mkState 0 sum1_collision_source 0 [] [].

(** A = 2 and B = 0. *)
Definition two_a : list (option Z) := [Some 0; Some 1; Some 0].
Definition zero_b : list (option Z) := [Some 0; Some 0; Some 0].

Definition sum1_collision_circuit : GarbledFullAdderCircuit.t :=
  circuit_of (GarbledFullAdderCircuit.init two_a zero_b
                                           sum1_collision_state).

(** A circuit whose first operand has no value for its bit 0. *)
Definition unset_a : list (option Z) := [None; Some 0; Some 1].

Definition unset_circuit : GarbledFullAdderCircuit.t :=
  circuit_of (GarbledFullAdderCircuit.init unset_a demo_b demo_state).

(** The circuit with the garbled table of its first gate emptied. *)
Definition corrupt_first_table (c : GarbledFullAdderCircuit.t)
    : GarbledFullAdderCircuit.t :=
  match GarbledFullAdderCircuit.gates c with
  | g :: rest =>
      GarbledFullAdderCircuit.mk
        (GarbledFullAdderCircuit.a_bits c) (GarbledFullAdderCircuit.b_bits c)
        (GarbledFullAdderCircuit.wires c)
        (Gate.mk (Gate.input_wire1 g) (Gate.input_wire2 g)
                 (Gate.output_wire g) (Gate.func g) (Gate.gate_id g)
                 (Gate.gate_type g) [] :: rest)
        (GarbledFullAdderCircuit.full_sum_wires c)
        (GarbledFullAdderCircuit.result_wires c)
  | [] => c
  end.

(** The process state with one more line on [sys.stderr]. *)
Definition logged (line : stderr_line) (s : State) : State :=
  (eprint line s).2.

(** What a caller observes of [circuit.evaluate()]: the returned value,
    the full sum decoded from the evaluated circuit, and [sys.stderr]. *)
Definition outcome (c : GarbledFullAdderCircuit.t) (s : State)
    : Result (option (list (option Z))) * Result (list (option Z))
      * list stderr_line :=
  let r := GarbledFullAdderCircuit.evaluate (c, s) in
  (r.1, GarbledFullAdderCircuit.full_sum r.2.1, stderr r.2.2).

(** *** The flow of labels through a circuit *)

(** Which wires carry a label, gate after gate.  [inl k]: the gate at
    position [k] is the first to read a wire that carries none;
    [inr known]: every gate finds its two labels, and [known] tells the
    wires that carry a label in the end. *)
Fixpoint flow (netlist : list (string * string * string * (Z → Z → Z)))
    (known : string → bool) : nat + (string → bool) :=
  match netlist with
  | [] => inr known
  | (in1, in2, out, _) :: rest =>
      if known in1 && known in2
      then match flow rest (fun r => String.eqb r out || known r) with
           | inl k => inl (S k)
           | inr known' => inr known'
           end
      else inl O
  end.

(** The wires of the store that [known] tells carry, as evaluated label,
    one of their own two labels; the others carry none. *)
Definition labelled (ws : WireStore) (known : string → bool) : Prop :=
  ∀ r w, ws !! r = Some w →
    if known r
    then ∃ bit, is_bit bit ∧ Wire.evaluated_label w = Some (label_of w bit)
    else Wire.evaluated_label w = None.

Definition has_value (v : option Z) : bool :=
  match v with
  | Some _ => true
  | None => false
  end.

(** The input wires that were given a value. *)
Definition input_known (k0 k1 k2 k3 k4 k5 : bool) : string → bool :=
  fun r =>
    (String.eqb r "a0" && k0) || (String.eqb r "a1" && k1)
    || (String.eqb r "a2" && k2) || (String.eqb r "b0" && k3)
    || (String.eqb r "b1" && k4) || (String.eqb r "b2" && k5).

(** The position, in the gate list, of the first gate that reads an input
    wire without value: gate 0 reads a0 and b0, gate 2 reads a1 and b1,
    gate 7 reads a2 and b2. *)
Definition first_unset (k0 k1 k2 k3 k4 k5 : bool) : option nat :=
  if negb (k0 && k3) then Some 0%nat
  else if negb (k1 && k4) then Some 2%nat
  else if negb (k2 && k5) then Some 7%nat
  else None.

(** *** What evaluation leaves alone *)

(** The part of a wire that is fixed at construction: its name, its two
    labels and its value. *)
Definition static (w : Wire.t) : string * Z * Z * option Z :=
  (Wire.name w, Wire.labels0 w, Wire.labels1 w, Wire.value w).

(** Two stores with the same wires, up to their evaluated labels. *)
Definition same_wires (ws ws' : WireStore) : Prop :=
  ∀ r, static <$> ws !! r = static <$> ws' !! r.

(** Two process states that differ at most by lines added on
    [sys.stderr]. *)
Definition only_logged (st st' : State) : Prop :=
  gate_id_counter st' = gate_id_counter st
  ∧ random_source st' = random_source st
  ∧ random_pos st' = random_pos st
  ∧ stdout st' = stdout st
  ∧ ∃ lines, stderr st' = stderr st ++ lines.

(** The value of the first combination of input bits, in the order of the
    loops of [_garble], that the function sends outside {0, 1}. *)
Definition first_bad_output (func : Z → Z → Z) : option Z :=
  if negb (is_bitb (func 0 0)) then Some (func 0 0)
  else if negb (is_bitb (func 0 1)) then Some (func 0 1)
  else if negb (is_bitb (func 1 0)) then Some (func 1 0)
  else if negb (is_bitb (func 1 1)) then Some (func 1 1)
  else None.

(** *** The shape of a constructed circuit *)

(** The gates of the list come in dependency order from the wires
    [ready]: each reads two wires that are ready, and writes a wire that
    is not, which is ready from then on. *)
Fixpoint in_order (netlist : list (string * string * string * (Z → Z → Z)))
    (ready : list string) : bool :=
  match netlist with
  | [] => true
  | (in1, in2, out, _) :: rest =>
      existsb (String.eqb in1) ready
      && existsb (String.eqb in2) ready
      && negb (existsb (String.eqb out) ready)
      && in_order rest (out :: ready)
  end.

(** The type a gate is printed with names its function. *)
Definition typed (g : Gate.t) : Prop :=
  (Gate.gate_type g = "XOR" ∧ Gate.func g = xor_gate)
  ∨ (Gate.gate_type g = "AND" ∧ Gate.func g = and_gate)
  ∨ (Gate.gate_type g = "OR" ∧ Gate.func g = or_gate).

(** The position of the first value of the list that is neither [None]
    nor a bit. *)
Fixpoint bad_index (values : list (option Z)) : option nat :=
  match values with
  | [] => None
  | None :: rest => S <$> bad_index rest
  | Some v :: rest => if is_bitb v then S <$> bad_index rest else Some O
  end.

(** The state after some lines were written on [sys.stderr]. *)
Definition logged_all (lines : list stderr_line) (s : State) : State :=
  mkState (gate_id_counter s) (random_source s) (random_pos s)
          (stderr s ++ lines) (stdout s).

(** The bytes [hash_value] feeds to SHA-256: ["k1_k2_gate_id"], encoded. *)
Definition hashed_message (k1 k2 gate_id : Z) : list Z :=
  encode (str k1 ++ "_" ++ str k2 ++ "_" ++ str gate_id)%string.

(* ================================================================== *)
(** * Theorems *)
(* ================================================================== *)

(** ** SHA-256 against the digests of hashlib *)

Module SHA256Tests.

Example digest_abc :
  SHA256.from_bytes_big (SHA256.digest (encode "abc")) =
  84342368487090800366523834928142263660104883695016514377462985829716817089965.
Proof. vm_compute. reflexivity. Qed.

Example digest_empty :
  SHA256.from_bytes_big (SHA256.digest (encode "")) =
  102987336249554097029535212322581322789799900648198034993379397001115665086549.
Proof. vm_compute. reflexivity. Qed.

Example digest_two_blocks :
  SHA256.from_bytes_big (SHA256.digest (repeat 97 64)) =
  115736136738703445724909789689412237499275973113121828343427508099316743301355.
Proof. vm_compute. reflexivity. Qed.

Example digest_56_bytes :
  SHA256.from_bytes_big (SHA256.digest (repeat 97 56)) =
  81112812888978480114685272266761798772894276249669478316734282911705725301642.
Proof. vm_compute. reflexivity. Qed.

Example hash_value_1_2_0 :
  hash_value 1 2 0 =
  32783722733582997920394995301043773537177975758013534494635824558727566358296.
Proof. vm_compute. reflexivity. Qed.

Example hash_value_negative :
  hash_value (-5) 0 12 =
  99528075054994364063698827076735640603258282699664631476688767617138185582704.
Proof. vm_compute. reflexivity. Qed.

Example hash_value_wide :
  hash_value 18446744073709551615 18446744073709551615
             123456789012345678901234567890 =
  63315868644948175055653924945507696416086137560824023889045980816953571936240.
Proof. vm_compute. reflexivity. Qed.

End SHA256Tests.

(** ** The monad and the random module *)

Lemma labels_label_of w bit :
  is_bit bit → Wire.labels w bit = Ok (label_of w bit).
Proof. by intros [-> | ->]. Qed.

Lemma labels_Ok w k l :
  Wire.labels w k = Ok l → is_bit k ∧ l = label_of w k.
Proof.
  unfold Wire.labels, label_of, is_bit.
  destruct (Z.eqb_spec k 0) as [-> | ?]; [intros [= <-]; auto |].
  destruct (Z.eqb_spec k 1) as [-> | ?]; [intros [= <-]; auto | done].
Qed.

Lemma insert_head_perm {A} (l : list A) j (a y : A) :
  l !! j = Some y → y :: <[j := a]> l ≡ₚ a :: l.
Proof.
  revert j. induction l as [| x l IH]; intros [| j] Hj; simplify_eq/=.
  - apply Permutation_swap.
  - rewrite (Permutation_swap x y), (IH _ Hj). apply Permutation_swap.
Qed.

Lemma swap_perm {A} (x : list A) i j : swap x i j ≡ₚ x.
Proof.
  unfold swap. revert i j.
  induction x as [| a l IH]; intros i j; [by destruct i, j |].
  destruct i as [| i], j as [| j]; simpl.
  - done.
  - destruct (l !! j) as [xj |] eqn:Hj; [| done]. simpl.
    by apply insert_head_perm.
  - destruct (l !! i) as [xi |] eqn:Hi; [| done]. simpl.
    by apply insert_head_perm.
  - specialize (IH i j).
    destruct (l !! i) as [xi |], (l !! j) as [xj |]; simpl; try done.
    by rewrite IH.
Qed.

Lemma advance_succ n s :
  advance n (mkState (gate_id_counter s) (random_source s)
                     (S (random_pos s)) (stderr s) (stdout s))
  = advance (S n) s.
Proof. unfold advance; simpl. f_equal. lia. Qed.

(** [random.shuffle] permutes its argument and draws once per position
    but the first. *)
Lemma shuffle_from_run {A} i (x : list A) s :
  ∃ x', shuffle_from i x s = (Ok x', advance i s) ∧ x' ≡ₚ x.
Proof.
  revert x s. induction i as [| i IH]; intros x s.
  - exists x. split; [by destruct s | done].
  - cbn [shuffle_from]. unfold bind, randbelow, next_draw, ret. simpl.
    edestruct IH as (x' & -> & Hp).
    exists x'. split; [by rewrite advance_succ |].
    by rewrite Hp, swap_perm.
Qed.

Lemma shuffle_run {A} (x : list A) s :
  ∃ x', shuffle x s = (Ok x', advance (length x - 1) s) ∧ x' ≡ₚ x.
Proof. apply shuffle_from_run. Qed.

(** ** Encryption *)

Lemma decrypt_encrypt_xor key_a key_b gate_id label :
  decrypt key_a key_b gate_id (encrypt key_a key_b gate_id label) = label.
Proof.
  unfold decrypt, encrypt.
  by rewrite Z.lxor_assoc, Z.lxor_nilpotent, Z.lxor_0_r.
Qed.



(** ** Gate construction *)

Lemma garble_loop_combos_Ok w1 w2 wo func gate_id table :
  Gate.garble_loop w1 w2 wo func gate_id Gate.combos = Ok table →
  map snd table = ciphertexts w1 w2 wo func gate_id ∧ bit_function func.
Proof.
  unfold Gate.combos. cbn [Gate.garble_loop Gate.garble_entry].
  change (Wire.labels w1 0) with (Ok (label_of w1 0)).
  change (Wire.labels w1 1) with (Ok (label_of w1 1)).
  change (Wire.labels w2 0) with (Ok (label_of w2 0)).
  change (Wire.labels w2 1) with (Ok (label_of w2 1)).
  cbv beta iota.
  destruct (Wire.labels wo (func 0 0)) as [l00 |] eqn:H00; [| done].
  destruct (Wire.labels wo (func 0 1)) as [l01 |] eqn:H01; [| done].
  destruct (Wire.labels wo (func 1 0)) as [l10 |] eqn:H10; [| done].
  destruct (Wire.labels wo (func 1 1)) as [l11 |] eqn:H11; [| done].
  apply labels_Ok in H00 as [? ->], H01 as [? ->], H10 as [? ->],
    H11 as [? ->].
  intros [= <-]. split; [reflexivity |].
  by intros a b [-> | ->] [-> | ->].
Qed.

Lemma garble_loop_combos_run w1 w2 wo func gate_id :
  bit_function func →
  ∃ table, Gate.garble_loop w1 w2 wo func gate_id Gate.combos = Ok table
           ∧ length table = 4%nat
           ∧ map snd table = ciphertexts w1 w2 wo func gate_id.
Proof.
  intros Hf. unfold Gate.combos. cbn [Gate.garble_loop Gate.garble_entry].
  rewrite !labels_label_of
    by (first [by left | by right
              | apply Hf; first [by left | by right]]).
  eexists. split; [reflexivity |]. by split.
Qed.

(** What a successful construction of a gate has done. *)
Lemma Gate_init_Ok ws in1 in2 out func ty s g s' :
  Gate.init ws in1 in2 out func ty s = (Ok g, s') →
  ∃ w1 w2 wo,
    ws !! in1 = Some w1 ∧ ws !! in2 = Some w2 ∧ ws !! out = Some wo
    ∧ (Gate.input_wire1 g = in1 ∧ Gate.input_wire2 g = in2
       ∧ Gate.output_wire g = out ∧ Gate.func g = func
       ∧ Gate.gate_id g = gate_id_counter s ∧ Gate.gate_type g = ty)
    ∧ Gate.garbled_table g ≡ₚ ciphertexts w1 w2 wo func (gate_id_counter s)
    ∧ bit_function func
    ∧ s' = after_gate s.
Proof.
  unfold Gate.init, Gate.garble, get_next_gate_id, deref, bind, ret, raise,
    of_result.
  destruct (ws !! in1) as [w1 |]; [| done].
  destruct (ws !! in2) as [w2 |]; [| done].
  destruct (ws !! out) as [wo |]; [| done].
  destruct (Gate.garble_loop _ _ _ _ _ _) as [table |] eqn:Hloop; [| done].
  pose proof Hloop as Hlen.
  apply garble_loop_combos_Ok in Hloop as [Hsnd Hf].
  destruct (garble_loop_combos_run w1 w2 wo func (gate_id_counter s) Hf)
    as (table' & Htable' & Hlen' & _).
  rewrite Hlen in Htable'. injection Htable' as <-.
  match goal with
  | |- context [shuffle table ?st] =>
      destruct (shuffle_run table st) as (shuffled & -> & Hperm)
  end.
  intros [= <- <-]. exists w1, w2, wo. repeat split; try done.
  - simpl. by rewrite Hperm, Hsnd.
  - rewrite Hlen'. reflexivity.
Qed.

(** A gate over a function from bits to bits, on wires that exist, is
    always constructed. *)
Lemma Gate_init_run ws in1 in2 out func ty s w1 w2 wo :
  ws !! in1 = Some w1 → ws !! in2 = Some w2 → ws !! out = Some wo →
  bit_function func →
  ∃ table,
    Gate.init ws in1 in2 out func ty s
    = (Ok (Gate.mk in1 in2 out func (gate_id_counter s) ty table),
       after_gate s)
    ∧ table ≡ₚ ciphertexts w1 w2 wo func (gate_id_counter s).
Proof.
  intros H1 H2 Ho Hf.
  destruct (garble_loop_combos_run w1 w2 wo func (gate_id_counter s) Hf)
    as (table & Htable & Hlen & Hsnd).
  unfold Gate.init, Gate.garble, get_next_gate_id, deref, bind, ret, raise,
    of_result.
  rewrite H1, H2, Ho, Htable.
  match goal with
  | |- context [shuffle table ?st] =>
      destruct (shuffle_run table st) as (shuffled & -> & Hperm)
  end.
  exists (map snd shuffled). split.
  - rewrite Hlen. reflexivity.
  - by rewrite Hperm, Hsnd.
Qed.

(** ** Gate evaluation *)

Lemma evaluate_loop_Some wo gate_id la lb table d :
  Gate.evaluate_loop wo gate_id la lb table = Some d →
  (d = Wire.labels0 wo ∨ d = Wire.labels1 wo)
  ∧ ∃ c, c ∈ table ∧ d = decrypt la lb gate_id c.
Proof.
  induction table as [| c table IH]; [done |]. cbn [Gate.evaluate_loop].
  destruct (_ || _) eqn:Hvalid.
  - intros [= <-]. split; [| exists c; split; [left | done]].
    apply orb_true_iff in Hvalid as [H | H]; apply Z.eqb_eq in H; auto.
  - intros H. destruct (IH H) as (? & c' & ? & ?).
    split; [done |]. exists c'. split; [by right | done].
Qed.

Lemma evaluate_loop_None wo gate_id la lb table :
  Gate.evaluate_loop wo gate_id la lb table = None ↔
  ∀ c, c ∈ table →
       decrypt la lb gate_id c ≠ Wire.labels0 wo
       ∧ decrypt la lb gate_id c ≠ Wire.labels1 wo.
Proof.
  induction table as [| c table IH]; cbn [Gate.evaluate_loop].
  - split; [intros _ c Hc; by apply elem_of_nil in Hc | done].
  - destruct (_ || _) eqn:Hvalid.
    + split; [done |]. intros H. destruct (H c) as [H0 H1]; [left |].
      apply orb_true_iff in Hvalid as [E | E]; apply Z.eqb_eq in E; done.
    + apply orb_false_iff in Hvalid as [E0 E1].
      apply Z.eqb_neq in E0, E1. rewrite IH. split.
      * intros H c' [-> | Hc']%elem_of_cons; auto.
      * intros H c' Hc'. apply H. by right.
Qed.

(** The loop finds the target label when the table holds a ciphertext
    that decrypts to it and no ciphertext decrypts to the other label. *)
Lemma evaluate_loop_target wo gate_id la lb table target :
  (target = Wire.labels0 wo ∨ target = Wire.labels1 wo) →
  (∃ c, c ∈ table ∧ decrypt la lb gate_id c = target) →
  (∀ c, c ∈ table →
        decrypt la lb gate_id c = Wire.labels0 wo
        ∨ decrypt la lb gate_id c = Wire.labels1 wo →
        decrypt la lb gate_id c = target) →
  Gate.evaluate_loop wo gate_id la lb table = Some target.
Proof.
  intros Htarget (c & Hc & Hdec) Hsound.
  destruct (Gate.evaluate_loop wo gate_id la lb table) as [d |] eqn:Hloop.
  - apply evaluate_loop_Some in Hloop as (Hd & c' & Hc' & ->).
    f_equal. by apply Hsound.
  - rewrite evaluate_loop_None in Hloop. destruct (Hloop c Hc) as [H0 H1].
    rewrite Hdec in H0, H1. by destruct Htarget.
Qed.

Lemma elem_of_ciphertexts w1 w2 wo func gate_id c :
  c ∈ ciphertexts w1 w2 wo func gate_id ↔
  ∃ a b, is_bit a ∧ is_bit b ∧ c = ciphertext w1 w2 wo func gate_id a b.
Proof.
  unfold ciphertexts. rewrite !elem_of_cons, elem_of_nil. split.
  - intros [-> | [-> | [-> | [-> | []]]]];
      [exists 0, 0 | exists 0, 1 | exists 1, 0 | exists 1, 1];
      unfold is_bit; auto.
  - intros (a & b & [-> | ->] & [-> | ->] & ->); auto.
Qed.

Lemma label_of_valid w bit :
  label_of w bit = Wire.labels0 w ∨ label_of w bit = Wire.labels1 w.
Proof. unfold label_of. destruct (bit =? 0); auto. Qed.

(** Evaluation of a gate whose table is a permutation of its four
    ciphertexts, on the labels of [(a, b)], in any store whose output wire
    carries the labels the gate was garbled with. *)
Lemma Gate_evaluate_target (g : Gate.t) (w1 w2 wo wo' : Wire.t)
    (ws : WireStore) (st : State) (a b : Z) :
  Gate.garbled_table g
    ≡ₚ ciphertexts w1 w2 wo (Gate.func g) (Gate.gate_id g) →
  ws !! Gate.output_wire g = Some wo' →
  Wire.labels0 wo' = Wire.labels0 wo → Wire.labels1 wo' = Wire.labels1 wo →
  is_bit a → is_bit b →
  no_false_accept w1 w2 wo (Gate.func g) (Gate.gate_id g) a b →
  Gate.evaluate g (label_of w1 a) (label_of w2 b) (ws, st)
  = (Ok (Some (label_of wo (Gate.func g a b))),
     (<[Gate.output_wire g :=
          Wire.set_evaluated_label wo' (label_of wo (Gate.func g a b))]> ws,
      st)).
Proof.
  intros Hperm Hwo H0 H1 Ha Hb Hsound. unfold Gate.evaluate. rewrite Hwo.
  rewrite (evaluate_loop_target wo' _ _ _ _ (label_of wo (Gate.func g a b)));
    [done | | |].
  - rewrite H0, H1. apply label_of_valid.
  - exists (ciphertext w1 w2 wo (Gate.func g) (Gate.gate_id g) a b). split.
    + rewrite Hperm. apply elem_of_ciphertexts. by exists a, b.
    + apply decrypt_encrypt_xor.
  - intros c Hc. rewrite Hperm in Hc.
    apply elem_of_ciphertexts in Hc as (a' & b' & Ha' & Hb' & ->).
    rewrite H0, H1. by apply Hsound.
Qed.

Lemma evaluate_gates_field c st r c' st' :
  GarbledFullAdderCircuit.evaluate (c, st) = (r, (c', st')) →
  GarbledFullAdderCircuit.gates c' = GarbledFullAdderCircuit.gates c.
Proof.
  unfold GarbledFullAdderCircuit.evaluate.
  destruct (GarbledFullAdderCircuit.evaluate_gates _ _)
    as [[[] | e] [ws s']].
  - destruct (GarbledFullAdderCircuit.decode _ _); by intros [= <- <- <-].
  - by intros [= <- <- <-].
  - by intros [= <- <- <-].
Qed.

(** C6. The garbled table of a constructed gate holds exactly four
    ciphertexts: a permutation of the encryptions, under the gate
    identifier, of the output label of [func a b] with the input labels of
    [a] and [b], for the four combinations.  It is set by the constructor;
    evaluating a circuit leaves its gates, tables included, as they
    were. *)
Theorem garbled_table_permutation
    (ws : WireStore) (in1 in2 out : string) (func : Z → Z → Z)
    (gate_type : string) (s s' : State) (g : Gate.t) (w1 w2 wo : Wire.t) :
  Gate.init ws in1 in2 out func gate_type s = (Ok g, s') →
  ws !! in1 = Some w1 → ws !! in2 = Some w2 → ws !! out = Some wo →
  length (Gate.garbled_table g) = 4%nat
  ∧ Gate.garbled_table g ≡ₚ
      [ encrypt (Wire.labels0 w1) (Wire.labels0 w2) (Gate.gate_id g)
                (label_of wo (func 0 0));
        encrypt (Wire.labels0 w1) (Wire.labels1 w2) (Gate.gate_id g)
                (label_of wo (func 0 1));
        encrypt (Wire.labels1 w1) (Wire.labels0 w2) (Gate.gate_id g)
                (label_of wo (func 1 0));
        encrypt (Wire.labels1 w1) (Wire.labels1 w2) (Gate.gate_id g)
                (label_of wo (func 1 1)) ]
  ∧ (∀ a b, is_bit a → is_bit b →
            Wire.labels wo (func a b) = Ok (label_of wo (func a b)))
  ∧ ∀ c st r c' st',
      g ∈ GarbledFullAdderCircuit.gates c →
      GarbledFullAdderCircuit.evaluate (c, st) = (r, (c', st')) →
      GarbledFullAdderCircuit.gates c' = GarbledFullAdderCircuit.gates c.
Proof.
  intros Hinit H1 H2 Ho.
  apply Gate_init_Ok in Hinit
    as (w1' & w2' & wo' & H1' & H2' & Ho' & Hg & Hperm & Hf & _).
  destruct Hg as (_ & _ & _ & _ & -> & _).
  assert (w1' = w1) as -> by congruence.
  assert (w2' = w2) as -> by congruence.
  assert (wo' = wo) as -> by congruence.
  split; [by rewrite Hperm | split; [exact Hperm | split]].
  - intros a b Ha Hb. apply labels_label_of. by apply Hf.
  - intros c st r c' st' _. apply evaluate_gates_field.
Qed.

Lemma garbled_table_permutation_witness :
  length (Gate.garbled_table demo_gate) = 4%nat
  ∧ Gate.garbled_table demo_gate ≡ₚ
      [ encrypt 303850208991914223 7183436445261329337 0
                16880226409612593691;
        encrypt 303850208991914223 4686368761258455704 0
                16880226409612593691;
        encrypt 1161433024429889472 7183436445261329337 0
                16880226409612593691;
        encrypt 1161433024429889472 4686368761258455704 0
                11634773606386413568 ].
Proof.
  assert (Hinit : Gate.init demo_store "x" "y" "z" and_gate "AND"
                            (three_wires demo_state).2
                  = (Ok demo_gate, after_gate (three_wires demo_state).2))
    by (vm_compute; reflexivity).
  assert (H1 : demo_store !! "x"
               = Some (Wire.mk "x" 303850208991914223 1161433024429889472
                               None None))
    by (vm_compute; reflexivity).
  assert (H2 : demo_store !! "y"
               = Some (Wire.mk "y" 7183436445261329337 4686368761258455704
                               None None))
    by (vm_compute; reflexivity).
  assert (Ho : demo_store !! "z"
               = Some (Wire.mk "z" 16880226409612593691 11634773606386413568
                               None None))
    by (vm_compute; reflexivity).
  destruct (garbled_table_permutation _ _ _ _ _ _ _ _ _ _ _ _ Hinit H1 H2 Ho)
    as (Hlen & Hperm & _).
  split; [exact Hlen | exact Hperm].
Defined.


(** C2 (amended). A constructed gate, evaluated on the labels its two
    input wires hold for the bits [a] and [b], returns the label its
    output wire holds for [func a b] and records it as that wire's
    [evaluated_label], provided that no ciphertext of its table decrypts,
    under these two labels, to the other label of the output wire. *)
Theorem Gate_evaluate_correct
    (ws : WireStore) (in1 in2 out : string) (func : Z → Z → Z)
    (gate_type : string) (s s' : State) (g : Gate.t) (w1 w2 wo : Wire.t)
    (a b : Z) :
  Gate.init ws in1 in2 out func gate_type s = (Ok g, s') →
  ws !! in1 = Some w1 → ws !! in2 = Some w2 → ws !! out = Some wo →
  is_bit a → is_bit b →
  no_false_accept w1 w2 wo func (Gate.gate_id g) a b →
  ∃ ws',
    Gate.evaluate g (label_of w1 a) (label_of w2 b) (ws, s')
    = (Ok (Some (label_of wo (func a b))), (ws', s'))
    ∧ Wire.evaluated_label <$> ws' !! out
      = Some (Some (label_of wo (func a b)))
    ∧ ∀ r, r ≠ out → ws' !! r = ws !! r.
Proof.
  intros Hinit H1 H2 Ho Ha Hb Hsound.
  apply Gate_init_Ok in Hinit
    as (w1' & w2' & wo' & H1' & H2' & Ho' & Hg & Hperm & Hf & _).
  destruct Hg as (_ & _ & Hout & Hfunc & Hid & _).
  assert (w1' = w1) as -> by congruence.
  assert (w2' = w2) as -> by congruence.
  assert (wo' = wo) as -> by congruence.
  rewrite <- Hid, <- Hfunc in Hperm. rewrite <- Hfunc in Hsound.
  rewrite <- Hout in Ho.
  pose proof (Gate_evaluate_target g w1 w2 wo wo ws s' a b Hperm Ho
                eq_refl eq_refl Ha Hb Hsound) as Heval.
  rewrite Hfunc, Hout in Heval.
  eexists. split; [exact Heval | split].
  - by rewrite lookup_insert_eq.
  - intros r Hr. by rewrite lookup_insert_ne.
Qed.

Lemma Gate_evaluate_correct_witness :
  no_false_accept
    (Wire.mk "x" 303850208991914223 1161433024429889472 None None)
    (Wire.mk "y" 7183436445261329337 4686368761258455704 None None)
    (Wire.mk "z" 16880226409612593691 11634773606386413568 None None)
    and_gate 0 1 1
  ∧ ∃ ws',
      Gate.evaluate demo_gate 1161433024429889472 4686368761258455704
                    (demo_store, after_gate (three_wires demo_state).2)
      = (Ok (Some 11634773606386413568),
         (ws', after_gate (three_wires demo_state).2))
      ∧ Wire.evaluated_label <$> ws' !! "z"
        = Some (Some 11634773606386413568)
      ∧ ∀ r, r ≠ "z" → ws' !! r = demo_store !! r.
Proof.
  assert (Hinit : Gate.init demo_store "x" "y" "z" and_gate "AND"
                            (three_wires demo_state).2
                  = (Ok demo_gate, after_gate (three_wires demo_state).2))
    by (vm_compute; reflexivity).
  assert (H1 : demo_store !! "x"
               = Some (Wire.mk "x" 303850208991914223 1161433024429889472
                               None None))
    by (vm_compute; reflexivity).
  assert (H2 : demo_store !! "y"
               = Some (Wire.mk "y" 7183436445261329337 4686368761258455704
                               None None))
    by (vm_compute; reflexivity).
  assert (Ho : demo_store !! "z"
               = Some (Wire.mk "z" 16880226409612593691 11634773606386413568
                               None None))
    by (vm_compute; reflexivity).
  assert (Hsound : no_false_accept
    (Wire.mk "x" 303850208991914223 1161433024429889472 None None)
    (Wire.mk "y" 7183436445261329337 4686368761258455704 None None)
    (Wire.mk "z" 16880226409612593691 11634773606386413568 None None)
    and_gate 0 1 1).
  { intros a' b' [-> | ->] [-> | ->]; vm_compute;
      (intros [H | H];
       [discriminate H | first [discriminate H | reflexivity]]). }
  split; [exact Hsound |].
  exact (Gate_evaluate_correct _ _ _ _ _ _ _ _ _ _ _ _ 1 1 Hinit H1 H2 Ho
           (or_intror eq_refl) (or_intror eq_refl) Hsound).
Defined.

(** C2 fails as stated: with the two labels of input wire x equal, the
    AND gate evaluated on the labels of [(1, 1)] returns the output label
    of bit 0, the first ciphertext that decrypts to a label of wire z
    being the one of [(0, 1)]. *)
Lemma Gate_evaluate_wrong_label :
  Gate.init collision_store "x" "y" "z" and_gate "AND"
            (three_wires collision_state).2
  = (Ok collision_gate, after_gate (three_wires collision_state).2)
  ∧ collision_store !! "x" = Some (Wire.mk "x" 5 5 None None)
  ∧ collision_store !! "y" = Some (Wire.mk "y" 12 13 None None)
  ∧ collision_store !! "z" = Some (Wire.mk "z" 14 15 None None)
  ∧ (Gate.evaluate collision_gate 5 13
       (collision_store, after_gate (three_wires collision_state).2)).1
    = Ok (Some 14)
  ∧ label_of (Wire.mk "z" 14 15 None None) (and_gate 1 1) = 15.
Proof.
  split; [vm_compute; reflexivity |].
  split; [vm_compute; reflexivity |].
  split; [vm_compute; reflexivity |].
  split; [vm_compute; reflexivity |].
  split; [vm_compute; reflexivity | reflexivity].
Qed.


(** ** Circuit evaluation against the plain circuit *)

Lemma label_of_ext w w' bit :
  labels_pair w = labels_pair w' → label_of w bit = label_of w' bit.
Proof. unfold labels_pair, label_of. by intros [= -> ->]. Qed.

Lemma ciphertexts_ext w1 w2 wo w1' w2' wo' func gate_id :
  labels_pair w1 = labels_pair w1' → labels_pair w2 = labels_pair w2' →
  labels_pair wo = labels_pair wo' →
  ciphertexts w1 w2 wo func gate_id = ciphertexts w1' w2' wo' func gate_id.
Proof.
  intros H1 H2 Ho. unfold ciphertexts, ciphertext.
  by rewrite !(label_of_ext w1 w1'), !(label_of_ext w2 w2'),
    !(label_of_ext wo wo').
Qed.

Lemma no_false_accept_ext w1 w2 wo w1' w2' wo' func gate_id a b :
  labels_pair w1 = labels_pair w1' → labels_pair w2 = labels_pair w2' →
  labels_pair wo = labels_pair wo' →
  no_false_accept w1 w2 wo func gate_id a b →
  no_false_accept w1' w2' wo' func gate_id a b.
Proof.
  intros H1 H2 Ho Hs a' b' Ha' Hb'. specialize (Hs a' b' Ha' Hb').
  unfold ciphertext in *. cbv zeta in *.
  rewrite <- !(label_of_ext w1 w1'), <- !(label_of_ext w2 w2'),
    <- !(label_of_ext wo wo') by done.
  unfold labels_pair in Ho. injection Ho as <- <-. exact Hs.
Qed.

Lemma same_labels_lookup ws ws' r w :
  same_labels ws ws' → ws !! r = Some w →
  ∃ w', ws' !! r = Some w' ∧ labels_pair w' = labels_pair w.
Proof.
  intros H Hr. specialize (H r). rewrite Hr in H.
  destruct (ws' !! r) as [w' |]; [| done].
  simpl in H. exists w'. split; [done | congruence].
Qed.

Lemma same_labels_refl ws : same_labels ws ws.
Proof. done. Qed.

Lemma same_labels_sym ws ws' : same_labels ws ws' → same_labels ws' ws.
Proof. intros H r. by rewrite H. Qed.

Lemma same_labels_trans ws ws' ws'' :
  same_labels ws ws' → same_labels ws' ws'' → same_labels ws ws''.
Proof. intros H H' r. by rewrite H. Qed.

Lemma same_labels_set_evaluated_label ws r w l :
  ws !! r = Some w →
  same_labels ws (<[r := Wire.set_evaluated_label w l]> ws).
Proof.
  intros Hr r'. destruct (decide (r = r')) as [<- | Hne].
  - by rewrite lookup_insert_eq, Hr.
  - by rewrite lookup_insert_ne.
Qed.

Lemma garbled_in_same_labels ws ws' g :
  same_labels ws ws' → garbled_in ws g → garbled_in ws' g.
Proof.
  intros H (w1 & w2 & wo & H1 & H2 & Ho & Hperm & Hf).
  destruct (same_labels_lookup _ _ _ _ H H1) as (w1' & H1' & E1).
  destruct (same_labels_lookup _ _ _ _ H H2) as (w2' & H2' & E2).
  destruct (same_labels_lookup _ _ _ _ H Ho) as (wo' & Ho' & Eo).
  exists w1', w2', wo'. repeat split; try done.
  by rewrite (ciphertexts_ext w1' w2' wo' w1 w2 wo).
Qed.

Lemma accepts_only_true_same_labels ws ws' g :
  same_labels ws ws' → accepts_only_true ws g → accepts_only_true ws' g.
Proof.
  intros H Hs w1' w2' wo' H1' H2' Ho' a b Ha Hb.
  apply same_labels_sym in H.
  destruct (same_labels_lookup _ _ _ _ H H1') as (w1 & H1 & E1).
  destruct (same_labels_lookup _ _ _ _ H H2') as (w2 & H2 & E2).
  destruct (same_labels_lookup _ _ _ _ H Ho') as (wo & Ho & Eo).
  apply (no_false_accept_ext w1 w2 wo); try done.
  by apply Hs.
Qed.

(** [Gate.evaluate] has two outcomes: a label of the output wire, written
    on that wire, or [None] with one line on [sys.stderr] and the store
    untouched. *)
Lemma Gate_evaluate_cases g la lb ws st wo :
  ws !! Gate.output_wire g = Some wo →
  (∃ d, (d = Wire.labels0 wo ∨ d = Wire.labels1 wo)
        ∧ (∃ c, c ∈ Gate.garbled_table g
                ∧ d = decrypt la lb (Gate.gate_id g) c)
        ∧ Gate.evaluate g la lb (ws, st)
          = (Ok (Some d),
             (<[Gate.output_wire g := Wire.set_evaluated_label wo d]> ws,
              st)))
  ∨ ((∀ c, c ∈ Gate.garbled_table g →
           decrypt la lb (Gate.gate_id g) c ≠ Wire.labels0 wo
           ∧ decrypt la lb (Gate.gate_id g) c ≠ Wire.labels1 wo)
     ∧ Gate.evaluate g la lb (ws, st)
       = (Ok None,
          (ws, mkState (gate_id_counter st) (random_source st)
                       (random_pos st)
                       (stderr st ++ [GateEvaluationError (Gate.gate_id g)
                                                          (Gate.gate_type g)])
                       (stdout st)))).
Proof.
  intros Hwo. unfold Gate.evaluate. rewrite Hwo.
  destruct (Gate.evaluate_loop _ _ _ _ _) as [d |] eqn:Hloop.
  - left. exists d. apply evaluate_loop_Some in Hloop as [? ?]. done.
  - right. by rewrite evaluate_loop_None in Hloop.
Qed.

Lemma Gate_evaluate_same_labels g la lb ws st r ws' st' :
  Gate.evaluate g la lb (ws, st) = (r, (ws', st')) → same_labels ws ws'.
Proof.
  destruct (ws !! Gate.output_wire g) as [wo |] eqn:Hwo.
  - destruct (Gate_evaluate_cases g la lb ws st wo Hwo)
      as [(d & _ & _ & ->) | (_ & ->)]; intros [= <- <- <-].
    + by apply same_labels_set_evaluated_label.
    + apply same_labels_refl.
  - unfold Gate.evaluate. rewrite Hwo. intros [= <- <- <-].
    apply same_labels_refl.
Qed.

(** An unfolding of one turn of the gate loop of [evaluate]. *)
Lemma evaluate_gates_cons gate rest ws st w1 w2 :
  ws !! Gate.input_wire1 gate = Some w1 →
  ws !! Gate.input_wire2 gate = Some w2 →
  GarbledFullAdderCircuit.evaluate_gates (gate :: rest) (ws, st)
  = match Wire.evaluated_label w1, Wire.evaluated_label w2 with
    | Some label_a, Some label_b =>
        match Gate.evaluate gate label_a label_b (ws, st) with
        | (Ok _, x) => GarbledFullAdderCircuit.evaluate_gates rest x
        | (Raise e, x) => (Raise e, x)
        end
    | _, _ =>
        (Ok false,
         (ws, mkState (gate_id_counter st) (random_source st) (random_pos st)
                      (stderr st ++ [MissingInputLabelError
                                       (Gate.gate_id gate)])
                      (stdout st)))
    end.
Proof.
  intros H1 H2. cbn [GarbledFullAdderCircuit.evaluate_gates].
  unfold bind at 1. unfold bind at 1. unfold deref at 1. rewrite H1.
  unfold ret at 1. unfold bind at 1. unfold deref at 1. rewrite H2.
  unfold ret at 1.
  by destruct (Wire.evaluated_label w1), (Wire.evaluated_label w2).
Qed.

Lemma evaluate_gates_same_labels gs ws st r ws' st' :
  GarbledFullAdderCircuit.evaluate_gates gs (ws, st) = (r, (ws', st')) →
  same_labels ws ws'.
Proof.
  revert ws st. induction gs as [| gate rest IH]; intros ws st.
  - intros [= <- <- <-]. apply same_labels_refl.
  - destruct (ws !! Gate.input_wire1 gate) as [w1 |] eqn:H1; cycle 1.
    { cbn [GarbledFullAdderCircuit.evaluate_gates].
      unfold bind at 1. unfold bind at 1. unfold deref at 1. rewrite H1.
      intros [= <- <- <-]. apply same_labels_refl. }
    destruct (ws !! Gate.input_wire2 gate) as [w2 |] eqn:H2; cycle 1.
    { cbn [GarbledFullAdderCircuit.evaluate_gates].
      unfold bind at 1. unfold bind at 1. unfold deref at 1. rewrite H1.
      unfold ret at 1. unfold bind at 1. unfold deref at 1. rewrite H2.
      intros [= <- <- <-]. apply same_labels_refl. }
    rewrite (evaluate_gates_cons _ _ _ _ _ _ H1 H2).
    destruct (Wire.evaluated_label w1) as [la |];
      [| intros [= <- <- <-]; apply same_labels_refl].
    destruct (Wire.evaluated_label w2) as [lb |];
      [| intros [= <- <- <-]; apply same_labels_refl].
    destruct (Gate.evaluate gate la lb (ws, st)) as [[o | e] [ws1 st1]]
      eqn:Hgate.
    + intros Hrest. apply Gate_evaluate_same_labels in Hgate.
      apply IH in Hrest. by eapply same_labels_trans.
    + intros [= <- <- <-]. by apply Gate_evaluate_same_labels in Hgate.
Qed.

(** The garbled evaluation follows the plain one: under the labels of the
    plain bits every gate writes the label of its plain output bit, and
    nothing is written on [sys.stderr]. *)
Lemma evaluate_gates_plain gs ws val val' st :
  encodes ws val →
  Forall (garbled_in ws) gs → Forall (accepts_only_true ws) gs →
  plain (map wiring gs) val = Some val' →
  ∃ ws', GarbledFullAdderCircuit.evaluate_gates gs (ws, st)
         = (Ok true, (ws', st))
         ∧ encodes ws' val' ∧ same_labels ws ws'.
Proof.
  revert ws val. induction gs as [| g rest IH]; intros ws val Henc Hg Hs.
  - intros [= <-]. exists ws. split; [done | split; [done |]].
    apply same_labels_refl.
  - apply Forall_cons in Hg as [Hg Hrest], Hs as [Hs Hsrest].
    cbn [map plain]. unfold wiring at 1.
    destruct (val (Gate.input_wire1 g)) as [a |] eqn:Ha; [| done].
    destruct (val (Gate.input_wire2 g)) as [b |] eqn:Hb; [| done].
    intros Hplain.
    destruct Hg as (w1 & w2 & wo & H1 & H2 & Ho & Hperm & Hf).
    destruct (Henc _ _ Ha) as (Hbita & w1' & H1' & E1).
    destruct (Henc _ _ Hb) as (Hbitb & w2' & H2' & E2).
    assert (w1' = w1) as -> by congruence.
    assert (w2' = w2) as -> by congruence.
    rewrite (evaluate_gates_cons _ _ _ _ _ _ H1 H2), E1, E2.
    rewrite (Gate_evaluate_target g w1 w2 wo wo ws st a b); try done;
      [| by apply Hs].
    set (l := label_of wo (Gate.func g a b)).
    set (ws1 := <[Gate.output_wire g := Wire.set_evaluated_label wo l]> ws).
    assert (Hsame : same_labels ws ws1)
      by by apply same_labels_set_evaluated_label.
    destruct (IH ws1 (update val (Gate.output_wire g) (Gate.func g a b)))
      as (ws' & Hrun & Henc' & Hsame'); try done.
    + intros r bit. unfold update.
      destruct (String.eqb_spec r (Gate.output_wire g)) as [-> | Hne].
      * intros [= <-]. split; [by apply Hf |].
        exists (Wire.set_evaluated_label wo l). split.
        -- unfold ws1. by rewrite lookup_insert_eq.
        -- done.
      * intros Hr.
        destruct (Henc _ _ Hr) as (? & w & ? & ?). split; [done |].
        exists w. unfold ws1. by rewrite lookup_insert_ne.
    + eapply Forall_impl; [exact Hrest |]. intros g'.
      by apply garbled_in_same_labels.
    + eapply Forall_impl; [exact Hsrest |]. intros g'.
      by apply accepts_only_true_same_labels.
    + exists ws'. split; [done | split; [done |]].
      by eapply same_labels_trans.
Qed.

Lemma get_bit_from_label_of w bit :
  is_bit bit → Wire.labels0 w ≠ Wire.labels1 w →
  Wire.get_bit_from_label w (Some (label_of w bit)) = Some bit.
Proof.
  intros [-> | ->] Hne; unfold Wire.get_bit_from_label, label_of; simpl.
  - by rewrite Z.eqb_refl.
  - apply Z.eqb_neq in Hne. by rewrite Hne, Z.eqb_refl.
Qed.

(** Decoding the wires of a store that encodes a valuation gives the bits
    of the valuation, on wires whose two labels differ. *)
Lemma decode_encodes ws val rs bits :
  encodes ws val →
  read val rs = Some bits →
  Forall (distinct_labels ws) rs →
  GarbledFullAdderCircuit.decode ws rs = Ok (Some <$> bits).
Proof.
  intros Henc. revert bits.
  induction rs as [| r rs IH]; intros bits; cbn [read].
  - by intros [= <-].
  - destruct (val r) as [bit |] eqn:Hr; [| done].
    destruct (read val rs) as [bits' |]; [| done].
    intros [= <-] [Hd Hds]%Forall_cons.
    cbn [GarbledFullAdderCircuit.decode].
    destruct (Henc _ _ Hr) as (Hbit & w & Hw & E).
    rewrite Hw, (IH bits' eq_refl Hds), E.
    rewrite get_bit_from_label_of; [done | done | by apply Hd].
Qed.


(** ** The constructor, step by step *)

Lemma bind_run {S A B} (c : M S A) (k : A → M S B) x a x' :
  c x = (Ok a, x') → bind c k x = k a x'.
Proof. unfold bind. by intros ->. Qed.

Lemma bind_raise {S A B} (c : M S A) (k : A → M S B) x e x' :
  c x = (Raise e, x') → bind c k x = (Raise e, x').
Proof. unfold bind. by intros ->. Qed.

Lemma new_wire_run name value a b ws gs fs rs s :
  ok_value value →
  GarbledFullAdderCircuit.new_wire name value
    (GarbledFullAdderCircuit.mk a b ws gs fs rs, s)
  = (Ok name,
     (GarbledFullAdderCircuit.mk a b (<[name := made_wire name value s]> ws)
                                 gs fs rs,
      advance 2 s)).
Proof.
  destruct value as [v |]; [intros [-> | ->] |];
    unfold GarbledFullAdderCircuit.new_wire, GarbledFullAdderCircuit.lift,
      GarbledFullAdderCircuit.set_wire, Wire.init, getrandbits, next_draw,
      bind, ret, of_result; simpl;
    rewrite ?insert_insert_eq; reflexivity.
Qed.

Lemma new_wire_raise name v a b ws gs fs rs s :
  ¬ is_bit v →
  ∃ x', GarbledFullAdderCircuit.new_wire name (Some v)
          (GarbledFullAdderCircuit.mk a b ws gs fs rs, s)
        = (Raise (KeyError v), x').
Proof.
  intros Hv.
  unfold GarbledFullAdderCircuit.new_wire, GarbledFullAdderCircuit.lift,
    GarbledFullAdderCircuit.set_wire, Wire.init, getrandbits, next_draw,
    bind, ret, of_result, Wire.set_value, Wire.labels; simpl.
  destruct (Z.eqb_spec v 0) as [-> | ?]; [destruct Hv; by left |].
  destruct (Z.eqb_spec v 1) as [-> | ?]; [destruct Hv; by right |].
  by eexists.
Qed.

Lemma add_gate_run in1 in2 out func ty a b ws gs fs rs s w1 w2 wo :
  ws !! in1 = Some w1 → ws !! in2 = Some w2 → ws !! out = Some wo →
  bit_function func →
  ∃ g,
    GarbledFullAdderCircuit.add_gate in1 in2 out func ty
      (GarbledFullAdderCircuit.mk a b ws gs fs rs, s)
    = (Ok tt,
       (GarbledFullAdderCircuit.mk a b ws (gs ++ [g]) fs rs, after_gate s))
    ∧ wiring g = (in1, in2, out, func)
    ∧ Gate.gate_id g = gate_id_counter s
    ∧ Gate.garbled_table g ≡ₚ ciphertexts w1 w2 wo func (gate_id_counter s).
Proof.
  intros H1 H2 Ho Hf.
  destruct (Gate_init_run ws in1 in2 out func ty s w1 w2 wo H1 H2 Ho Hf)
    as (table & Hinit & Hperm).
  eexists. split; [| split; [| split]].
  - unfold GarbledFullAdderCircuit.add_gate,
      GarbledFullAdderCircuit.get_self, GarbledFullAdderCircuit.lift,
      GarbledFullAdderCircuit.append_gate, bind.
    cbn [GarbledFullAdderCircuit.wires]. rewrite Hinit. reflexivity.
  - reflexivity.
  - reflexivity.
  - exact Hperm.
Qed.

Lemma xor_gate_bits : bit_function xor_gate.
Proof. by intros a b [-> | ->] [-> | ->]; [left | right | right | left]. Qed.

Lemma and_gate_bits : bit_function and_gate.
Proof. by intros a b [-> | ->] [-> | ->]; [left | left | left | right]. Qed.

Lemma or_gate_bits : bit_function or_gate.
Proof. by intros a b [-> | ->] [-> | ->]; [left | right | right | right]. Qed.

Lemma get_self_run c s :
  GarbledFullAdderCircuit.get_self (c, s) = (Ok c, (c, s)).
Proof. reflexivity. Qed.

Ltac solve_lookup :=
  repeat first [ apply lookup_insert_eq | rewrite lookup_insert_ne by done ].

(** One [_new_wire] of the straight-line constructor body. *)
Ltac simpl_state H :=
  unfold advance, after_gate in H;
  cbn [gate_id_counter random_source random_pos stderr stdout] in H.

Ltac wire_step H :=
  erewrite bind_run in H by (apply new_wire_run; done); cbv beta in H;
  simpl_state H.

(** One [Gate(...)] followed by [self.gates.append]. *)
Ltac gate_step H g Hw Hid Hperm :=
  match type of H with
  | context [bind (GarbledFullAdderCircuit.add_gate ?i1 ?i2 ?o ?f ?ty) _
                  (GarbledFullAdderCircuit.mk ?a ?b ?ws ?gs ?fs ?rs, ?s)] =>
      let Hrun := fresh "Hrun" in
      edestruct (add_gate_run i1 i2 o f ty a b ws gs fs rs s)
        as (g & Hrun & Hw & Hid & Hperm);
      [ solve_lookup | solve_lookup | solve_lookup
      | first [ apply xor_gate_bits | apply and_gate_bits
              | apply or_gate_bits ]
      | rewrite (bind_run _ _ _ _ _ Hrun) in H; cbv beta in H; clear Hrun;
        simpl_state H; simpl_state Hid; simpl_state Hperm ]
  end.

Ltac input_step H :=
  rewrite (bind_run (of_result _) _ _ _ _ eq_refl) in H; cbv beta in H;
  wire_step H.

Ltac garbled_gate Hw Hid Hperm :=
  let E1 := fresh "E" in
  let E2 := fresh "E" in
  let E3 := fresh "E" in
  let E4 := fresh "E" in
  unfold wiring in Hw; injection Hw as E1 E2 E3 E4;
  unfold garbled_in; rewrite E1, E2, E3, E4, Hid;
  match type of Hperm with
  | _ ≡ₚ ciphertexts ?w1 ?w2 ?wo ?f _ =>
      exists w1, w2, wo;
      split; [solve_lookup | split; [solve_lookup | split; [solve_lookup |]]];
      split; [exact Hperm |];
      first [ apply xor_gate_bits | apply and_gate_bits | apply or_gate_bits ]
  end.

Ltac drawn_wire :=
  eexists; split; [| split; reflexivity]; cbn [random_pos]; lia.

Ltac internal_wire :=
  first [ reflexivity
        | intros Hnot; exfalso; apply Hnot; unfold input_names;
          rewrite !elem_of_cons; tauto ].

(** The constructor on six acceptable values: the whole body runs, and
    the circuit is as [built] describes. *)
Lemma build_circuit_run va0 va1 va2 vb0 vb1 vb2 s :
  ok_value va0 → ok_value va1 → ok_value va2 →
  ok_value vb0 → ok_value vb1 → ok_value vb2 →
  ∃ c,
    GarbledFullAdderCircuit.build_circuit
      (GarbledFullAdderCircuit.mk [va0; va1; va2] [vb0; vb1; vb2] ∅ [] [] [],
       s)
    = (Ok tt, (c, after_build s))
    ∧ GarbledFullAdderCircuit.a_bits c = [va0; va1; va2]
    ∧ GarbledFullAdderCircuit.b_bits c = [vb0; vb1; vb2]
    ∧ built s [va0; va1; va2; vb0; vb1; vb2] c.
Proof.
  intros Ha0 Ha1 Ha2 Hb0 Hb1 Hb2.
  destruct s as [counter source pos err out].
  destruct (GarbledFullAdderCircuit.build_circuit _) as [r [c s']]
    eqn:Hbuild.
  unfold GarbledFullAdderCircuit.build_circuit in Hbuild.
  rewrite (bind_run _ _ _ _ _ (get_self_run _ _)) in Hbuild.
  cbv beta in Hbuild.
  cbn [GarbledFullAdderCircuit.a_bits GarbledFullAdderCircuit.b_bits]
    in Hbuild.
  unfold getitem in Hbuild. cbn [lookup list_lookup] in Hbuild.
  do 6 input_step Hbuild.
  wire_step Hbuild. gate_step Hbuild g1 Hw1 Hid1 Hp1.
  wire_step Hbuild. gate_step Hbuild g2 Hw2 Hid2 Hp2.
  wire_step Hbuild. gate_step Hbuild g3 Hw3 Hid3 Hp3.
  wire_step Hbuild. gate_step Hbuild g4 Hw4 Hid4 Hp4.
  wire_step Hbuild. gate_step Hbuild g5 Hw5 Hid5 Hp5.
  wire_step Hbuild. gate_step Hbuild g6 Hw6 Hid6 Hp6.
  wire_step Hbuild. gate_step Hbuild g7 Hw7 Hid7 Hp7.
  wire_step Hbuild. gate_step Hbuild g8 Hw8 Hid8 Hp8.
  wire_step Hbuild. gate_step Hbuild g9 Hw9 Hid9 Hp9.
  wire_step Hbuild. gate_step Hbuild g10 Hw10 Hid10 Hp10.
  wire_step Hbuild. gate_step Hbuild g11 Hw11 Hid11 Hp11.
  wire_step Hbuild. gate_step Hbuild g12 Hw12 Hid12 Hp12.
  unfold GarbledFullAdderCircuit.set_outputs in Hbuild.
  cbn [app] in Hbuild. injection Hbuild as <- <- <-.
  eexists. split.
  { f_equal. f_equal. unfold after_build.
    cbn [gate_id_counter random_source random_pos stderr stdout].
    f_equal; lia. }
  split; [reflexivity | split; [reflexivity |]].
  split; cbn [GarbledFullAdderCircuit.wires GarbledFullAdderCircuit.gates
              GarbledFullAdderCircuit.full_sum_wires
              GarbledFullAdderCircuit.result_wires].
  - cbn [map].
    by rewrite Hw1, Hw2, Hw3, Hw4, Hw5, Hw6, Hw7, Hw8, Hw9, Hw10, Hw11, Hw12.
  - repeat apply Forall_cons_2; [.. | apply Forall_nil_2].
    + garbled_gate Hw1 Hid1 Hp1.
    + garbled_gate Hw2 Hid2 Hp2.
    + garbled_gate Hw3 Hid3 Hp3.
    + garbled_gate Hw4 Hid4 Hp4.
    + garbled_gate Hw5 Hid5 Hp5.
    + garbled_gate Hw6 Hid6 Hp6.
    + garbled_gate Hw7 Hid7 Hp7.
    + garbled_gate Hw8 Hid8 Hp8.
    + garbled_gate Hw9 Hid9 Hp9.
    + garbled_gate Hw10 Hid10 Hp10.
    + garbled_gate Hw11 Hid11 Hp11.
    + garbled_gate Hw12 Hid12 Hp12.
  - cbn [map].
    rewrite Hid1, Hid2, Hid3, Hid4, Hid5, Hid6, Hid7, Hid8, Hid9, Hid10,
      Hid11, Hid12.
    cbn [gate_id_counter map].
    repeat (apply (f_equal2 cons); [lia |]). reflexivity.
  - reflexivity.
  - reflexivity.
  - repeat apply Forall_cons_2; [.. | apply Forall_nil_2];
      (eexists; solve_lookup).
  - intros name w Hw.
    repeat (apply lookup_insert_Some in Hw as [[<- <-] | [_ Hw]];
            [drawn_wire |]).
    by rewrite lookup_empty in Hw.
  - unfold input_names.
    repeat apply Forall2_cons_2; [.. | apply Forall2_nil_2];
      (eexists; split; [solve_lookup | split; [reflexivity |]]);
      match goal with
      | |- context [made_wire _ ?v _] => by destruct v
      end.
  - intros name w Hw.
    repeat (apply lookup_insert_Some in Hw as [[<- <-] | [_ Hw]];
            [internal_wire |]).
    by rewrite lookup_empty in Hw.
Qed.

Lemma is_bitb_spec z : is_bitb z = true ↔ is_bit z.
Proof.
  unfold is_bitb, is_bit. rewrite orb_true_iff, !Z.eqb_eq. tauto.
Qed.

Lemma ok_value_cases v : ok_value v ∨ ∃ z, v = Some z ∧ ¬ is_bit z.
Proof.
  destruct v as [z |]; [| by left].
  destruct (is_bitb z) eqn:E.
  - left. by apply is_bitb_spec.
  - right. exists z. split; [done |]. rewrite <- is_bitb_spec. by rewrite E.
Qed.

Lemma first_bad_cons_ok v rest :
  ok_value v → first_bad (v :: rest) = first_bad rest.
Proof.
  destruct v as [z |]; [| done]. simpl. intros Hz.
  apply is_bitb_spec in Hz. by rewrite Hz.
Qed.

Lemma first_bad_cons_bad z rest :
  ¬ is_bit z → first_bad (Some z :: rest) = Some z.
Proof.
  intros Hz. simpl. destruct (is_bitb z) eqn:E; [| done].
  by apply is_bitb_spec in E.
Qed.

(** The [_new_wire] at which the constructor body stops with a
    [KeyError]. *)
Ltac raise_step H :=
  rewrite (bind_run (of_result _) _ _ _ _ eq_refl) in H; cbv beta in H;
  match type of H with
  | context [bind (GarbledFullAdderCircuit.new_wire ?n (Some ?v)) _
                  (GarbledFullAdderCircuit.mk ?a ?b ?ws ?gs ?fs ?rs, ?s)] =>
      let cx := fresh "c" in
      let sx := fresh "s" in
      let Hr := fresh "Hr" in
      destruct (new_wire_raise n v a b ws gs fs rs s ltac:(assumption))
        as [[cx sx] Hr];
      rewrite (bind_raise _ _ _ _ _ Hr) in H
  end.

Tactic Notation "raise_leaf" constr(s) integer(k) :=
  let Hbuild := fresh "Hbuild" in
  destruct s;
  unfold GarbledFullAdderCircuit.init; cbn [length Nat.eqb negb orb];
  destruct (GarbledFullAdderCircuit.build_circuit _) as [r [c s']]
    eqn:Hbuild;
  unfold GarbledFullAdderCircuit.build_circuit in Hbuild;
  rewrite (bind_run _ _ _ _ _ (get_self_run _ _)) in Hbuild;
  cbv beta in Hbuild;
  cbn [GarbledFullAdderCircuit.a_bits GarbledFullAdderCircuit.b_bits]
    in Hbuild;
  unfold getitem in Hbuild; cbn [lookup list_lookup] in Hbuild;
  do k input_step Hbuild;
  raise_step Hbuild;
  by injection Hbuild as <- <- <-.

(** The constructor on two sequences of three values: it stops with the
    [KeyError] of the first value that is neither [None] nor a bit, and
    otherwise returns a circuit. *)
Lemma init_cases va0 va1 va2 vb0 vb1 vb2 s :
  match first_bad [va0; va1; va2; vb0; vb1; vb2] with
  | Some v =>
      (GarbledFullAdderCircuit.init [va0; va1; va2] [vb0; vb1; vb2] s).1
      = Raise (KeyError v)
  | None =>
      ∃ c, GarbledFullAdderCircuit.init [va0; va1; va2] [vb0; vb1; vb2] s
           = (Ok c, after_build s)
           ∧ GarbledFullAdderCircuit.a_bits c = [va0; va1; va2]
           ∧ GarbledFullAdderCircuit.b_bits c = [vb0; vb1; vb2]
           ∧ built s [va0; va1; va2; vb0; vb1; vb2] c
  end.
Proof.
  destruct (ok_value_cases va0) as [H0 | (z & -> & Hz)];
    [rewrite first_bad_cons_ok by done
    | rewrite first_bad_cons_bad by done; raise_leaf s 0].
  destruct (ok_value_cases va1) as [H1 | (z & -> & Hz)];
    [rewrite first_bad_cons_ok by done
    | rewrite first_bad_cons_bad by done; raise_leaf s 1].
  destruct (ok_value_cases va2) as [H2 | (z & -> & Hz)];
    [rewrite first_bad_cons_ok by done
    | rewrite first_bad_cons_bad by done; raise_leaf s 2].
  destruct (ok_value_cases vb0) as [H3 | (z & -> & Hz)];
    [rewrite first_bad_cons_ok by done
    | rewrite first_bad_cons_bad by done; raise_leaf s 3].
  destruct (ok_value_cases vb1) as [H4 | (z & -> & Hz)];
    [rewrite first_bad_cons_ok by done
    | rewrite first_bad_cons_bad by done; raise_leaf s 4].
  destruct (ok_value_cases vb2) as [H5 | (z & -> & Hz)];
    [rewrite first_bad_cons_ok by done
    | rewrite first_bad_cons_bad by done; raise_leaf s 5].
  cbn [first_bad].
  destruct (build_circuit_run va0 va1 va2 vb0 vb1 vb2 s H0 H1 H2 H3 H4 H5)
    as (c & Hrun & Ha & Hb & Hbuilt).
  exists c. split; [| done].
  unfold GarbledFullAdderCircuit.init. cbn [length Nat.eqb negb orb].
  by rewrite Hrun.
Qed.

(** Whatever the constructor returns was built as [built] describes. *)
Lemma init_Ok a b s c s' :
  GarbledFullAdderCircuit.init a b s = (Ok c, s') →
  s' = after_build s
  ∧ GarbledFullAdderCircuit.a_bits c = a
  ∧ GarbledFullAdderCircuit.b_bits c = b
  ∧ length a = 3%nat ∧ length b = 3%nat
  ∧ first_bad (a ++ b) = None
  ∧ built s (a ++ b) c.
Proof.
  intros Hinit.
  destruct (decide (length a = 3%nat)) as [Hla | Hla]; cycle 1.
  { unfold GarbledFullAdderCircuit.init in Hinit.
    apply Nat.eqb_neq in Hla. by rewrite Hla in Hinit. }
  destruct (decide (length b = 3%nat)) as [Hlb | Hlb]; cycle 1.
  { unfold GarbledFullAdderCircuit.init in Hinit.
    apply Nat.eqb_neq in Hlb. rewrite Hlb, orb_true_r in Hinit. done. }
  destruct a as [| va0 [| va1 [| va2 [|]]]]; try done.
  destruct b as [| vb0 [| vb1 [| vb2 [|]]]]; try done.
  pose proof (init_cases va0 va1 va2 vb0 vb1 vb2 s) as Hcases.
  cbn [app].
  destruct (first_bad _) as [v |].
  - by rewrite Hinit in Hcases.
  - destruct Hcases as (c' & Hrun & ? & ? & ?).
    rewrite Hinit in Hrun. by injection Hrun as -> ->.
Qed.


(** ** The constructor: input checks *)

(** C7. A sequence that is not exactly three values long makes the
    constructor raise its [ValueError] at once: no wire or gate has been
    created, no circuit is returned, and the process state (gate counter
    and random module included) is the one before the call. *)
Theorem init_rejects_wrong_length
    (a_bits b_bits : list (option Z)) (s : State) :
  length a_bits ≠ 3%nat ∨ length b_bits ≠ 3%nat →
  GarbledFullAdderCircuit.init a_bits b_bits s = (Raise ValueError, s).
Proof.
  intros H. unfold GarbledFullAdderCircuit.init.
  destruct (Nat.eqb_spec (length a_bits) 3) as [Ha | Ha]; [| done].
  destruct (Nat.eqb_spec (length b_bits) 3) as [Hb | Hb]; [| done].
  by destruct H.
Qed.

Lemma init_rejects_wrong_length_witness :
  (length [Some 1; Some 0] ≠ 3%nat ∨ length demo_b ≠ 3%nat)
  ∧ GarbledFullAdderCircuit.init [Some 1; Some 0] demo_b demo_state
    = (Raise ValueError, demo_state).
Proof.
  assert (H : length [Some 1; Some 0] ≠ 3%nat ∨ length demo_b ≠ 3%nat)
    by (left; simpl; lia).
  split; [exact H |].
  exact (init_rejects_wrong_length [Some 1; Some 0] demo_b demo_state H).
Defined.

(** C10 (amended). On two sequences of three values the length check
    passes and the elements are not checked.  An integer other than 0 and
    1 makes the constructor fail with the [KeyError] of the label lookup,
    at the first such element in the order a0, a1, a2, b0, b1, b2; an
    element [None] is accepted (the wire is left without value and without
    evaluated label).  The constructor returns a circuit exactly when
    every element is 0, 1 or [None]. *)
Theorem init_checks_no_element
    (a_bits b_bits : list (option Z)) (s : State) :
  length a_bits = 3%nat → length b_bits = 3%nat →
  match first_bad (a_bits ++ b_bits) with
  | Some v =>
      ¬ is_bit v
      ∧ (GarbledFullAdderCircuit.init a_bits b_bits s).1
        = Raise (KeyError v)
  | None =>
      ∃ c, GarbledFullAdderCircuit.init a_bits b_bits s
           = (Ok c, after_build s)
           ∧ Forall2 (input_bound (GarbledFullAdderCircuit.wires c))
                     input_names (a_bits ++ b_bits)
  end.
Proof.
  intros Ha Hb.
  destruct a_bits as [| va0 [| va1 [| va2 [|]]]]; try done.
  destruct b_bits as [| vb0 [| vb1 [| vb2 [|]]]]; try done.
  pose proof (init_cases va0 va1 va2 vb0 vb1 vb2 s) as Hcases.
  cbn [app]. destruct (first_bad _) as [v |] eqn:Hbad.
  - split; [| exact Hcases]. clear Hcases Ha Hb.
    assert (Hgen : ∀ vs, first_bad vs = Some v → ¬ is_bit v).
    { induction vs as [| [z |] vs IH]; simpl; [done | | done].
      destruct (is_bitb z) eqn:E; [done |]. intros [= <-].
      rewrite <- is_bitb_spec. by rewrite E. }
    by eapply Hgen.
  - destruct Hcases as (c & Hrun & _ & _ & Hbuilt).
    exists c. split; [done |]. apply Hbuilt.
Qed.

Lemma init_checks_no_element_witness :
  (GarbledFullAdderCircuit.init [Some 1; Some 2; Some 7] demo_b
                                demo_state).1
  = Raise (KeyError 2).
Proof.
  exact (proj2 (init_checks_no_element [Some 1; Some 2; Some 7] demo_b
                  demo_state eq_refl eq_refl)).
Defined.

(** C10 fails as stated: an element [None] is outside {0, 1}, yet the
    constructor returns a circuit; its wire a0 has no value and no
    evaluated label. *)
Lemma init_accepts_None :
  ∃ c, GarbledFullAdderCircuit.init unset_a demo_b demo_state
       = (Ok c, after_build demo_state)
       ∧ ∃ w, GarbledFullAdderCircuit.wires c !! "a0" = Some w
              ∧ Wire.value w = None ∧ Wire.evaluated_label w = None.
Proof.
  destruct (init_cases None (Some 0) (Some 1) (Some 1) (Some 0) (Some 0)
                       demo_state) as (c & Hrun & _ & _ & Hbuilt).
  exists c. split; [exact Hrun |]. clear Hrun.
  pose proof (built_inputs _ _ _ Hbuilt) as Hin.
  apply Forall2_cons_1 in Hin as [(w & Hw & Hv & He) _].
  exists w. split; [exact Hw | split; [exact Hv | exact He]].
Qed.


(** ** Built circuits *)

Lemma Ok_pair_inj {A S} (x y : A) (s t : S) :
  (Ok x, s) = (Ok y, t) → x = y.
Proof. by intros [= -> _]. Qed.

Lemma init_circuit_of a b s c s' :
  GarbledFullAdderCircuit.init a b s = (Ok c, s') →
  circuit_of (GarbledFullAdderCircuit.init a b s) = c.
Proof. intros H. unfold circuit_of. rewrite H. reflexivity. Qed.

(** The constructor on bits and [None]s returns the circuit that
    [circuit_of] reads off its result. *)
Lemma init_circuit_of_run va0 va1 va2 vb0 vb1 vb2 s :
  first_bad [va0; va1; va2; vb0; vb1; vb2] = None →
  GarbledFullAdderCircuit.init [va0; va1; va2] [vb0; vb1; vb2] s
  = (Ok (circuit_of (GarbledFullAdderCircuit.init [va0; va1; va2]
                                                  [vb0; vb1; vb2] s)),
     after_build s).
Proof.
  intros Hbad. pose proof (init_cases va0 va1 va2 vb0 vb1 vb2 s) as Hcases.
  rewrite Hbad in Hcases. destruct Hcases as (c & Hrun & _).
  rewrite (init_circuit_of _ _ _ _ _ Hrun). exact Hrun.
Qed.

Lemma demo_init :
  GarbledFullAdderCircuit.init demo_a demo_b demo_state
  = (Ok demo_circuit, after_build demo_state).
Proof.
  unfold demo_circuit, demo_a, demo_b. by apply init_circuit_of_run.
Qed.

Lemma sum1_collision_init :
  GarbledFullAdderCircuit.init two_a zero_b sum1_collision_state
  = (Ok sum1_collision_circuit, after_build sum1_collision_state).
Proof.
  unfold sum1_collision_circuit, two_a, zero_b.
  by apply init_circuit_of_run.
Qed.

Lemma unset_init :
  GarbledFullAdderCircuit.init unset_a demo_b demo_state
  = (Ok unset_circuit, after_build demo_state).
Proof.
  unfold unset_circuit, unset_a, demo_b. by apply init_circuit_of_run.
Qed.

(** C9 (amended). The two labels of every wire of a constructed circuit
    are the outcomes of two successive 64-bit draws of the random module,
    each in [0, 2^64); the constructor does not compare them, and they are
    distinct exactly when the two draws differ. *)
Theorem wire_labels_are_draws
    (a_bits b_bits : list (option Z)) (s s' : State)
    (c : GarbledFullAdderCircuit.t) (name : string) (w : Wire.t) :
  GarbledFullAdderCircuit.init a_bits b_bits s = (Ok c, s') →
  GarbledFullAdderCircuit.wires c !! name = Some w →
  ∃ n, (random_pos s ≤ n)%nat
       ∧ Wire.labels0 w = random_source s n mod 2 ^ 64
       ∧ Wire.labels1 w = random_source s (S n) mod 2 ^ 64
       ∧ 0 ≤ Wire.labels0 w < 2 ^ 64
       ∧ 0 ≤ Wire.labels1 w < 2 ^ 64
       ∧ (Wire.labels0 w ≠ Wire.labels1 w
          ↔ random_source s n mod 2 ^ 64 ≠ random_source s (S n) mod 2 ^ 64).
Proof.
  intros Hinit Hw.
  apply init_Ok in Hinit as (_ & _ & _ & _ & _ & _ & Hbuilt).
  destruct (built_drawn _ _ _ Hbuilt name w Hw) as (n & Hn & H0 & H1).
  exists n. rewrite H0, H1. repeat split; try done;
    apply Z.mod_pos_bound; done.
Qed.

Lemma wire_labels_are_draws_witness :
  ∃ n, (random_pos demo_state ≤ n)%nat
       ∧ 15163942955153739448 = random_source demo_state n mod 2 ^ 64
       ∧ 1134798401072148547 = random_source demo_state (S n) mod 2 ^ 64
       ∧ 0 ≤ 15163942955153739448 < 2 ^ 64
       ∧ 0 ≤ 1134798401072148547 < 2 ^ 64
       ∧ (15163942955153739448 ≠ 1134798401072148547
          ↔ random_source demo_state n mod 2 ^ 64
            ≠ random_source demo_state (S n) mod 2 ^ 64).
Proof.
  assert (Hw : GarbledFullAdderCircuit.wires demo_circuit !! "sum1"
               = Some (Wire.mk "sum1" 15163942955153739448
                               1134798401072148547 None None))
    by (vm_compute; reflexivity).
  exact (wire_labels_are_draws demo_a demo_b demo_state
           (after_build demo_state) demo_circuit "sum1" _ demo_init Hw).
Defined.

(** C9 fails as stated: when the 28th and 29th draws of a construction
    are equal, wire sum1 of the constructed circuit has two equal
    labels. *)
Lemma sum1_labels_collide :
  GarbledFullAdderCircuit.init two_a zero_b sum1_collision_state
  = (Ok sum1_collision_circuit, after_build sum1_collision_state)
  ∧ GarbledFullAdderCircuit.wires sum1_collision_circuit !! "sum1"
    = Some (Wire.mk "sum1" 15163942955153739448 15163942955153739448
                    None None).
Proof.
  split; [exact sum1_collision_init |]. vm_compute. reflexivity.
Qed.

(** ** What [evaluate] returns *)

Lemma decode_length ws rs out :
  GarbledFullAdderCircuit.decode ws rs = Ok out → length out = length rs.
Proof.
  revert out. induction rs as [| r rs IH]; intros out.
  - by intros [= <-].
  - cbn [GarbledFullAdderCircuit.decode].
    destruct (ws !! r) as [w |]; [| done].
    destruct (GarbledFullAdderCircuit.decode ws rs) as [out' |]; [| done].
    intros [= <-]. simpl. by rewrite (IH out').
Qed.

Lemma Gate_evaluate_stdout g la lb ws st r ws' st' :
  Gate.evaluate g la lb (ws, st) = (r, (ws', st')) → stdout st' = stdout st.
Proof.
  unfold Gate.evaluate. destruct (ws !! Gate.output_wire g) as [wo |].
  - destruct (Gate.evaluate_loop _ _ _ _ _); by intros [= <- <- <-].
  - by intros [= <- <- <-].
Qed.

Lemma evaluate_gates_stdout gs ws st r ws' st' :
  GarbledFullAdderCircuit.evaluate_gates gs (ws, st) = (r, (ws', st')) →
  stdout st' = stdout st.
Proof.
  revert ws st. induction gs as [| gate rest IH]; intros ws st.
  - by intros [= <- <- <-].
  - destruct (ws !! Gate.input_wire1 gate) as [w1 |] eqn:H1; cycle 1.
    { cbn [GarbledFullAdderCircuit.evaluate_gates].
      unfold bind at 1. unfold bind at 1. unfold deref at 1. rewrite H1.
      by intros [= <- <- <-]. }
    destruct (ws !! Gate.input_wire2 gate) as [w2 |] eqn:H2; cycle 1.
    { cbn [GarbledFullAdderCircuit.evaluate_gates].
      unfold bind at 1. unfold bind at 1. unfold deref at 1. rewrite H1.
      unfold ret at 1. unfold bind at 1. unfold deref at 1. rewrite H2.
      by intros [= <- <- <-]. }
    rewrite (evaluate_gates_cons _ _ _ _ _ _ H1 H2).
    destruct (Wire.evaluated_label w1) as [la |];
      [| by intros [= <- <- <-]].
    destruct (Wire.evaluated_label w2) as [lb |];
      [| by intros [= <- <- <-]].
    destruct (Gate.evaluate gate la lb (ws, st)) as [[o | e] [ws1 st1]]
      eqn:Hgate; apply Gate_evaluate_stdout in Hgate.
    + intros Hrest. apply IH in Hrest. congruence.
    + intros [= <- <- <-]. done.
Qed.

(** C3 (amended). [evaluate] returns one sequence only: the three result
    bits, decoded from the wires sum1, sum2 and carry2, which it also
    prints.  The four-bit full sum is not returned; it stays retrievable
    from the evaluated circuit by decoding the wires sum0, sum1, sum2 and
    carry2, and the result is the full sum without its first bit. *)
Theorem evaluate_returns_result
    (a_bits b_bits : list (option Z)) (s s1 : State)
    (c : GarbledFullAdderCircuit.t) :
  GarbledFullAdderCircuit.init a_bits b_bits s = (Ok c, s1) →
  GarbledFullAdderCircuit.full_sum_wires c
  = ["sum0"; "sum1"; "sum2"; "carry2"]
  ∧ GarbledFullAdderCircuit.result_wires c = ["sum1"; "sum2"; "carry2"]
  ∧ ∀ output c' s2,
      GarbledFullAdderCircuit.evaluate (c, s1)
      = (Ok (Some output), (c', s2)) →
      length output = 3%nat
      ∧ GarbledFullAdderCircuit.result c' = Ok output
      ∧ (∃ bit0, GarbledFullAdderCircuit.full_sum c' = Ok (bit0 :: output))
      ∧ stdout s2 = stdout s1 ++ [output].
Proof.
  intros Hinit.
  apply init_Ok in Hinit as (_ & _ & _ & _ & _ & _ & Hbuilt).
  pose proof (built_full_sum _ _ _ Hbuilt) as Hfull.
  pose proof (built_result _ _ _ Hbuilt) as Hres.
  split; [exact Hfull | split; [exact Hres |]].
  intros output c' s2. unfold GarbledFullAdderCircuit.evaluate.
  destruct (GarbledFullAdderCircuit.evaluate_gates _ _)
    as [[[] | e] [ws s']] eqn:Hgates; [| done | done].
  destruct (GarbledFullAdderCircuit.decode ws _) as [out |] eqn:Hdec;
    [| done].
  intros [= <- <- <-].
  unfold GarbledFullAdderCircuit.result, GarbledFullAdderCircuit.full_sum.
  cbn [GarbledFullAdderCircuit.with_wires GarbledFullAdderCircuit.wires
       GarbledFullAdderCircuit.result_wires
       GarbledFullAdderCircuit.full_sum_wires].
  split; [| split; [exact Hdec | split]].
  - rewrite (decode_length _ _ _ Hdec), Hres. reflexivity.
  - pose proof (built_outputs _ _ _ Hbuilt) as Hout.
    rewrite Hfull in Hout. apply Forall_cons in Hout as [[w0 Hw0] _].
    apply evaluate_gates_same_labels in Hgates.
    destruct (same_labels_lookup _ _ _ _ Hgates Hw0) as (w0' & Hw0' & _).
    rewrite Hfull, Hres in *.
    cbn [GarbledFullAdderCircuit.decode] in *. rewrite Hw0'.
    destruct (ws !! "sum1"); [| done]. destruct (ws !! "sum2"); [| done].
    destruct (ws !! "carry2"); [| done]. injection Hdec as <-.
    by eexists.
  - apply evaluate_gates_stdout in Hgates. simpl. by rewrite Hgates.
Qed.

Lemma evaluate_returns_result_witness :
  GarbledFullAdderCircuit.evaluate (demo_circuit, after_build demo_state)
  = (Ok (Some [Some 1; Some 1; Some 0]),
     ((evaluated demo_circuit (after_build demo_state)).1,
      (evaluated demo_circuit (after_build demo_state)).2))
  ∧ length [Some 1; Some 1; Some 0] = 3%nat
  ∧ GarbledFullAdderCircuit.result
      (evaluated demo_circuit (after_build demo_state)).1
    = Ok [Some 1; Some 1; Some 0]
  ∧ (∃ bit0,
       GarbledFullAdderCircuit.full_sum
         (evaluated demo_circuit (after_build demo_state)).1
       = Ok [bit0; Some 1; Some 1; Some 0]).
Proof.
  assert (Heval :
    GarbledFullAdderCircuit.evaluate (demo_circuit, after_build demo_state)
    = (Ok (Some [Some 1; Some 1; Some 0]),
       ((evaluated demo_circuit (after_build demo_state)).1,
        (evaluated demo_circuit (after_build demo_state)).2)))
    by (vm_compute; reflexivity).
  destruct (evaluate_returns_result demo_a demo_b demo_state
              (after_build demo_state) demo_circuit demo_init)
    as (_ & _ & H).
  destruct (H _ _ _ Heval) as (Hlen & Hres & Hfull & _).
  split; [exact Heval | split; [exact Hlen | split; [exact Hres |]]].
  exact Hfull.
Defined.

(** C3 fails as stated: on the inputs of the driver [evaluate] returns
    the three result bits alone; the four bits of the full sum are read
    off the wires of the evaluated circuit. *)
Lemma evaluate_returns_three_bits :
  GarbledFullAdderCircuit.init demo_a demo_b demo_state
  = (Ok demo_circuit, after_build demo_state)
  ∧ (GarbledFullAdderCircuit.evaluate
       (demo_circuit, after_build demo_state)).1
    = Ok (Some [Some 1; Some 1; Some 0])
  ∧ GarbledFullAdderCircuit.full_sum
      (evaluated demo_circuit (after_build demo_state)).1
    = Ok [Some 0; Some 1; Some 1; Some 0].
Proof.
  split; [exact demo_init |].
  split; [vm_compute; reflexivity | vm_compute; reflexivity].
Qed.

(** ** The adder, end to end *)

Lemma init_run va0 va1 va2 vb0 vb1 vb2 s :
  ok_value va0 → ok_value va1 → ok_value va2 →
  ok_value vb0 → ok_value vb1 → ok_value vb2 →
  ∃ c, GarbledFullAdderCircuit.init [va0; va1; va2] [vb0; vb1; vb2] s
       = (Ok c, after_build s)
       ∧ built s [va0; va1; va2; vb0; vb1; vb2] c.
Proof.
  intros H0 H1 H2 H3 H4 H5.
  pose proof (init_cases va0 va1 va2 vb0 vb1 vb2 s) as Hcases.
  rewrite !first_bad_cons_ok in Hcases by done.
  destruct Hcases as (c & Hrun & _ & _ & Hbuilt). by exists c.
Qed.

(** The plain adder adds: on six input bits the wires sum0, sum1, sum2
    and carry2 carry the four bits of A + B, and the last three of them
    the three bits of (A + B) >> 1. *)
Lemma adder_plain a0 a1 a2 b0 b1 b2 :
  is_bit a0 → is_bit a1 → is_bit a2 → is_bit b0 → is_bit b1 → is_bit b2 →
  ∃ val',
    plain adder_netlist (input_valuation a0 a1 a2 b0 b1 b2) = Some val'
    ∧ read val' ["sum0"; "sum1"; "sum2"; "carry2"]
      = Some (to_bits 4 (bits_to_int [a0; a1; a2]
                         + bits_to_int [b0; b1; b2]))
    ∧ read val' ["sum1"; "sum2"; "carry2"]
      = Some (to_bits 3 (Z.shiftr (bits_to_int [a0; a1; a2]
                                   + bits_to_int [b0; b1; b2]) 1)).
Proof.
  intros [-> | ->] [-> | ->] [-> | ->] [-> | ->] [-> | ->] [-> | ->];
    (eexists; split; [reflexivity | split; vm_compute; reflexivity]).
Qed.

Lemma encodes_inputs ws a0 a1 a2 b0 b1 b2 :
  is_bit a0 → is_bit a1 → is_bit a2 → is_bit b0 → is_bit b1 → is_bit b2 →
  Forall2 (input_bound ws) input_names
          [Some a0; Some a1; Some a2; Some b0; Some b1; Some b2] →
  encodes ws (input_valuation a0 a1 a2 b0 b1 b2).
Proof.
  intros Ha0 Ha1 Ha2 Hb0 Hb1 Hb2 Hin. unfold input_names in Hin.
  repeat match goal with
         | H : Forall2 _ (_ :: _) (_ :: _) |- _ =>
             apply Forall2_cons_1 in H as [(? & ? & _ & ?) H]
         end.
  intros r bit. unfold input_valuation, update.
  repeat match goal with
         | |- context [String.eqb r ?k] =>
             destruct (String.eqb_spec r k) as [-> | _];
             [ intros [= <-]; split;
               [assumption | eexists; split; eassumption]
             |]
         end.
  done.
Qed.

Lemma distinct_labels_same_labels ws ws' r :
  same_labels ws ws' → distinct_labels ws r → distinct_labels ws' r.
Proof.
  intros H Hd w' Hw'. apply same_labels_sym in H.
  destruct (same_labels_lookup _ _ _ _ H Hw') as (w & Hw & E).
  unfold labels_pair in E. injection E as E0 E1.
  rewrite <- E0, <- E1. by apply Hd.
Qed.

(** C1 (amended). For all input bits, the constructor returns a circuit;
    if each of its four full-sum wires has two distinct labels and no gate
    falsely accepts a ciphertext, then [evaluate] returns the three bits
    of (A + B) >> 1, writes nothing on [sys.stderr], and the full sum read
    off the evaluated circuit is the four bits of A + B, all least
    significant bit first. *)
Theorem adder_correct (s : State) (a0 a1 a2 b0 b1 b2 : Z) :
  is_bit a0 → is_bit a1 → is_bit a2 → is_bit b0 → is_bit b1 → is_bit b2 →
  ∃ c,
    GarbledFullAdderCircuit.init [Some a0; Some a1; Some a2]
                                 [Some b0; Some b1; Some b2] s
    = (Ok c, after_build s)
    ∧ (Forall (accepts_only_true (GarbledFullAdderCircuit.wires c))
              (GarbledFullAdderCircuit.gates c) →
       Forall (distinct_labels (GarbledFullAdderCircuit.wires c))
              (GarbledFullAdderCircuit.full_sum_wires c) →
       ∃ c' s',
         GarbledFullAdderCircuit.evaluate (c, after_build s)
         = (Ok (Some (Some <$> to_bits 3
                        (Z.shiftr (bits_to_int [a0; a1; a2]
                                   + bits_to_int [b0; b1; b2]) 1))),
            (c', s'))
         ∧ GarbledFullAdderCircuit.full_sum c'
           = Ok (Some <$> to_bits 4 (bits_to_int [a0; a1; a2]
                                     + bits_to_int [b0; b1; b2]))
         ∧ stderr s' = stderr s).
Proof.
  intros Ha0 Ha1 Ha2 Hb0 Hb1 Hb2.
  destruct (init_run (Some a0) (Some a1) (Some a2) (Some b0) (Some b1)
                     (Some b2) s) as (c & Hrun & Hbuilt); try done.
  exists c. split; [exact Hrun |]. intros Hsound Hdistinct.
  destruct (adder_plain a0 a1 a2 b0 b1 b2)
    as (val' & Hplain & Hbits4 & Hbits3); try done.
  set (x := bits_to_int [a0; a1; a2] + bits_to_int [b0; b1; b2]) in *.
  rewrite <- (built_netlist _ _ _ Hbuilt) in Hplain.
  destruct (evaluate_gates_plain
              (GarbledFullAdderCircuit.gates c)
              (GarbledFullAdderCircuit.wires c)
              (input_valuation a0 a1 a2 b0 b1 b2) val' (after_build s))
    as (ws' & Hgates & Henc & Hsame).
  { apply encodes_inputs; try done. apply (built_inputs _ _ _ Hbuilt). }
  { apply (built_garbled _ _ _ Hbuilt). }
  { exact Hsound. }
  { exact Hplain. }
  assert (Hd' : Forall (distinct_labels ws')
                       ["sum0"; "sum1"; "sum2"; "carry2"]).
  { rewrite (built_full_sum _ _ _ Hbuilt) in Hdistinct.
    eapply Forall_impl; [exact Hdistinct |]. intros r.
    by apply distinct_labels_same_labels. }
  assert (Hfull : GarbledFullAdderCircuit.decode ws'
                    ["sum0"; "sum1"; "sum2"; "carry2"]
                  = Ok (Some <$> to_bits 4 x))
    by by apply (decode_encodes ws' val').
  assert (Hres : GarbledFullAdderCircuit.decode ws'
                   ["sum1"; "sum2"; "carry2"]
                 = Ok (Some <$> to_bits 3 (Z.shiftr x 1))).
  { apply Forall_cons in Hd' as [_ Hd'].
    by apply (decode_encodes ws' val'). }
  unfold GarbledFullAdderCircuit.evaluate. rewrite Hgates.
  rewrite (built_result _ _ _ Hbuilt), Hres.
  eexists _, _. split; [reflexivity |]. split.
  - unfold GarbledFullAdderCircuit.full_sum.
    cbn [GarbledFullAdderCircuit.with_wires GarbledFullAdderCircuit.wires
         GarbledFullAdderCircuit.full_sum_wires].
    by rewrite (built_full_sum _ _ _ Hbuilt).
  - reflexivity.
Qed.

(** *** The side conditions, decided *)

Lemma accept_ok_spec w1 w2 wo func gate_id a b a' b' :
  accept_ok wo func
    (a, b, hash_value (label_of w1 a) (label_of w2 b) gate_id)
    (a', b', hash_value (label_of w1 a') (label_of w2 b') gate_id) = true →
  let decrypted :=
    decrypt (label_of w1 a) (label_of w2 b) gate_id
            (ciphertext w1 w2 wo func gate_id a' b') in
  decrypted = Wire.labels0 wo ∨ decrypted = Wire.labels1 wo →
  decrypted = label_of wo (func a b).
Proof.
  unfold accept_ok, decrypt, ciphertext, encrypt. cbv zeta.
  intros H Hvalid. destruct (_ || _) eqn:E.
  - simpl in H. by apply Z.eqb_eq in H.
  - apply orb_false_iff in E as [E0 E1]. apply Z.eqb_neq in E0, E1.
    by destruct Hvalid.
Qed.

Lemma no_false_accept_b_spec w1 w2 wo func gate_id a b :
  no_false_accept_b w1 w2 wo func gate_id = true →
  is_bit a → is_bit b → no_false_accept w1 w2 wo func gate_id a b.
Proof.
  unfold no_false_accept_b. cbv zeta. rewrite forallb_forall.
  intros H Ha Hb a' b' Ha' Hb'.
  apply accept_ok_spec.
  assert (Hin : ∀ x y, is_bit x → is_bit y →
            In (x, y, hash_value (label_of w1 x) (label_of w2 y) gate_id)
               (pads w1 w2 gate_id)).
  { intros x y [-> | ->] [-> | ->]; simpl; auto. }
  specialize (H _ (Hin a b Ha Hb)). rewrite forallb_forall in H.
  exact (H _ (Hin a' b' Ha' Hb')).
Qed.

Lemma accepts_only_true_b_spec ws g :
  accepts_only_true_b ws g = true → accepts_only_true ws g.
Proof.
  unfold accepts_only_true_b. intros H w1 w2 wo H1 H2 Ho a b Ha Hb.
  rewrite H1, H2, Ho in H. by apply no_false_accept_b_spec.
Qed.

Lemma Forall_accepts_only_true_b ws gs :
  forallb (accepts_only_true_b ws) gs = true →
  Forall (accepts_only_true ws) gs.
Proof.
  induction gs as [| g gs IH]; [by constructor |]. cbn [forallb].
  intros [Hg Hgs]%andb_true_iff. constructor; [| by apply IH].
  by apply accepts_only_true_b_spec.
Qed.

Lemma Forall_distinct_labels_b ws rs :
  forallb (distinct_labels_b ws) rs = true →
  Forall (distinct_labels ws) rs.
Proof.
  induction rs as [| r rs IH]; [by constructor |]. cbn [forallb].
  intros [Hr Hrs]%andb_true_iff. constructor; [| by apply IH].
  intros w Hw. unfold distinct_labels_b in Hr. rewrite Hw in Hr.
  apply negb_true_iff in Hr. by apply Z.eqb_neq.
Qed.

Lemma adder_correct_witness :
  Forall (accepts_only_true (GarbledFullAdderCircuit.wires demo_circuit))
         (GarbledFullAdderCircuit.gates demo_circuit)
  ∧ Forall (distinct_labels (GarbledFullAdderCircuit.wires demo_circuit))
           (GarbledFullAdderCircuit.full_sum_wires demo_circuit)
  ∧ ∃ c' s',
      GarbledFullAdderCircuit.evaluate (demo_circuit, after_build demo_state)
      = (Ok (Some [Some 1; Some 1; Some 0]), (c', s'))
      ∧ GarbledFullAdderCircuit.full_sum c'
        = Ok [Some 0; Some 1; Some 1; Some 0]
      ∧ stderr s' = [].
Proof.
  destruct (adder_correct demo_state 1 0 1 1 0 0
              (or_intror eq_refl) (or_introl eq_refl) (or_intror eq_refl)
              (or_intror eq_refl) (or_introl eq_refl) (or_introl eq_refl))
    as (c & Hrun & H).
  pose proof demo_init as Hdemo. unfold demo_a, demo_b in Hdemo.
  rewrite Hdemo in Hrun. apply Ok_pair_inj in Hrun. subst c. clear Hdemo.
  assert (Hs : Forall (accepts_only_true
                         (GarbledFullAdderCircuit.wires demo_circuit))
                      (GarbledFullAdderCircuit.gates demo_circuit))
    by (apply Forall_accepts_only_true_b; vm_compute; reflexivity).
  assert (Hd : Forall (distinct_labels
                         (GarbledFullAdderCircuit.wires demo_circuit))
                      (GarbledFullAdderCircuit.full_sum_wires demo_circuit))
    by (apply Forall_distinct_labels_b; vm_compute; reflexivity).
  split; [exact Hs | split; [exact Hd | exact (H Hs Hd)]].
Defined.

(** C1 fails as stated: when the two labels of wire sum1 are equal, the
    circuit built for A = 2 and B = 0 evaluates to the result 0 and the
    full sum 0, instead of 1 and 2. *)
Lemma adder_wrong_on_collision :
  GarbledFullAdderCircuit.init two_a zero_b sum1_collision_state
  = (Ok sum1_collision_circuit, after_build sum1_collision_state)
  ∧ (GarbledFullAdderCircuit.evaluate
       (sum1_collision_circuit, after_build sum1_collision_state)).1
    = Ok (Some [Some 0; Some 0; Some 0])
  ∧ GarbledFullAdderCircuit.full_sum
      (evaluated sum1_collision_circuit
                 (after_build sum1_collision_state)).1
    = Ok [Some 0; Some 0; Some 0; Some 0]
  ∧ to_bits 3 (Z.shiftr (bits_to_int [0; 1; 0] + bits_to_int [0; 0; 0]) 1)
    = [1; 0; 0]
  ∧ to_bits 4 (bits_to_int [0; 1; 0] + bits_to_int [0; 0; 0])
    = [0; 1; 0; 0].
Proof.
  split; [exact sum1_collision_init |].
  split; [vm_compute; reflexivity |].
  split; [vm_compute; reflexivity |].
  split; reflexivity.
Qed.

(** ** Failures during evaluation *)

Lemma decode_Ok ws rs :
  Forall (fun r => is_Some (ws !! r)) rs →
  ∃ out, GarbledFullAdderCircuit.decode ws rs = Ok out.
Proof.
  induction rs as [| r rs IH]; [by exists [] |].
  intros [[w Hw] Hrs]%Forall_cons. destruct (IH Hrs) as [out Hout].
  cbn [GarbledFullAdderCircuit.decode]. rewrite Hw, Hout. by eexists.
Qed.

(** On a store that holds the wires of the gates, the gate loop raises
    no exception. *)
Lemma evaluate_gates_Ok gs ws st :
  Forall (garbled_in ws) gs →
  ∃ b ws' st',
    GarbledFullAdderCircuit.evaluate_gates gs (ws, st) = (Ok b, (ws', st')).
Proof.
  revert ws st. induction gs as [| g rest IH]; intros ws st Hg.
  - by exists true, ws, st.
  - apply Forall_cons in Hg as [(w1 & w2 & wo & H1 & H2 & Ho & _) Hrest].
    rewrite (evaluate_gates_cons _ _ _ _ _ _ H1 H2).
    destruct (Wire.evaluated_label w1) as [la |]; [| by eexists _, _, _].
    destruct (Wire.evaluated_label w2) as [lb |]; [| by eexists _, _, _].
    destruct (Gate_evaluate_cases g la lb ws st wo Ho)
      as [(d & _ & _ & ->) | (_ & ->)].
    + apply IH. eapply Forall_impl; [exact Hrest |]. intros g'.
      apply garbled_in_same_labels.
      by apply same_labels_set_evaluated_label.
    + by apply IH.
Qed.

(** C4 (amended). Evaluation failures are not typed failures.  On a
    constructed circuit [evaluate] raises no exception.  A gate none of
    whose ciphertexts decrypts to a label of its output wire writes one
    line on [sys.stderr] and returns [None], leaving the wires as they
    were, and the gate loop goes on with the next gate.  At a gate one of
    whose input wires has no evaluated label the loop writes one line on
    [sys.stderr] and stops, and [evaluate] returns [None].  A final label
    that is neither label of its wire, or that is missing, is decoded as
    [None] in the returned list. *)
Theorem evaluate_failures_untyped
    (a_bits b_bits : list (option Z)) (s s1 : State)
    (c : GarbledFullAdderCircuit.t) :
  GarbledFullAdderCircuit.init a_bits b_bits s = (Ok c, s1) →
  (∀ st, ∃ r c' s2,
     GarbledFullAdderCircuit.evaluate (c, st) = (Ok r, (c', s2)))
  ∧ (∀ gate rest ws st w1 w2 wo la lb,
       ws !! Gate.input_wire1 gate = Some w1 →
       ws !! Gate.input_wire2 gate = Some w2 →
       ws !! Gate.output_wire gate = Some wo →
       Wire.evaluated_label w1 = Some la →
       Wire.evaluated_label w2 = Some lb →
       (∀ ct, ct ∈ Gate.garbled_table gate →
              decrypt la lb (Gate.gate_id gate) ct ≠ Wire.labels0 wo
              ∧ decrypt la lb (Gate.gate_id gate) ct ≠ Wire.labels1 wo) →
       let st' := logged (GateEvaluationError (Gate.gate_id gate)
                                              (Gate.gate_type gate)) st in
       Gate.evaluate gate la lb (ws, st) = (Ok None, (ws, st'))
       ∧ GarbledFullAdderCircuit.evaluate_gates (gate :: rest) (ws, st)
         = GarbledFullAdderCircuit.evaluate_gates rest (ws, st'))
  ∧ (∀ gate rest ws st w1 w2,
       ws !! Gate.input_wire1 gate = Some w1 →
       ws !! Gate.input_wire2 gate = Some w2 →
       Wire.evaluated_label w1 = None ∨ Wire.evaluated_label w2 = None →
       GarbledFullAdderCircuit.evaluate_gates (gate :: rest) (ws, st)
       = (Ok false,
          (ws, logged (MissingInputLabelError (Gate.gate_id gate)) st)))
  ∧ (∀ c0 st ws' st',
       GarbledFullAdderCircuit.evaluate_gates
         (GarbledFullAdderCircuit.gates c0)
         (GarbledFullAdderCircuit.wires c0, st)
       = (Ok false, (ws', st')) →
       GarbledFullAdderCircuit.evaluate (c0, st)
       = (Ok None, (GarbledFullAdderCircuit.with_wires c0 ws', st')))
  ∧ (∀ w l, l ≠ Wire.labels0 w → l ≠ Wire.labels1 w →
            Wire.get_bit_from_label w (Some l) = None)
  ∧ (∀ w, Wire.get_bit_from_label w None = None).
Proof.
  intros Hinit.
  apply init_Ok in Hinit as (_ & _ & _ & _ & _ & _ & Hbuilt).
  split; [| split; [| split; [| split; [| split]]]].
  - intros st.
    destruct (evaluate_gates_Ok (GarbledFullAdderCircuit.gates c)
                (GarbledFullAdderCircuit.wires c) st
                (built_garbled _ _ _ Hbuilt)) as (b & ws' & st' & Hgates).
    unfold GarbledFullAdderCircuit.evaluate. rewrite Hgates.
    destruct b; [| by eexists _, _, _].
    destruct (decode_Ok ws' (GarbledFullAdderCircuit.result_wires c))
      as [out Hout].
    { pose proof (built_outputs _ _ _ Hbuilt) as Hout.
      rewrite (built_full_sum _ _ _ Hbuilt) in Hout.
      rewrite (built_result _ _ _ Hbuilt).
      apply Forall_cons in Hout as [_ Hout].
      eapply Forall_impl; [exact Hout |]. intros r [w Hw]. simpl.
      apply evaluate_gates_same_labels in Hgates.
      destruct (same_labels_lookup _ _ _ _ Hgates Hw) as (w' & -> & _).
      by eexists. }
    rewrite Hout. by eexists _, _, _.
  - intros gate rest ws st w1 w2 wo la lb H1 H2 Ho E1 E2 Hnone st'.
    assert (Heval : Gate.evaluate gate la lb (ws, st) = (Ok None, (ws, st'))).
    { destruct (Gate_evaluate_cases gate la lb ws st wo Ho)
        as [(d & Hd & (ct & Hct & ->) & _) | (_ & ->)]; [| done].
      destruct (Hnone ct Hct) as [N0 N1]. by destruct Hd. }
    split; [exact Heval |].
    by rewrite (evaluate_gates_cons _ _ _ _ _ _ H1 H2), E1, E2, Heval.
  - intros gate rest ws st w1 w2 H1 H2 Hnone.
    rewrite (evaluate_gates_cons _ _ _ _ _ _ H1 H2).
    destruct Hnone as [-> | ->]; [done |].
    by destruct (Wire.evaluated_label w1).
  - intros c0 st ws' st' Hgates.
    unfold GarbledFullAdderCircuit.evaluate. by rewrite Hgates.
  - intros w l H0 H1. unfold Wire.get_bit_from_label.
    apply not_eq_sym in H0, H1. apply Z.eqb_neq in H0, H1.
    by rewrite H0, H1.
  - done.
Qed.

Lemma evaluate_failures_untyped_witness :
  ∃ r c' s2,
    GarbledFullAdderCircuit.evaluate (unset_circuit, after_build demo_state)
    = (Ok r, (c', s2)).
Proof.
  exact (proj1 (evaluate_failures_untyped unset_a demo_b demo_state
                  (after_build demo_state) unset_circuit unset_init)
               (after_build demo_state)).
Defined.

(** C4 fails as stated.  A circuit built with no value for bit 0 of A is
    evaluated without any exception: [evaluate] writes one line and
    returns [None].  A circuit whose first gate has lost its table is
    evaluated to the end: the mismatch at that gate is only logged, the
    wire sum0 stays without label, and [evaluate] returns the three
    result bits as if nothing had happened. *)
Lemma evaluate_logs_and_continues :
  GarbledFullAdderCircuit.init unset_a demo_b demo_state
  = (Ok unset_circuit, after_build demo_state)
  ∧ outcome unset_circuit (after_build demo_state)
    = (Ok None, Ok [None; None; None; None], [MissingInputLabelError 0])
  ∧ outcome (corrupt_first_table demo_circuit) (after_build demo_state)
    = (Ok (Some [Some 1; Some 1; Some 0]),
       Ok [None; Some 1; Some 1; Some 0],
       [GateEvaluationError 0 "XOR"]).
Proof.
  split; [exact unset_init |].
  split; [vm_compute; reflexivity | vm_compute; reflexivity].
Qed.

(* ================================================================== *)
(** * Further properties of the code *)
(* ================================================================== *)

(** ** The pad and the ciphertexts as numbers *)













(** ** Wires: labels and their decoding *)

Lemma get_bit_from_label_cases (w : Wire.t) (label : option Z) :
  match Wire.get_bit_from_label w label with
  | Some bit => is_bit bit ∧ label = Some (label_of w bit)
  | None => ∀ bit, is_bit bit → label ≠ Some (label_of w bit)
  end.
Proof.
  destruct label as [l |]; simpl.
  - destruct (Z.eqb_spec (Wire.labels0 w) l) as [<- | N0].
    { split; [by left | done]. }
    destruct (Z.eqb_spec (Wire.labels1 w) l) as [<- | N1].
    { split; [by right | done]. }
    intros bit [-> | ->]; unfold label_of; simpl; congruence.
  - by intros bit _.
Qed.

(** X5. [get_bit_from_label] is the partial inverse of the label lookup:
    a returned bit is 0 or 1 and the wire's label for it is the given
    label; [None] is returned exactly when the label is neither label of
    the wire; a label is decoded to the bit it stands for when the two
    labels differ, and to 0 when they are equal. *)
Theorem get_bit_from_label_spec (w : Wire.t) (label : option Z) :
  match Wire.get_bit_from_label w label with
  | Some bit => is_bit bit ∧ label = Some (label_of w bit)
  | None => ∀ bit, is_bit bit → label ≠ Some (label_of w bit)
  end
  ∧ (∀ bit, is_bit bit → Wire.labels0 w ≠ Wire.labels1 w →
            Wire.get_bit_from_label w (Some (label_of w bit)) = Some bit)
  ∧ (∀ bit, is_bit bit → Wire.labels0 w = Wire.labels1 w →
            Wire.get_bit_from_label w (Some (label_of w bit)) = Some 0).
Proof.
  split; [apply get_bit_from_label_cases | split].
  - intros bit Hbit Hne. by apply get_bit_from_label_of.
  - intros bit [-> | ->] E; unfold Wire.get_bit_from_label, label_of; simpl.
    + by rewrite Z.eqb_refl.
    + by rewrite E, Z.eqb_refl.
Qed.

Lemma get_bit_from_label_spec_witness :
  Wire.get_bit_from_label (Wire.mk "w" 11 12 None None) (Some 12) = Some 1
  ∧ Wire.get_bit_from_label (Wire.mk "w" 11 11 None None) (Some 11) = Some 0.
Proof.
  destruct (get_bit_from_label_spec (Wire.mk "w" 11 12 None None) None)
    as (_ & Hround & _).
  destruct (get_bit_from_label_spec (Wire.mk "w" 11 11 None None) None)
    as (_ & _ & Hsame).
  split.
  - exact (Hround 1 (or_intror eq_refl) ltac:(simpl; lia)).
  - exact (Hsame 1 (or_intror eq_refl) eq_refl).
Defined.

(** X6. [set_value] accepts exactly the bits.  For a bit it records the
    value and the wire's label for it as the evaluated label, keeping the
    name and both labels, so that decoding the evaluated label gives the
    value back when the two labels differ; for any other integer it
    raises the [KeyError] of the label lookup. *)
Theorem set_value_spec (w : Wire.t) (v : Z) :
  (is_bit v →
   ∃ w', Wire.set_value w v = Ok w'
         ∧ Wire.name w' = Wire.name w
         ∧ Wire.labels0 w' = Wire.labels0 w
         ∧ Wire.labels1 w' = Wire.labels1 w
         ∧ Wire.value w' = Some v
         ∧ Wire.evaluated_label w' = Some (label_of w v)
         ∧ (Wire.labels0 w ≠ Wire.labels1 w →
            Wire.get_bit_from_label w' (Wire.evaluated_label w') = Some v))
  ∧ (¬ is_bit v → Wire.set_value w v = Raise (KeyError v)).
Proof.
  split.
  - intros Hv. unfold Wire.set_value. rewrite (labels_label_of w v Hv).
    eexists. split; [reflexivity |]. cbn. repeat split.
    intros Hne.
    exact (get_bit_from_label_of
             (Wire.mk (Wire.name w) (Wire.labels0 w) (Wire.labels1 w)
                      (Some v) (Some (label_of w v))) v Hv Hne).
  - intros Hv. unfold Wire.set_value, Wire.labels.
    destruct (Z.eqb_spec v 0) as [-> | ?]; [destruct Hv; by left |].
    destruct (Z.eqb_spec v 1) as [-> | ?]; [destruct Hv; by right |].
    reflexivity.
Qed.

Lemma set_value_spec_witness :
  (∃ w', Wire.set_value (Wire.mk "w" 11 12 None None) 1 = Ok w'
         ∧ Wire.evaluated_label w' = Some 12)
  ∧ Wire.set_value (Wire.mk "w" 11 12 None None) 2 = Raise (KeyError 2).
Proof.
  destruct (set_value_spec (Wire.mk "w" 11 12 None None) 1) as [Hok _].
  destruct (set_value_spec (Wire.mk "w" 11 12 None None) 2) as [_ Hbad].
  split.
  - destruct (Hok (or_intror eq_refl)) as (w' & H & _ & _ & _ & _ & He & _).
    exists w'. split; [exact H | exact He].
  - apply Hbad. intros [H | H]; discriminate H.
Defined.

(** ** Gates *)

(** X8. A constructed gate never reports a mismatch on labels of its own
    input wires: evaluated on the labels the two input wires hold for any
    two bits, it returns one of the two labels of its output wire, records
    it on that wire and writes nothing, whatever the random module drew
    (equal labels included). *)
Theorem Gate_evaluate_never_mismatches
    (ws : WireStore) (in1 in2 out : string) (func : Z → Z → Z)
    (gate_type : string) (s s' : State) (g : Gate.t) (w1 w2 wo : Wire.t)
    (a b : Z) :
  Gate.init ws in1 in2 out func gate_type s = (Ok g, s') →
  ws !! in1 = Some w1 → ws !! in2 = Some w2 → ws !! out = Some wo →
  is_bit a → is_bit b →
  ∀ st, ∃ bit,
    is_bit bit
    ∧ Gate.evaluate g (label_of w1 a) (label_of w2 b) (ws, st)
      = (Ok (Some (label_of wo bit)),
         (<[out := Wire.set_evaluated_label wo (label_of wo bit)]> ws, st)).
Proof.
  intros Hinit H1 H2 Ho Ha Hb st.
  apply Gate_init_Ok in Hinit
    as (w1' & w2' & wo' & H1' & H2' & Ho' & Hg & Hperm & Hf & _).
  destruct Hg as (_ & _ & Hout & Hfunc & Hid & _).
  assert (w1' = w1) as -> by congruence.
  assert (w2' = w2) as -> by congruence.
  assert (wo' = wo) as -> by congruence.
  rewrite <- Hout in Ho.
  destruct (Gate_evaluate_cases g (label_of w1 a) (label_of w2 b) ws st wo Ho)
    as [(d & Hd & _ & Heval) | (Hnone & _)].
  - rewrite Hout in Heval.
    destruct Hd as [-> | ->]; [exists 0 | exists 1];
      (split; [first [by left | by right] | exact Heval]).
  - exfalso.
    destruct (Hnone (ciphertext w1 w2 wo func (gate_id_counter s) a b))
      as [N0 N1].
    { rewrite Hperm. apply elem_of_ciphertexts. by exists a, b. }
    rewrite Hid in N0, N1. unfold ciphertext in N0, N1.
    rewrite decrypt_encrypt_xor in N0, N1.
    by destruct (label_of_valid wo (func a b)).
Qed.

Lemma Gate_evaluate_never_mismatches_witness :
  ∃ bit,
    is_bit bit
    ∧ Gate.evaluate collision_gate 5 13
        (collision_store, after_gate (three_wires collision_state).2)
      = (Ok (Some (label_of (Wire.mk "z" 14 15 None None) bit)),
         (<["z" := Wire.set_evaluated_label
                     (Wire.mk "z" 14 15 None None)
                     (label_of (Wire.mk "z" 14 15 None None) bit)]>
            collision_store,
          after_gate (three_wires collision_state).2)).
Proof.
  assert (Hinit : Gate.init collision_store "x" "y" "z" and_gate "AND"
                            (three_wires collision_state).2
                  = (Ok collision_gate,
                     after_gate (three_wires collision_state).2))
    by (vm_compute; reflexivity).
  assert (H1 : collision_store !! "x" = Some (Wire.mk "x" 5 5 None None))
    by (vm_compute; reflexivity).
  assert (H2 : collision_store !! "y" = Some (Wire.mk "y" 12 13 None None))
    by (vm_compute; reflexivity).
  assert (Ho : collision_store !! "z" = Some (Wire.mk "z" 14 15 None None))
    by (vm_compute; reflexivity).
  exact (Gate_evaluate_never_mismatches _ _ _ _ _ _ _ _ _ _ _ _ 1 1
           Hinit H1 H2 Ho (or_intror eq_refl) (or_intror eq_refl)
           (after_gate (three_wires collision_state).2)).
Defined.



(** ** Evaluation of constructed circuits, whatever was drawn *)

(** The gate loop follows the flow of labels: it stops, with one line on
    [sys.stderr], at the first gate that reads a wire without label, and
    otherwise runs through without a line, every gate writing a label of
    its output wire. *)
Lemma evaluate_gates_flow gs ws known st :
  labelled ws known → Forall (garbled_in ws) gs →
  match flow (map wiring gs) known with
  | inr known' =>
      ∃ ws', GarbledFullAdderCircuit.evaluate_gates gs (ws, st)
             = (Ok true, (ws', st))
             ∧ labelled ws' known' ∧ same_labels ws ws'
  | inl k =>
      ∃ g ws', gs !! k = Some g
               ∧ GarbledFullAdderCircuit.evaluate_gates gs (ws, st)
                 = (Ok false,
                    (ws', logged (MissingInputLabelError (Gate.gate_id g))
                                 st))
               ∧ same_labels ws ws'
  end.
Proof.
  revert ws known. induction gs as [| g rest IH]; intros ws known Hl Hg.
  - exists ws. split; [done | split; [done | apply same_labels_refl]].
  - apply Forall_cons in Hg
      as [(w1 & w2 & wo & H1 & H2 & Ho & Hperm & Hf) Hrest].
    cbn [map flow]. unfold wiring at 1.
    rewrite (evaluate_gates_cons _ _ _ _ _ _ H1 H2).
    pose proof (Hl _ _ H1) as L1. pose proof (Hl _ _ H2) as L2.
    destruct (known (Gate.input_wire1 g)); cycle 1.
    { rewrite L1. exists g, ws.
      split; [done | split; [done | apply same_labels_refl]]. }
    destruct (known (Gate.input_wire2 g)); cycle 1.
    { rewrite L2. exists g, ws. cbn [andb].
      destruct (Wire.evaluated_label w1);
        (split; [done | split; [done | apply same_labels_refl]]). }
    destruct L1 as (a & Ha & ->). destruct L2 as (b & Hb & ->).
    cbn [andb].
    destruct (Gate_evaluate_cases g (label_of w1 a) (label_of w2 b)
                                  ws st wo Ho)
      as [(d & Hd & _ & ->) | (Hnone & _)]; cycle 1.
    { exfalso.
      destruct (Hnone (ciphertext w1 w2 wo (Gate.func g) (Gate.gate_id g)
                                  a b)) as [N0 N1].
      { rewrite Hperm. apply elem_of_ciphertexts. by exists a, b. }
      unfold ciphertext in N0, N1. rewrite decrypt_encrypt_xor in N0, N1.
      by destruct (label_of_valid wo (Gate.func g a b)). }
    set (ws1 := <[Gate.output_wire g := Wire.set_evaluated_label wo d]> ws).
    assert (Hsame : same_labels ws ws1)
      by by apply same_labels_set_evaluated_label.
    specialize (IH ws1
      (fun r => String.eqb r (Gate.output_wire g) || known r)).
    destruct (flow (map wiring rest) _) as [k | known'].
    + destruct IH as (g' & ws' & Hk & Hrun & Hsame').
      * intros r w. unfold ws1.
        destruct (String.eqb_spec r (Gate.output_wire g)) as [-> | Hne].
        -- rewrite lookup_insert_eq. intros [= <-]. cbn [orb].
           destruct Hd as [-> | ->]; [exists 0 | exists 1];
             (split; [first [by left | by right] | done]).
        -- rewrite lookup_insert_ne by done. cbn [orb]. apply Hl.
      * eapply Forall_impl; [exact Hrest |]. intros g''.
        by apply garbled_in_same_labels.
      * exists g', ws'. split; [done | split; [done |]].
        by eapply same_labels_trans.
    + destruct IH as (ws' & Hrun & Hl' & Hsame').
      * intros r w. unfold ws1.
        destruct (String.eqb_spec r (Gate.output_wire g)) as [-> | Hne].
        -- rewrite lookup_insert_eq. intros [= <-]. cbn [orb].
           destruct Hd as [-> | ->]; [exists 0 | exists 1];
             (split; [first [by left | by right] | done]).
        -- rewrite lookup_insert_ne by done. cbn [orb]. apply Hl.
      * eapply Forall_impl; [exact Hrest |]. intros g''.
        by apply garbled_in_same_labels.
      * exists ws'. split; [done | split; [done |]].
        by eapply same_labels_trans.
Qed.

(** Decoding wires that carry one of their own labels gives bits. *)
Lemma decode_labelled ws known rs :
  labelled ws known →
  Forall (fun r => known r = true ∧ is_Some (ws !! r)) rs →
  ∃ bits, Forall is_bit bits ∧ length bits = length rs
          ∧ GarbledFullAdderCircuit.decode ws rs = Ok (Some <$> bits).
Proof.
  intros Hl. induction rs as [| r rs IH]; [by exists [] |].
  intros [[Hk [w Hw]] Hrs]%Forall_cons.
  destruct (IH Hrs) as (bits & Hbits & Hlen & Hdec).
  pose proof (Hl _ _ Hw) as L. rewrite Hk in L.
  destruct L as (bit & Hbit & E).
  pose proof (get_bit_from_label_cases w (Wire.evaluated_label w))
    as Hspec.
  destruct (Wire.get_bit_from_label w (Wire.evaluated_label w))
    as [bit' |] eqn:Hget.
  - destruct Hspec as [Hbit' _]. exists (bit' :: bits).
    split; [by constructor |]. split; [simpl; by rewrite Hlen |].
    cbn [GarbledFullAdderCircuit.decode]. by rewrite Hw, Hdec, Hget.
  - exfalso. by apply (Hspec bit Hbit).
Qed.

Lemma flow_adder k0 k1 k2 k3 k4 k5 :
  match flow adder_netlist (input_known k0 k1 k2 k3 k4 k5) with
  | inl k => first_unset k0 k1 k2 k3 k4 k5 = Some k
  | inr known' =>
      first_unset k0 k1 k2 k3 k4 k5 = None
      ∧ forallb known' ["sum0"; "sum1"; "sum2"; "carry2"] = true
  end.
Proof.
  destruct k0, k1, k2, k3, k4, k5; vm_compute;
    first [reflexivity | split; reflexivity].
Qed.

(** The store of a constructed circuit carries labels on the input wires
    that were given a value, and on no other wire. *)
Lemma built_labelled s va0 va1 va2 vb0 vb1 vb2 c :
  ok_value va0 → ok_value va1 → ok_value va2 →
  ok_value vb0 → ok_value vb1 → ok_value vb2 →
  built s [va0; va1; va2; vb0; vb1; vb2] c →
  labelled (GarbledFullAdderCircuit.wires c)
           (input_known (has_value va0) (has_value va1) (has_value va2)
                        (has_value vb0) (has_value vb1) (has_value vb2)).
Proof.
  intros H0 H1 H2 H3 H4 H5 Hbuilt r w Hw.
  pose proof (built_inputs _ _ _ Hbuilt) as Hin. unfold input_names in Hin.
  repeat match goal with
         | H : Forall2 _ (_ :: _) (_ :: _) |- _ =>
             apply Forall2_cons_1 in H as [(? & ? & _ & ?) H]
         end.
  unfold input_known.
  repeat match goal with
         | |- context [String.eqb r ?k] =>
             destruct (String.eqb_spec r k) as [-> | ?];
             [ match goal with
               | Hk : GarbledFullAdderCircuit.wires c !! k = Some ?x |- _ =>
                   assert (x = w) as -> by congruence
               end;
               match goal with
               | He : Wire.evaluated_label w = label_of w <$> ?v |- _ =>
                   rewrite He; destruct v as [z |]; simpl;
                   [by exists z | done]
               end
             |]
         end.
  simpl. apply (built_internal _ _ _ Hbuilt r w Hw).
  unfold input_names. rewrite !elem_of_cons, elem_of_nil. tauto.
Qed.

Lemma lookup_map {A B} (f : A → B) (l : list A) (k : nat) :
  map f l !! k = f <$> l !! k.
Proof.
  revert k. induction l as [| x l IH]; intros [| k]; simpl; auto.
Qed.

Lemma decode_cons_Ok ws r rs x out :
  GarbledFullAdderCircuit.decode ws (r :: rs) = Ok (x :: out) →
  GarbledFullAdderCircuit.decode ws rs = Ok out.
Proof.
  cbn [GarbledFullAdderCircuit.decode].
  destruct (ws !! r); [| done].
  destruct (GarbledFullAdderCircuit.decode ws rs); [| done].
  by intros [= _ ->].
Qed.

(** X12. On six input bits the constructor returns a circuit, and
    [evaluate] on it always returns three bits: whatever the random
    module drew (equal labels and false acceptance included) no gate
    mismatches, no input label is missing, no bit is decoded as [None],
    nothing is written on [sys.stderr] and no exception is raised.  The
    full sum read off the evaluated circuit is four bits, the last three
    being the returned result. *)
Theorem evaluate_total_on_bits (s : State) (a0 a1 a2 b0 b1 b2 : Z) :
  is_bit a0 → is_bit a1 → is_bit a2 → is_bit b0 → is_bit b1 → is_bit b2 →
  ∃ c,
    GarbledFullAdderCircuit.init [Some a0; Some a1; Some a2]
                                 [Some b0; Some b1; Some b2] s
    = (Ok c, after_build s)
    ∧ ∃ r0 r1 r2 r3 c' s',
        is_bit r0 ∧ is_bit r1 ∧ is_bit r2 ∧ is_bit r3
        ∧ GarbledFullAdderCircuit.evaluate (c, after_build s)
          = (Ok (Some [Some r1; Some r2; Some r3]), (c', s'))
        ∧ GarbledFullAdderCircuit.full_sum c'
          = Ok [Some r0; Some r1; Some r2; Some r3]
        ∧ stderr s' = stderr s
        ∧ stdout s' = stdout s ++ [[Some r1; Some r2; Some r3]].
Proof.
  intros Ha0 Ha1 Ha2 Hb0 Hb1 Hb2.
  destruct (init_run (Some a0) (Some a1) (Some a2) (Some b0) (Some b1)
                     (Some b2) s) as (c & Hrun & Hbuilt); try done.
  exists c. split; [exact Hrun |].
  pose proof (built_labelled s (Some a0) (Some a1) (Some a2) (Some b0)
                (Some b1) (Some b2) c Ha0 Ha1 Ha2 Hb0 Hb1 Hb2 Hbuilt)
    as Hl. cbn [has_value] in Hl.
  pose proof (evaluate_gates_flow (GarbledFullAdderCircuit.gates c) _ _
                (after_build s) Hl (built_garbled _ _ _ Hbuilt)) as Hflow.
  rewrite (built_netlist _ _ _ Hbuilt) in Hflow.
  pose proof (flow_adder true true true true true true) as Hadder.
  destruct (flow adder_netlist _) as [k | known']; [discriminate Hadder |].
  destruct Hadder as [_ Hknown].
  destruct Hflow as (ws' & Hgates & Hl' & Hsame).
  destruct (decode_labelled ws' known' ["sum0"; "sum1"; "sum2"; "carry2"] Hl')
    as (bits & Hbits & Hlen & Hdec).
  { pose proof (built_outputs _ _ _ Hbuilt) as Hout.
    rewrite (built_full_sum _ _ _ Hbuilt) in Hout.
    cbn [forallb] in Hknown.
    repeat (apply andb_true_iff in Hknown as [? Hknown]).
    repeat match goal with
           | H : Forall _ (_ :: _) |- _ =>
               apply Forall_cons in H as [[? ?] H]
           end.
    repeat (apply Forall_cons_2;
            [ split; [assumption |];
              match goal with
              | Hw : GarbledFullAdderCircuit.wires c !! ?r = Some ?w
                |- is_Some (ws' !! ?r) =>
                  destruct (same_labels_lookup _ _ _ _ Hsame Hw)
                    as (? & -> & _); by eexists
              end
            |]).
    apply Forall_nil_2. }
  destruct bits as [| r0 [| r1 [| r2 [| r3 [| ? ?]]]]]; try done.
  repeat match goal with
         | H : Forall is_bit (_ :: _) |- _ =>
             apply Forall_cons in H as [? H]
         end.
  exists r0, r1, r2, r3. cbn [fmap list_fmap] in Hdec.
  pose proof (decode_cons_Ok _ _ _ _ _ Hdec) as Hres.
  unfold GarbledFullAdderCircuit.evaluate. rewrite Hgates.
  rewrite (built_result _ _ _ Hbuilt), Hres.
  eexists _, _. repeat split; try done.
  unfold GarbledFullAdderCircuit.full_sum.
  cbn [GarbledFullAdderCircuit.with_wires GarbledFullAdderCircuit.wires
       GarbledFullAdderCircuit.full_sum_wires].
  by rewrite (built_full_sum _ _ _ Hbuilt).
Qed.

Lemma evaluate_total_on_bits_witness :
  ∃ c,
    GarbledFullAdderCircuit.init [Some 0; Some 1; Some 0]
                                 [Some 0; Some 0; Some 0]
                                 sum1_collision_state
    = (Ok c, after_build sum1_collision_state)
    ∧ ∃ r0 r1 r2 r3 c' s',
        is_bit r0 ∧ is_bit r1 ∧ is_bit r2 ∧ is_bit r3
        ∧ GarbledFullAdderCircuit.evaluate
            (c, after_build sum1_collision_state)
          = (Ok (Some [Some r1; Some r2; Some r3]), (c', s'))
        ∧ GarbledFullAdderCircuit.full_sum c'
          = Ok [Some r0; Some r1; Some r2; Some r3]
        ∧ stderr s' = stderr sum1_collision_state
        ∧ stdout s' = stdout sum1_collision_state
                      ++ [[Some r1; Some r2; Some r3]].
Proof.
  exact (evaluate_total_on_bits sum1_collision_state 0 1 0 0 0 0
           (or_introl eq_refl) (or_intror eq_refl) (or_introl eq_refl)
           (or_introl eq_refl) (or_introl eq_refl) (or_introl eq_refl)).
Defined.

Lemma first_unset_position k0 k1 k2 k3 k4 k5 k :
  first_unset k0 k1 k2 k3 k4 k5 = Some k →
  [0; 1; 2; 3; 4; 5; 6; 7; 8; 9; 10; 11] !! k = Some (Z.of_nat k).
Proof.
  unfold first_unset.
  destruct (negb (k0 && k3)); [by intros [= <-] |].
  destruct (negb (k1 && k4)); [by intros [= <-] |].
  destruct (negb (k2 && k5)); [by intros [= <-] | done].
Qed.

(** X13. When an input value is [None] (the others being bits or [None]),
    the constructor still returns a circuit, and [evaluate] on it returns
    [None]: it stops at the first gate that reads an input wire without
    value (gate 0 for a0 or b0, gate 2 for a1 or b1, gate 7 for a2 or
    b2), writes exactly one line on [sys.stderr] naming the identifier of
    that gate, prints nothing and raises nothing. *)
Theorem evaluate_missing_input
    (s : State) (va0 va1 va2 vb0 vb1 vb2 : option Z) (k : nat) :
  ok_value va0 → ok_value va1 → ok_value va2 →
  ok_value vb0 → ok_value vb1 → ok_value vb2 →
  first_unset (has_value va0) (has_value va1) (has_value va2)
              (has_value vb0) (has_value vb1) (has_value vb2) = Some k →
  ∃ c,
    GarbledFullAdderCircuit.init [va0; va1; va2] [vb0; vb1; vb2] s
    = (Ok c, after_build s)
    ∧ ∃ c',
        GarbledFullAdderCircuit.evaluate (c, after_build s)
        = (Ok None,
           (c', logged (MissingInputLabelError
                          (gate_id_counter s + Z.of_nat k))
                       (after_build s))).
Proof.
  intros H0 H1 H2 H3 H4 H5 Hk.
  destruct (init_run va0 va1 va2 vb0 vb1 vb2 s) as (c & Hrun & Hbuilt);
    try done.
  exists c. split; [exact Hrun |].
  pose proof (built_labelled s _ _ _ _ _ _ c H0 H1 H2 H3 H4 H5 Hbuilt) as Hl.
  pose proof (evaluate_gates_flow (GarbledFullAdderCircuit.gates c) _ _
                (after_build s) Hl (built_garbled _ _ _ Hbuilt)) as Hflow.
  rewrite (built_netlist _ _ _ Hbuilt) in Hflow.
  pose proof (flow_adder (has_value va0) (has_value va1) (has_value va2)
                         (has_value vb0) (has_value vb1) (has_value vb2))
    as Hadder.
  destruct (flow adder_netlist _) as [k' | known'];
    [| destruct Hadder as [Hadder _]; congruence].
  assert (k' = k) as -> by congruence.
  destruct Hflow as (g & ws' & Hg & Hgates & _).
  assert (Hid : Gate.gate_id g = gate_id_counter s + Z.of_nat k).
  { pose proof (lookup_map Gate.gate_id
                  (GarbledFullAdderCircuit.gates c) k) as Hm.
    rewrite Hg, (built_gate_ids _ _ _ Hbuilt), lookup_map in Hm.
    rewrite (first_unset_position _ _ _ _ _ _ _ Hk) in Hm.
    simpl in Hm. by injection Hm as <-. }
  unfold GarbledFullAdderCircuit.evaluate. rewrite Hgates, Hid.
  by eexists.
Qed.

Lemma evaluate_missing_input_witness :
  ∃ c,
    GarbledFullAdderCircuit.init [Some 1; None; Some 1]
                                 [Some 1; Some 0; None] demo_state
    = (Ok c, after_build demo_state)
    ∧ ∃ c',
        GarbledFullAdderCircuit.evaluate (c, after_build demo_state)
        = (Ok None,
           (c', logged (MissingInputLabelError
                          (gate_id_counter demo_state + Z.of_nat 2))
                       (after_build demo_state))).
Proof.
  exact (evaluate_missing_input demo_state (Some 1) None (Some 1)
           (Some 1) (Some 0) None 2
           (or_intror eq_refl) I (or_intror eq_refl)
           (or_intror eq_refl) (or_introl eq_refl) I eq_refl).
Defined.

(** ** What evaluation leaves alone *)

Lemma same_wires_refl ws : same_wires ws ws.
Proof. done. Qed.

Lemma same_wires_trans ws ws' ws'' :
  same_wires ws ws' → same_wires ws' ws'' → same_wires ws ws''.
Proof. intros H H' r. by rewrite H. Qed.

Lemma only_logged_refl st : only_logged st st.
Proof. repeat split. exists []. by rewrite app_nil_r. Qed.

Lemma only_logged_trans st st' st'' :
  only_logged st st' → only_logged st' st'' → only_logged st st''.
Proof.
  intros (C & S & P & O & l & E) (C' & S' & P' & O' & l' & E').
  repeat split; try congruence.
  exists (l ++ l'). by rewrite E', E, app_assoc.
Qed.

Lemma only_logged_logged line st : only_logged st (logged line st).
Proof. repeat split. by exists [line]. Qed.

Lemma Gate_evaluate_frame g la lb ws st r ws' st' :
  Gate.evaluate g la lb (ws, st) = (r, (ws', st')) →
  same_wires ws ws' ∧ only_logged st st'.
Proof.
  unfold Gate.evaluate.
  destruct (ws !! Gate.output_wire g) as [wo |] eqn:Hwo.
  - destruct (Gate.evaluate_loop _ _ _ _ _) as [d |]; intros [= <- <- <-].
    + split; [| apply only_logged_refl]. intros r.
      destruct (decide (Gate.output_wire g = r)) as [<- | Hne].
      * by rewrite lookup_insert_eq, Hwo.
      * by rewrite lookup_insert_ne.
    + split; [apply same_wires_refl | apply only_logged_logged].
  - intros [= <- <- <-].
    split; [apply same_wires_refl | apply only_logged_refl].
Qed.

Lemma evaluate_gates_frame gs ws st r ws' st' :
  GarbledFullAdderCircuit.evaluate_gates gs (ws, st) = (r, (ws', st')) →
  same_wires ws ws' ∧ only_logged st st'.
Proof.
  revert ws st. induction gs as [| gate rest IH]; intros ws st.
  - intros [= <- <- <-].
    split; [apply same_wires_refl | apply only_logged_refl].
  - destruct (ws !! Gate.input_wire1 gate) as [w1 |] eqn:H1; cycle 1.
    { cbn [GarbledFullAdderCircuit.evaluate_gates].
      unfold bind at 1. unfold bind at 1. unfold deref at 1. rewrite H1.
      intros [= <- <- <-].
      split; [apply same_wires_refl | apply only_logged_refl]. }
    destruct (ws !! Gate.input_wire2 gate) as [w2 |] eqn:H2; cycle 1.
    { cbn [GarbledFullAdderCircuit.evaluate_gates].
      unfold bind at 1. unfold bind at 1. unfold deref at 1. rewrite H1.
      unfold ret at 1. unfold bind at 1. unfold deref at 1. rewrite H2.
      intros [= <- <- <-].
      split; [apply same_wires_refl | apply only_logged_refl]. }
    rewrite (evaluate_gates_cons _ _ _ _ _ _ H1 H2).
    assert (Hmissing :
      (Ok false,
       (ws, mkState (gate_id_counter st) (random_source st) (random_pos st)
                    (stderr st ++ [MissingInputLabelError
                                     (Gate.gate_id gate)])
                    (stdout st)))
      = (r, (ws', st')) → same_wires ws ws' ∧ only_logged st st').
    { intros [= <- <- <-]. split; [apply same_wires_refl |].
      apply (only_logged_logged
               (MissingInputLabelError (Gate.gate_id gate)) st). }
    destruct (Wire.evaluated_label w1) as [la |]; [| exact Hmissing].
    destruct (Wire.evaluated_label w2) as [lb |]; [| exact Hmissing].
    destruct (Gate.evaluate gate la lb (ws, st)) as [[o | e] [ws1 st1]]
      eqn:Hgate; apply Gate_evaluate_frame in Hgate as [Hw Hs].
    + intros Hrest. apply IH in Hrest as [Hw' Hs']. split.
      * by eapply same_wires_trans.
      * by eapply only_logged_trans.
    + by intros [= <- <- <-].
Qed.

(** X14. [evaluate], on any circuit, changes nothing but the evaluated
    labels of wires and the two output streams: the input sequences, the
    gates with their tables, the two lists of output wires, and the name,
    labels and value of every wire are as before, and so are the gate
    counter and the random module.  Lines are only added to
    [sys.stderr]; [sys.stdout] gets the returned list, and only when a
    list is returned, which then has one entry per result wire. *)
Theorem evaluate_frame
    (c c' : GarbledFullAdderCircuit.t) (st st' : State)
    (r : Result (option (list (option Z)))) :
  GarbledFullAdderCircuit.evaluate (c, st) = (r, (c', st')) →
  GarbledFullAdderCircuit.a_bits c' = GarbledFullAdderCircuit.a_bits c
  ∧ GarbledFullAdderCircuit.b_bits c' = GarbledFullAdderCircuit.b_bits c
  ∧ GarbledFullAdderCircuit.gates c' = GarbledFullAdderCircuit.gates c
  ∧ GarbledFullAdderCircuit.full_sum_wires c'
    = GarbledFullAdderCircuit.full_sum_wires c
  ∧ GarbledFullAdderCircuit.result_wires c'
    = GarbledFullAdderCircuit.result_wires c
  ∧ same_wires (GarbledFullAdderCircuit.wires c)
               (GarbledFullAdderCircuit.wires c')
  ∧ gate_id_counter st' = gate_id_counter st
  ∧ random_source st' = random_source st
  ∧ random_pos st' = random_pos st
  ∧ (∃ lines, stderr st' = stderr st ++ lines)
  ∧ match r with
    | Ok (Some output) =>
        stdout st' = stdout st ++ [output]
        ∧ length output
          = length (GarbledFullAdderCircuit.result_wires c)
    | _ => stdout st' = stdout st
    end.
Proof.
  unfold GarbledFullAdderCircuit.evaluate.
  destruct (GarbledFullAdderCircuit.evaluate_gates _ _)
    as [[[] | e] [ws s1]] eqn:Hgates;
    apply evaluate_gates_frame in Hgates
      as [Hw (HC & HS & HP & HO & Hlines)].
  - destruct (GarbledFullAdderCircuit.decode ws _) as [out |] eqn:Hdec;
      intros [= <- <- <-]; repeat split; try done.
    + simpl. by rewrite HO.
    + by apply decode_length in Hdec.
  - intros [= <- <- <-]. repeat split; done.
  - intros [= <- <- <-]. repeat split; done.
Qed.

Lemma evaluate_frame_witness :
  GarbledFullAdderCircuit.gates
    (evaluated demo_circuit (after_build demo_state)).1
  = GarbledFullAdderCircuit.gates demo_circuit
  ∧ gate_id_counter (evaluated demo_circuit (after_build demo_state)).2
    = gate_id_counter (after_build demo_state).
Proof.
  assert (Heval :
    GarbledFullAdderCircuit.evaluate (demo_circuit, after_build demo_state)
    = ((GarbledFullAdderCircuit.evaluate
          (demo_circuit, after_build demo_state)).1,
       ((evaluated demo_circuit (after_build demo_state)).1,
        (evaluated demo_circuit (after_build demo_state)).2))).
  { unfold evaluated.
    by destruct (GarbledFullAdderCircuit.evaluate _) as [? [? ?]]. }
  destruct (evaluate_frame _ _ _ _ _ Heval)
    as (_ & _ & Hg & _ & _ & _ & HC & _).
  split; [exact Hg | exact HC].
Defined.

(** ** Gate identifiers *)

(** X1. The twelve gates of a constructed circuit carry twelve
    consecutive identifiers, starting at the value of the global counter
    when the constructor was called, in gate order; they are pairwise
    distinct, the counter ends twelve higher, and a circuit constructed
    later in the same process shares no gate identifier with this
    one. *)
Theorem gate_ids_fresh
    (a_bits b_bits : list (option Z)) (s s' : State)
    (c : GarbledFullAdderCircuit.t) :
  GarbledFullAdderCircuit.init a_bits b_bits s = (Ok c, s') →
  map Gate.gate_id (GarbledFullAdderCircuit.gates c)
  = map (Z.add (gate_id_counter s)) [0; 1; 2; 3; 4; 5; 6; 7; 8; 9; 10; 11]
  ∧ NoDup (map Gate.gate_id (GarbledFullAdderCircuit.gates c))
  ∧ gate_id_counter s' = gate_id_counter s + 12
  ∧ ∀ a_bits2 b_bits2 s2 s2' c2 g g2,
      gate_id_counter s' ≤ gate_id_counter s2 →
      GarbledFullAdderCircuit.init a_bits2 b_bits2 s2 = (Ok c2, s2') →
      g ∈ GarbledFullAdderCircuit.gates c →
      g2 ∈ GarbledFullAdderCircuit.gates c2 →
      Gate.gate_id g ≠ Gate.gate_id g2.
Proof.
  assert (Hrange : ∀ a b s s' c g,
            GarbledFullAdderCircuit.init a b s = (Ok c, s') →
            g ∈ GarbledFullAdderCircuit.gates c →
            gate_id_counter s ≤ Gate.gate_id g < gate_id_counter s + 12).
  { intros a b s0 s0' c0 g Hinit Hg.
    apply init_Ok in Hinit as (_ & _ & _ & _ & _ & _ & Hbuilt).
    apply list_elem_of_In, (in_map Gate.gate_id), list_elem_of_In in Hg.
    rewrite (built_gate_ids _ _ _ Hbuilt) in Hg. cbn [map] in Hg.
    rewrite !elem_of_cons, elem_of_nil in Hg. lia. }
  intros Hinit. pose proof Hinit as Hinit'.
  apply init_Ok in Hinit' as (-> & _ & _ & _ & _ & _ & Hbuilt).
  split; [exact (built_gate_ids _ _ _ Hbuilt) | split; [| split]].
  - rewrite (built_gate_ids _ _ _ Hbuilt). cbn [map].
    repeat (apply NoDup_cons_2;
            [rewrite ?elem_of_cons, elem_of_nil; lia |]).
    apply NoDup_nil_2.
  - reflexivity.
  - intros a2 b2 s2 s2' c2 g g2 Hle Hinit2 Hg Hg2.
    pose proof (Hrange _ _ _ _ _ _ Hinit Hg).
    pose proof (Hrange _ _ _ _ _ _ Hinit2 Hg2).
    cbn [after_build gate_id_counter] in Hle. lia.
Qed.

Lemma gate_ids_fresh_witness :
  map Gate.gate_id (GarbledFullAdderCircuit.gates demo_circuit)
  = map (Z.add (gate_id_counter demo_state))
        [0; 1; 2; 3; 4; 5; 6; 7; 8; 9; 10; 11]
  ∧ gate_id_counter (after_build demo_state)
    = gate_id_counter demo_state + 12.
Proof.
  destruct (gate_ids_fresh demo_a demo_b demo_state (after_build demo_state)
              demo_circuit demo_init) as (Hids & _ & Hc & _).
  split; [exact Hids | exact Hc].
Defined.

(** ** Reading a number off a list of bits *)

(** X16. On a list of bits, [bits_to_int] is the number whose binary
    digits they are, least significant first: it lies in [0, 2^n) for
    [n] bits, its [n] low bits are the list again (so two lists of bits
    of one length with the same number are equal), and dropping the first
    bit halves it.  The result of the circuit being the full sum without
    its first bit, the number the driver prints for it is half the one it
    prints for the full sum. *)
Theorem bits_to_int_bits (bits : list Z) :
  Forall is_bit bits →
  0 ≤ bits_to_int bits < 2 ^ Z.of_nat (length bits)
  ∧ to_bits (length bits) (bits_to_int bits) = bits
  ∧ ∀ bit, is_bit bit →
      bits_to_int bits = bits_to_int (bit :: bits) / 2.
Proof.
  assert (Hhalf : ∀ bit r, is_bit bit →
            (bit + 2 * r) mod 2 = bit ∧ (bit + 2 * r) / 2 = r).
  { intros bit r Hbit. rewrite (Z.mul_comm 2 r).
    rewrite Z_mod_plus_full, Z_div_plus_full by lia.
    by destruct Hbit as [-> | ->]; split. }
  intros Hbits. split; [| split].
  - induction Hbits as [| bit rest Hbit _ IH]; [simpl; lia |].
    cbn [bits_to_int length]. rewrite Nat2Z.inj_succ, Z.pow_succ_r by lia.
    destruct Hbit as [-> | ->]; lia.
  - induction Hbits as [| bit rest Hbit _ IH]; [reflexivity |].
    cbn [bits_to_int length to_bits].
    destruct (Hhalf bit (bits_to_int rest) Hbit) as [-> ->].
    by rewrite IH.
  - intros bit Hbit. cbn [bits_to_int].
    by destruct (Hhalf bit (bits_to_int bits) Hbit) as [_ ->].
Qed.

Lemma bits_to_int_bits_witness :
  Forall is_bit [1; 0; 1; 1]
  ∧ to_bits 4 (bits_to_int [1; 0; 1; 1]) = [1; 0; 1; 1]
  ∧ bits_to_int [0; 1; 1] = bits_to_int [1; 0; 1; 1] / 2.
Proof.
  assert (H : Forall is_bit [1; 0; 1; 1]).
  { repeat apply Forall_cons_2; [right | left | right | right | ];
      first [reflexivity | apply Forall_nil_2]. }
  split; [exact H |]. split.
  - exact (proj1 (proj2 (bits_to_int_bits [1; 0; 1; 1] H))).
  - reflexivity.
Defined.

(** ** A gate for a function that leaves {0, 1} *)

Lemma labels_cases w k :
  Wire.labels w k
  = if is_bitb k then Ok (label_of w k) else Raise (KeyError k).
Proof.
  unfold Wire.labels, is_bitb, label_of.
  destruct (k =? 0); [reflexivity |]. by destruct (k =? 1).
Qed.

Lemma garble_loop_bad w1 w2 wo func gate_id v :
  first_bad_output func = Some v →
  Gate.garble_loop w1 w2 wo func gate_id Gate.combos = Raise (KeyError v).
Proof.
  unfold first_bad_output, Gate.combos.
  cbn [Gate.garble_loop Gate.garble_entry]. rewrite !labels_cases.
  cbn [is_bitb Z.eqb orb].
  destruct (is_bitb (func 0 0)); cbn [negb]; [| by intros [= <-]].
  destruct (is_bitb (func 0 1)); cbn [negb]; [| by intros [= <-]].
  destruct (is_bitb (func 1 0)); cbn [negb]; [| by intros [= <-]].
  destruct (is_bitb (func 1 1)); cbn [negb]; [| by intros [= <-]].
  done.
Qed.

Lemma first_bad_output_None func :
  first_bad_output func = None ↔ bit_function func.
Proof.
  unfold first_bad_output. split.
  - destruct (is_bitb (func 0 0)) eqn:E00; cbn [negb]; [| done].
    destruct (is_bitb (func 0 1)) eqn:E01; cbn [negb]; [| done].
    destruct (is_bitb (func 1 0)) eqn:E10; cbn [negb]; [| done].
    destruct (is_bitb (func 1 1)) eqn:E11; cbn [negb]; [| done].
    intros _ a b [-> | ->] [-> | ->]; by apply is_bitb_spec.
  - intros Hf.
    assert (H : ∀ a b, is_bit a → is_bit b → is_bitb (func a b) = true)
      by (intros a b Ha Hb; by apply is_bitb_spec, Hf).
    rewrite !H by (first [by left | by right]). reflexivity.
Qed.

(** X7. The constructor of a gate does not check its function.  It
    tries the four combinations of input bits in the order (0,0), (0,1),
    (1,0), (1,1); at the first one the function sends outside {0, 1} it
    fails with the [KeyError] of the output wire's label lookup, for that
    value: the gate identifier has been taken by then (the counter is one
    higher), nothing was drawn from the random module.  When there is no
    such combination the gate is constructed. *)
Theorem Gate_init_checks_no_function
    (ws : WireStore) (in1 in2 out : string) (func : Z → Z → Z)
    (ty : string) (s : State) (w1 w2 wo : Wire.t) :
  ws !! in1 = Some w1 → ws !! in2 = Some w2 → ws !! out = Some wo →
  match first_bad_output func with
  | Some v =>
      ¬ is_bit v
      ∧ Gate.init ws in1 in2 out func ty s
        = (Raise (KeyError v),
           mkState (gate_id_counter s + 1) (random_source s) (random_pos s)
                   (stderr s) (stdout s))
  | None =>
      ∃ g, Gate.init ws in1 in2 out func ty s = (Ok g, after_gate s)
  end.
Proof.
  intros H1 H2 Ho.
  destruct (first_bad_output func) as [v |] eqn:Hbad.
  - split.
    + unfold first_bad_output in Hbad. rewrite <- is_bitb_spec.
      destruct (is_bitb (func 0 0)) eqn:E00; cbn [negb] in Hbad;
        [| injection Hbad as <-; by rewrite E00].
      destruct (is_bitb (func 0 1)) eqn:E01; cbn [negb] in Hbad;
        [| injection Hbad as <-; by rewrite E01].
      destruct (is_bitb (func 1 0)) eqn:E10; cbn [negb] in Hbad;
        [| injection Hbad as <-; by rewrite E10].
      destruct (is_bitb (func 1 1)) eqn:E11; cbn [negb] in Hbad;
        [| injection Hbad as <-; by rewrite E11].
      done.
    + unfold Gate.init, Gate.garble, get_next_gate_id, deref, bind, ret,
        raise, of_result.
      rewrite H1, H2, Ho.
      by rewrite (garble_loop_bad w1 w2 wo func (gate_id_counter s) v Hbad).
  - apply first_bad_output_None in Hbad.
    destruct (Gate_init_run ws in1 in2 out func ty s w1 w2 wo H1 H2 Ho Hbad)
      as (table & Hinit & _).
    by eexists.
Qed.

Lemma Gate_init_checks_no_function_witness :
  Gate.init demo_store "x" "y" "z" Z.add "ADD" demo_state
  = (Raise (KeyError 2),
     mkState (gate_id_counter demo_state + 1) (random_source demo_state)
             (random_pos demo_state) (stderr demo_state)
             (stdout demo_state)).
Proof.
  destruct (demo_store !! "x") as [w1 |] eqn:H1;
    [| vm_compute in H1; discriminate H1].
  destruct (demo_store !! "y") as [w2 |] eqn:H2;
    [| vm_compute in H2; discriminate H2].
  destruct (demo_store !! "z") as [wo |] eqn:Ho;
    [| vm_compute in Ho; discriminate Ho].
  exact (proj2 (Gate_init_checks_no_function demo_store "x" "y" "z" Z.add
                  "ADD" demo_state w1 w2 wo H1 H2 Ho)).
Defined.

(** ** The shape of a constructed circuit *)

Lemma add_gate_made in1 in2 out func ty a b ws gs fs rs s w1 w2 wo :
  ws !! in1 = Some w1 → ws !! in2 = Some w2 → ws !! out = Some wo →
  bit_function func →
  ∃ table,
    GarbledFullAdderCircuit.add_gate in1 in2 out func ty
      (GarbledFullAdderCircuit.mk a b ws gs fs rs, s)
    = (Ok tt,
       (GarbledFullAdderCircuit.mk a b ws
          (gs ++ [Gate.mk in1 in2 out func (gate_id_counter s) ty table])
          fs rs,
        after_gate s)).
Proof.
  intros H1 H2 Ho Hf.
  destruct (Gate_init_run ws in1 in2 out func ty s w1 w2 wo H1 H2 Ho Hf)
    as (table & Hinit & _).
  exists table.
  unfold GarbledFullAdderCircuit.add_gate,
    GarbledFullAdderCircuit.get_self, GarbledFullAdderCircuit.lift,
    GarbledFullAdderCircuit.append_gate, bind.
  cbn [GarbledFullAdderCircuit.wires]. rewrite Hinit. reflexivity.
Qed.

Ltac gate_made H table :=
  match type of H with
  | context [bind (GarbledFullAdderCircuit.add_gate ?i1 ?i2 ?o ?f ?ty) _
                  (GarbledFullAdderCircuit.mk ?a ?b ?ws ?gs ?fs ?rs, ?s)] =>
      let Hrun := fresh "Hrun" in
      edestruct (add_gate_made i1 i2 o f ty a b ws gs fs rs s)
        as (table & Hrun);
      [ solve_lookup | solve_lookup | solve_lookup
      | first [ apply xor_gate_bits | apply and_gate_bits
              | apply or_gate_bits ]
      | rewrite (bind_run _ _ _ _ _ Hrun) in H; cbv beta in H; clear Hrun;
        simpl_state H ]
  end.

Lemma build_circuit_shape va0 va1 va2 vb0 vb1 vb2 s :
  ok_value va0 → ok_value va1 → ok_value va2 →
  ok_value vb0 → ok_value vb1 → ok_value vb2 →
  ∃ c s',
    GarbledFullAdderCircuit.build_circuit
      (GarbledFullAdderCircuit.mk [va0; va1; va2] [vb0; vb1; vb2] ∅ [] [] [],
       s)
    = (Ok tt, (c, s'))
    ∧ (∀ r, is_Some (GarbledFullAdderCircuit.wires c !! r)
            ↔ r ∈ input_names
                  ++ map Gate.output_wire (GarbledFullAdderCircuit.gates c))
    ∧ (∀ r w, GarbledFullAdderCircuit.wires c !! r = Some w →
              Wire.name w = r)
    ∧ Forall typed (GarbledFullAdderCircuit.gates c).
Proof.
  intros Ha0 Ha1 Ha2 Hb0 Hb1 Hb2.
  destruct s as [counter source pos err out].
  destruct (GarbledFullAdderCircuit.build_circuit _) as [r [c s']]
    eqn:Hbuild.
  unfold GarbledFullAdderCircuit.build_circuit in Hbuild.
  rewrite (bind_run _ _ _ _ _ (get_self_run _ _)) in Hbuild.
  cbv beta in Hbuild.
  cbn [GarbledFullAdderCircuit.a_bits GarbledFullAdderCircuit.b_bits]
    in Hbuild.
  unfold getitem in Hbuild. cbn [lookup list_lookup] in Hbuild.
  do 6 input_step Hbuild.
  wire_step Hbuild. gate_made Hbuild t1.
  wire_step Hbuild. gate_made Hbuild t2.
  wire_step Hbuild. gate_made Hbuild t3.
  wire_step Hbuild. gate_made Hbuild t4.
  wire_step Hbuild. gate_made Hbuild t5.
  wire_step Hbuild. gate_made Hbuild t6.
  wire_step Hbuild. gate_made Hbuild t7.
  wire_step Hbuild. gate_made Hbuild t8.
  wire_step Hbuild. gate_made Hbuild t9.
  wire_step Hbuild. gate_made Hbuild t10.
  wire_step Hbuild. gate_made Hbuild t11.
  wire_step Hbuild. gate_made Hbuild t12.
  unfold GarbledFullAdderCircuit.set_outputs in Hbuild.
  cbn [app] in Hbuild. injection Hbuild as <- <- <-.
  eexists _, _. split; [reflexivity |].
  cbn [GarbledFullAdderCircuit.wires GarbledFullAdderCircuit.gates
       map Gate.output_wire app input_names].
  unfold input_names. cbn [app].
  split; [| split].
  - intros r. split.
    + intros [w Hw].
      repeat (apply lookup_insert_Some in Hw as [[<- _] | [_ Hw]];
              [rewrite !elem_of_cons; repeat first [by left | right] |]).
      by rewrite lookup_empty in Hw.
    + rewrite !elem_of_cons, elem_of_nil. intros H.
      repeat (destruct H as [-> | H]; [eexists; solve_lookup |]).
      destruct H.
  - intros r w Hw.
    repeat (apply lookup_insert_Some in Hw as [[<- <-] | [_ Hw]];
            [reflexivity |]).
    by rewrite lookup_empty in Hw.
  - repeat apply Forall_cons_2; [.. | apply Forall_nil_2]; unfold typed;
      cbn [Gate.gate_type Gate.func];
      first [ by left | by right; left | by right; right ].
Qed.

(** X10. A constructed circuit is well formed.  Its wires are the six
    input wires and the output wires of its gates, each under its own
    name, and these eighteen names are pairwise distinct: no wire is
    written by two gates, no input wire by any.  The gates are in
    dependency order: each reads wires that are inputs or were written by
    an earlier gate, so the single pass of [evaluate] meets no gate
    before the gates it depends on.  The type each gate is printed with
    names the function it was garbled for. *)
Theorem circuit_well_formed
    (a_bits b_bits : list (option Z)) (s s' : State)
    (c : GarbledFullAdderCircuit.t) :
  GarbledFullAdderCircuit.init a_bits b_bits s = (Ok c, s') →
  (∀ r, is_Some (GarbledFullAdderCircuit.wires c !! r)
        ↔ r ∈ input_names
              ++ map Gate.output_wire (GarbledFullAdderCircuit.gates c))
  ∧ NoDup (input_names
           ++ map Gate.output_wire (GarbledFullAdderCircuit.gates c))
  ∧ length (input_names
            ++ map Gate.output_wire (GarbledFullAdderCircuit.gates c))
    = 18%nat
  ∧ (∀ r w, GarbledFullAdderCircuit.wires c !! r = Some w →
            Wire.name w = r)
  ∧ in_order (map wiring (GarbledFullAdderCircuit.gates c)) input_names
    = true
  ∧ Forall typed (GarbledFullAdderCircuit.gates c).
Proof.
  intros Hinit. pose proof Hinit as Hinit'.
  apply init_Ok in Hinit' as (_ & Ha & Hb & Hla & Hlb & Hbad & Hbuilt).
  assert (Hout : map Gate.output_wire (GarbledFullAdderCircuit.gates c)
                 = map (λ w, w.1.2) adder_netlist).
  { rewrite <- (built_netlist _ _ _ Hbuilt), map_map. reflexivity. }
  destruct a_bits as [| va0 [| va1 [| va2 [|]]]]; try done.
  destruct b_bits as [| vb0 [| vb1 [| vb2 [|]]]]; try done.
  assert (Hok : Forall ok_value [va0; va1; va2; vb0; vb1; vb2]).
  { clear -Hbad. cbn [app] in Hbad.
    assert (Hgen : ∀ vs, first_bad vs = None → Forall ok_value vs).
    { induction vs as [| [z |] vs IH]; simpl.
      - intros _. apply Forall_nil_2.
      - destruct (is_bitb z) eqn:E; [| done]. intros H.
        apply Forall_cons_2; [by apply is_bitb_spec | by apply IH].
      - intros H. apply Forall_cons_2; [done | by apply IH]. }
    by apply Hgen. }
  apply Forall_cons_1 in Hok as [H0 Hok].
  apply Forall_cons_1 in Hok as [H1 Hok].
  apply Forall_cons_1 in Hok as [H2 Hok].
  apply Forall_cons_1 in Hok as [H3 Hok].
  apply Forall_cons_1 in Hok as [H4 Hok].
  apply Forall_cons_1 in Hok as [H5 _].
  destruct (build_circuit_shape va0 va1 va2 vb0 vb1 vb2 s H0 H1 H2 H3 H4 H5)
    as (c0 & s0 & Hrun & Hdom & Hname & Htyped).
  assert (c0 = c) as ->.
  { revert Hinit. unfold GarbledFullAdderCircuit.init.
    cbn [length Nat.eqb negb orb]. rewrite Hrun. by intros [= -> _]. }
  split; [exact Hdom |]. split; [| split; [| split; [exact Hname |]]].
  - rewrite Hout. unfold input_names, adder_netlist. cbn [map app fst snd].
    repeat (apply NoDup_cons_2;
            [rewrite ?elem_of_cons, elem_of_nil;
             intros H; repeat (destruct H as [H | H]; [done |]); done |]).
    apply NoDup_nil_2.
  - rewrite Hout. reflexivity.
  - split; [| exact Htyped].
    rewrite (built_netlist _ _ _ Hbuilt). reflexivity.
Qed.

Lemma circuit_well_formed_witness :
  in_order (map wiring (GarbledFullAdderCircuit.gates demo_circuit))
           input_names = true
  ∧ length (input_names
            ++ map Gate.output_wire
                   (GarbledFullAdderCircuit.gates demo_circuit))
    = 18%nat.
Proof.
  destruct (circuit_well_formed demo_a demo_b demo_state
              (after_build demo_state) demo_circuit demo_init)
    as (_ & _ & Hlen & _ & Horder & _).
  split; [exact Horder | exact Hlen].
Defined.

(** ** What a failing constructor has done *)

Lemma new_wire_raise_run name v a b ws gs fs rs s :
  ¬ is_bit v →
  GarbledFullAdderCircuit.new_wire name (Some v)
    (GarbledFullAdderCircuit.mk a b ws gs fs rs, s)
  = (Raise (KeyError v),
     (GarbledFullAdderCircuit.mk a b
        (<[name := Wire.mk name
                     (random_source s (random_pos s) mod 2 ^ 64)
                     (random_source s (S (random_pos s)) mod 2 ^ 64)
                     (Some v) None]> ws)
        gs fs rs,
      advance 2 s)).
Proof.
  intros Hv.
  unfold GarbledFullAdderCircuit.new_wire, GarbledFullAdderCircuit.lift,
    GarbledFullAdderCircuit.set_wire, Wire.init, getrandbits, next_draw,
    bind, ret, of_result, Wire.set_value, Wire.labels; simpl.
  destruct (Z.eqb_spec v 0) as [-> | ?]; [destruct Hv; by left |].
  destruct (Z.eqb_spec v 1) as [-> | ?]; [destruct Hv; by right |].
  reflexivity.
Qed.

Lemma bad_index_cons_ok v rest :
  ok_value v → bad_index (v :: rest) = S <$> bad_index rest.
Proof.
  destruct v as [z |]; [| done]. simpl. intros Hz.
  apply is_bitb_spec in Hz. by rewrite Hz.
Qed.

Lemma bad_index_cons_bad z rest :
  ¬ is_bit z → bad_index (Some z :: rest) = Some O.
Proof.
  intros Hz. simpl. destruct (is_bitb z) eqn:E; [| done].
  by apply is_bitb_spec in E.
Qed.

Ltac raise_state_step H :=
  rewrite (bind_run (of_result _) _ _ _ _ eq_refl) in H; cbv beta in H;
  match type of H with
  | context [bind (GarbledFullAdderCircuit.new_wire ?n (Some ?v)) _
                  (GarbledFullAdderCircuit.mk ?a ?b ?ws ?gs ?fs ?rs, ?s)] =>
      let Hr := fresh "Hr" in
      pose proof (new_wire_raise_run n v a b ws gs fs rs s
                    ltac:(assumption)) as Hr;
      rewrite (bind_raise _ _ _ _ _ Hr) in H; clear Hr
  end.

Tactic Notation "raise_leaf_state" constr(s) integer(k) :=
  let Hbuild := fresh "Hbuild" in
  destruct s;
  unfold GarbledFullAdderCircuit.init; cbn [length Nat.eqb negb orb];
  destruct (GarbledFullAdderCircuit.build_circuit _) as [r [c s']]
    eqn:Hbuild;
  unfold GarbledFullAdderCircuit.build_circuit in Hbuild;
  rewrite (bind_run _ _ _ _ _ (get_self_run _ _)) in Hbuild;
  cbv beta in Hbuild;
  cbn [GarbledFullAdderCircuit.a_bits GarbledFullAdderCircuit.b_bits]
    in Hbuild;
  unfold getitem in Hbuild; cbn [lookup list_lookup] in Hbuild;
  do k input_step Hbuild;
  raise_state_step Hbuild;
  simpl_state Hbuild;
  injection Hbuild as <- <- <-;
  unfold advance;
  cbn [gate_id_counter random_source random_pos stderr stdout];
  f_equal; f_equal; lia.

(** X11. A constructor that fails on an element has already worked: the
    elements are used one by one, in the order a0, a1, a2, b0, b1, b2,
    each after the two labels of its wire were drawn.  With the first
    element that is neither [None] nor a bit at position [i] of that
    order, the constructor raises the [KeyError] of that element after
    2(i+1) draws of the random module; it has taken no gate identifier
    and written nothing. *)
Theorem init_KeyError_after_draws
    (a_bits b_bits : list (option Z)) (s : State) (i : nat) :
  length a_bits = 3%nat → length b_bits = 3%nat →
  bad_index (a_bits ++ b_bits) = Some i →
  ∃ v, (a_bits ++ b_bits) !! i = Some (Some v)
       ∧ ¬ is_bit v
       ∧ GarbledFullAdderCircuit.init a_bits b_bits s
         = (Raise (KeyError v), advance (2 * (i + 1)) s).
Proof.
  intros Ha Hb.
  destruct a_bits as [| va0 [| va1 [| va2 [|]]]]; try done.
  destruct b_bits as [| vb0 [| vb1 [| vb2 [|]]]]; try done.
  clear Ha Hb. cbn [app].
  destruct (ok_value_cases va0) as [H0 | (z & -> & Hz)];
    [rewrite bad_index_cons_ok by done
    | rewrite bad_index_cons_bad by done; intros [= <-]; exists z;
      split; [reflexivity | split; [done |]]; raise_leaf_state s 0].
  destruct (ok_value_cases va1) as [H1 | (z & -> & Hz)];
    [rewrite bad_index_cons_ok by done
    | rewrite bad_index_cons_bad by done; intros [= <-]; exists z;
      split; [reflexivity | split; [done |]]; raise_leaf_state s 1].
  destruct (ok_value_cases va2) as [H2 | (z & -> & Hz)];
    [rewrite bad_index_cons_ok by done
    | rewrite bad_index_cons_bad by done; intros [= <-]; exists z;
      split; [reflexivity | split; [done |]]; raise_leaf_state s 2].
  destruct (ok_value_cases vb0) as [H3 | (z & -> & Hz)];
    [rewrite bad_index_cons_ok by done
    | rewrite bad_index_cons_bad by done; intros [= <-]; exists z;
      split; [reflexivity | split; [done |]]; raise_leaf_state s 3].
  destruct (ok_value_cases vb1) as [H4 | (z & -> & Hz)];
    [rewrite bad_index_cons_ok by done
    | rewrite bad_index_cons_bad by done; intros [= <-]; exists z;
      split; [reflexivity | split; [done |]]; raise_leaf_state s 4].
  destruct (ok_value_cases vb2) as [H5 | (z & -> & Hz)];
    [rewrite bad_index_cons_ok by done
    | rewrite bad_index_cons_bad by done; intros [= <-]; exists z;
      split; [reflexivity | split; [done |]]; raise_leaf_state s 5].
  done.
Qed.

Lemma init_KeyError_after_draws_witness :
  ∃ v, ([Some 1; Some 2; Some 7] ++ demo_b) !! 1%nat = Some (Some v)
       ∧ ¬ is_bit v
       ∧ GarbledFullAdderCircuit.init [Some 1; Some 2; Some 7] demo_b
           demo_state
         = (Raise (KeyError v), advance (2 * (1 + 1)) demo_state).
Proof.
  exact (init_KeyError_after_draws [Some 1; Some 2; Some 7] demo_b
           demo_state 1 eq_refl eq_refl eq_refl).
Defined.

(** ** Evaluating a circuit again *)

Lemma existsb_eqb_elem (x : string) (l : list string) :
  existsb (String.eqb x) l = true ↔ x ∈ l.
Proof.
  rewrite existsb_exists. split.
  - intros (y & Hy & Heq). apply String.eqb_eq in Heq as ->.
    by apply list_elem_of_In.
  - intros Hx. exists x. split; [by apply list_elem_of_In |].
    apply String.eqb_refl.
Qed.

Lemma logged_all_nil st : logged_all [] st = st.
Proof. destruct st. unfold logged_all. simpl. by rewrite app_nil_r. Qed.

Lemma logged_all_cons line lines st :
  logged_all lines (logged line st) = logged_all (line :: lines) st.
Proof.
  unfold logged_all, logged, eprint. simpl. by rewrite <- app_assoc.
Qed.

Lemma evaluate_gates_step gate rest ws st :
  GarbledFullAdderCircuit.evaluate_gates (gate :: rest) (ws, st)
  = match ws !! Gate.input_wire1 gate with
    | None => (Raise (DanglingRef (Gate.input_wire1 gate)), (ws, st))
    | Some w1 =>
        match ws !! Gate.input_wire2 gate with
        | None => (Raise (DanglingRef (Gate.input_wire2 gate)), (ws, st))
        | Some w2 =>
            match Wire.evaluated_label w1, Wire.evaluated_label w2 with
            | Some label_a, Some label_b =>
                match Gate.evaluate gate label_a label_b (ws, st) with
                | (Ok _, x) => GarbledFullAdderCircuit.evaluate_gates rest x
                | (Raise e, x) => (Raise e, x)
                end
            | _, _ =>
                (Ok false,
                 (ws, logged (MissingInputLabelError (Gate.gate_id gate))
                             st))
            end
        end
    end.
Proof.
  destruct (ws !! Gate.input_wire1 gate) as [w1 |] eqn:H1; cycle 1.
  { cbn [GarbledFullAdderCircuit.evaluate_gates].
    unfold bind at 1. unfold bind at 1. unfold deref at 1.
    by rewrite H1. }
  destruct (ws !! Gate.input_wire2 gate) as [w2 |] eqn:H2; cycle 1.
  { cbn [GarbledFullAdderCircuit.evaluate_gates].
    unfold bind at 1. unfold bind at 1. unfold deref at 1. rewrite H1.
    unfold ret at 1. unfold bind at 1. unfold deref at 1.
    by rewrite H2. }
  by rewrite (evaluate_gates_cons _ _ _ _ _ _ H1 H2).
Qed.

Lemma evaluate_loop_set_label wo l gate_id la lb table :
  Gate.evaluate_loop (Wire.set_evaluated_label wo l) gate_id la lb table
  = Gate.evaluate_loop wo gate_id la lb table.
Proof.
  induction table as [| c table IH]; [done |].
  cbn [Gate.evaluate_loop Wire.set_evaluated_label Wire.labels0
       Wire.labels1].
  by rewrite <- IH.
Qed.

(** A pass over gates in dependency order writes no wire that was ready
    before it, and a second pass, from the store the first one left,
    does what the first one did and leaves the store as it is. *)
Lemma evaluate_gates_again gs :
  ∀ ready ws st r ws1 st1,
    in_order (map wiring gs) ready = true →
    GarbledFullAdderCircuit.evaluate_gates gs (ws, st) = (r, (ws1, st1)) →
    (∀ x, x ∈ ready → ws1 !! x = ws !! x)
    ∧ ∃ lines,
        st1 = logged_all lines st
        ∧ ∀ st', GarbledFullAdderCircuit.evaluate_gates gs (ws1, st')
                 = (r, (ws1, logged_all lines st')).
Proof.
  induction gs as [| gate rest IH]; intros ready ws st r ws1 st1 Horder Hrun.
  { injection Hrun as <- <- <-. split; [done |]. exists [].
    split; [by rewrite logged_all_nil |].
    intros st'. by rewrite logged_all_nil. }
  cbn [map in_order] in Horder. unfold wiring at 1 in Horder.
  apply andb_true_iff in Horder as [Horder Hrest].
  apply andb_true_iff in Horder as [Horder Ho].
  apply andb_true_iff in Horder as [Hi1 Hi2].
  apply existsb_eqb_elem in Hi1, Hi2.
  apply negb_true_iff in Ho.
  assert (Hout : Gate.output_wire gate ∉ ready).
  { intros Hin. apply existsb_eqb_elem in Hin. congruence. }
  clear Ho.
  assert (Hne1 : Gate.output_wire gate ≠ Gate.input_wire1 gate)
    by (intros Heq; apply Hout; by rewrite Heq).
  assert (Hne2 : Gate.output_wire gate ≠ Gate.input_wire2 gate)
    by (intros Heq; apply Hout; by rewrite Heq).
  rewrite evaluate_gates_step in Hrun.
  destruct (ws !! Gate.input_wire1 gate) as [w1 |] eqn:H1; cycle 1.
  { injection Hrun as <- <- <-. split; [done |]. exists [].
    split; [by rewrite logged_all_nil |].
    intros st'. by rewrite evaluate_gates_step, H1, logged_all_nil. }
  destruct (ws !! Gate.input_wire2 gate) as [w2 |] eqn:H2; cycle 1.
  { injection Hrun as <- <- <-. split; [done |]. exists [].
    split; [by rewrite logged_all_nil |].
    intros st'. by rewrite evaluate_gates_step, H1, H2, logged_all_nil. }
  destruct (Wire.evaluated_label w1) as [la |] eqn:Hla; cycle 1.
  { injection Hrun as <- <- <-. split; [done |].
    exists [MissingInputLabelError (Gate.gate_id gate)].
    split; [reflexivity |].
    intros st'. by rewrite evaluate_gates_step, H1, H2, Hla. }
  destruct (Wire.evaluated_label w2) as [lb |] eqn:Hlb; cycle 1.
  { injection Hrun as <- <- <-. split; [done |].
    exists [MissingInputLabelError (Gate.gate_id gate)].
    split; [reflexivity |].
    intros st'. by rewrite evaluate_gates_step, H1, H2, Hla, Hlb. }
  unfold Gate.evaluate in Hrun.
  destruct (ws !! Gate.output_wire gate) as [wo |] eqn:Hwo; cycle 1.
  { injection Hrun as <- <- <-. split; [done |]. exists [].
    split; [by rewrite logged_all_nil |].
    intros st'. rewrite evaluate_gates_step, H1, H2, Hla, Hlb.
    unfold Gate.evaluate. by rewrite Hwo, logged_all_nil. }
  destruct (Gate.evaluate_loop wo _ la lb _) as [d |] eqn:Hloop.
  - destruct (IH (Gate.output_wire gate :: ready) _ _ _ _ _ Hrest Hrun)
      as (Hframe & lines & -> & Hagain).
    split.
    { intros x Hx. rewrite Hframe by (by apply elem_of_cons; right).
      rewrite lookup_insert_ne; [done |].
      intros Heq. apply Hout. by rewrite Heq. }
    exists lines. split; [done |]. intros st'.
    assert (H1' : ws1 !! Gate.input_wire1 gate = Some w1).
    { rewrite Hframe by (by apply elem_of_cons; right).
      by rewrite lookup_insert_ne. }
    assert (H2' : ws1 !! Gate.input_wire2 gate = Some w2).
    { rewrite Hframe by (by apply elem_of_cons; right).
      by rewrite lookup_insert_ne. }
    assert (Hwo' : ws1 !! Gate.output_wire gate
                   = Some (Wire.set_evaluated_label wo d)).
    { rewrite Hframe by (by apply elem_of_cons; left).
      by rewrite lookup_insert_eq. }
    rewrite evaluate_gates_step, H1', H2', Hla, Hlb.
    unfold Gate.evaluate. rewrite Hwo', evaluate_loop_set_label, Hloop.
    rewrite (insert_id ws1 _ _ Hwo'). apply Hagain.
  - destruct (IH (Gate.output_wire gate :: ready) _ _ _ _ _ Hrest Hrun)
      as (Hframe & lines & -> & Hagain).
    split.
    { intros x Hx. by rewrite Hframe by (by apply elem_of_cons; right). }
    exists (GateEvaluationError (Gate.gate_id gate) (Gate.gate_type gate)
            :: lines).
    split; [apply logged_all_cons |]. intros st'.
    assert (H1' : ws1 !! Gate.input_wire1 gate = Some w1)
      by (by rewrite Hframe by (by apply elem_of_cons; right)).
    assert (H2' : ws1 !! Gate.input_wire2 gate = Some w2)
      by (by rewrite Hframe by (by apply elem_of_cons; right)).
    assert (Hwo' : ws1 !! Gate.output_wire gate = Some wo)
      by (by rewrite Hframe by (by apply elem_of_cons; left)).
    rewrite evaluate_gates_step, H1', H2', Hla, Hlb.
    unfold Gate.evaluate. rewrite Hwo', Hloop.
    rewrite <- logged_all_cons. apply Hagain.
Qed.

(** X15. Evaluating a constructed circuit a second time repeats the
    first evaluation: from whatever process state it is called, the
    second call returns what the first one returned, writes the same
    lines on [sys.stderr], prints the same list when it returns one, and
    leaves the circuit, with the evaluated labels of all its wires, as
    the first call left it. *)
Theorem evaluate_again
    (a_bits b_bits : list (option Z)) (s s' : State)
    (c c1 : GarbledFullAdderCircuit.t) (st st1 : State)
    (r : Result (option (list (option Z)))) :
  GarbledFullAdderCircuit.init a_bits b_bits s = (Ok c, s') →
  GarbledFullAdderCircuit.evaluate (c, st) = (r, (c1, st1)) →
  ∃ lines,
    stderr st1 = stderr st ++ lines
    ∧ ∀ st', ∃ st2,
        GarbledFullAdderCircuit.evaluate (c1, st') = (r, (c1, st2))
        ∧ stderr st2 = stderr st' ++ lines
        ∧ stdout st2 = match r with
                       | Ok (Some output) => stdout st' ++ [output]
                       | _ => stdout st'
                       end.
Proof.
  intros Hinit.
  apply init_Ok in Hinit as (_ & _ & _ & _ & _ & _ & Hbuilt).
  assert (Horder :
    in_order (map wiring (GarbledFullAdderCircuit.gates c)) input_names
    = true)
    by (rewrite (built_netlist _ _ _ Hbuilt); reflexivity).
  clear Hbuilt. unfold GarbledFullAdderCircuit.evaluate.
  destruct (GarbledFullAdderCircuit.evaluate_gates _ _)
    as [[[] | e] [ws1 sx]] eqn:Hgates;
    destruct (evaluate_gates_again _ _ _ _ _ _ _ Horder Hgates)
      as (_ & lines & -> & Hagain).
  - destruct (GarbledFullAdderCircuit.decode ws1 _) as [output | e]
      eqn:Hdec; intros [= <- <- <-]; exists lines; (split; [done |]);
      intros st'; eexists;
      cbn [GarbledFullAdderCircuit.with_wires GarbledFullAdderCircuit.gates
           GarbledFullAdderCircuit.wires
           GarbledFullAdderCircuit.result_wires
           GarbledFullAdderCircuit.a_bits GarbledFullAdderCircuit.b_bits
           GarbledFullAdderCircuit.full_sum_wires];
      rewrite Hagain, Hdec; (split; [reflexivity |]); by split.
  - intros [= <- <- <-]. exists lines. split; [done |].
    intros st'. eexists.
    cbn [GarbledFullAdderCircuit.with_wires GarbledFullAdderCircuit.gates
         GarbledFullAdderCircuit.wires].
    rewrite Hagain. split; [reflexivity |]. by split.
  - intros [= <- <- <-]. exists lines. split; [done |].
    intros st'. eexists.
    cbn [GarbledFullAdderCircuit.with_wires GarbledFullAdderCircuit.gates
         GarbledFullAdderCircuit.wires].
    rewrite Hagain. split; [reflexivity |]. by split.
Qed.

Lemma evaluate_again_witness :
  ∃ st2,
    GarbledFullAdderCircuit.evaluate
      ((evaluated demo_circuit (after_build demo_state)).1, demo_state)
    = ((GarbledFullAdderCircuit.evaluate
          (demo_circuit, after_build demo_state)).1,
       ((evaluated demo_circuit (after_build demo_state)).1, st2)).
Proof.
  assert (Heval :
    GarbledFullAdderCircuit.evaluate (demo_circuit, after_build demo_state)
    = ((GarbledFullAdderCircuit.evaluate
          (demo_circuit, after_build demo_state)).1,
       ((evaluated demo_circuit (after_build demo_state)).1,
        (evaluated demo_circuit (after_build demo_state)).2))).
  { unfold evaluated.
    by destruct (GarbledFullAdderCircuit.evaluate _) as [? [? ?]]. }
  destruct (evaluate_again demo_a demo_b demo_state (after_build demo_state)
              demo_circuit _ _ _ _ demo_init Heval)
    as (lines & _ & Hagain).
  destruct (Hagain demo_state) as (st2 & H2 & _).
  exists st2. exact H2.
Defined.

(** ** The message behind a pad *)

Lemma list_ascii_of_string_app (s t : string) :
  list_ascii_of_string (s ++ t)%string
  = list_ascii_of_string s ++ list_ascii_of_string t.
Proof. induction s as [| c s IH]; [done |]. simpl. by rewrite IH. Qed.

Lemma encode_inj (s t : string) : encode s = encode t → s = t.
Proof.
  unfold encode. intros H.
  rewrite <- (string_of_list_ascii_of_string s),
    <- (string_of_list_ascii_of_string t).
  f_equal. revert H.
  generalize (list_ascii_of_string s), (list_ascii_of_string t).
  induction l as [| c l IH]; intros [| c' l']; simpl; try done.
  intros [= Hc Hl]. apply N2Z.inj in Hc.
  rewrite <- (ascii_N_embedding c), <- (ascii_N_embedding c'), Hc.
  f_equal. by apply IH.
Qed.

Lemma str_inj (n n' : Z) : str n = str n' → n = n'.
Proof.
  assert (Hnonnil : ∀ z, Z.to_int z ≠ Decimal.Pos Decimal.Nil
                         ∧ Z.to_int z ≠ Decimal.Neg Decimal.Nil).
  { intros [| p | p]; simpl; split; try done; intros [= H];
      by apply DecimalPos.Unsigned.to_uint_nonnil in H. }
  unfold str. intros H. apply DecimalZ.to_int_inj.
  apply (f_equal NilZero.int_of_string) in H.
  destruct (Hnonnil n) as [? ?], (Hnonnil n') as [? ?].
  rewrite !NilZero.isi in H by done. by injection H.
Qed.

Lemma str_no_underscore (n : Z) :
  ¬ In "_"%char (list_ascii_of_string (str n)).
Proof.
  assert (Huint : ∀ d, ¬ In "_"%char
                           (list_ascii_of_string
                              (NilEmpty.string_of_uint d))).
  { induction d; simpl; intros H; [done | ..];
      by destruct H as [H | H]; [discriminate H | apply IHd]. }
  assert (Hzero : ∀ d, ¬ In "_"%char
                           (list_ascii_of_string
                              (NilZero.string_of_uint d))).
  { intros d. destruct d; try apply Huint.
    simpl. by intros [H | []]. }
  unfold str. destruct (Z.to_int n) as [d | d]; simpl.
  - apply Hzero.
  - intros [H | H]; [discriminate H | by apply Hzero in H].
Qed.

Lemma split_at_separator (c : ascii) (l1 l2 r1 r2 : list ascii) :
  ¬ In c l1 → ¬ In c l2 →
  l1 ++ c :: r1 = l2 ++ c :: r2 → l1 = l2 ∧ r1 = r2.
Proof.
  revert l2. induction l1 as [| x l1 IH]; intros [| y l2] H1 H2; simpl.
  - by intros [= ->].
  - intros [= <- _]. destruct H2. by left.
  - intros [= -> _]. destruct H1. by left.
  - intros [= -> Heq].
    destruct (IH l2) as [-> ->]; try done.
    + intros H. apply H1. by right.
    + intros H. apply H2. by right.
Qed.

(** X3. [hash_value] hashes the bytes of ["k1_k2_gate_id"], and that
    message names its three integers without ambiguity: two triples
    (k1, k2, gate_id) with the same message are equal.  Two pads can
    therefore agree only where SHA-256 agrees on two different
    messages. *)
Theorem hashed_message_injective (k1 k2 gate_id : Z) :
  hash_value k1 k2 gate_id
  = SHA256.from_bytes_big (SHA256.digest (hashed_message k1 k2 gate_id))
  ∧ ∀ k1' k2' gate_id',
      hashed_message k1 k2 gate_id = hashed_message k1' k2' gate_id' →
      k1 = k1' ∧ k2 = k2' ∧ gate_id = gate_id'.
Proof.
  split; [reflexivity |]. intros k1' k2' gate_id' H.
  unfold hashed_message in H. apply encode_inj in H.
  apply (f_equal list_ascii_of_string) in H.
  rewrite !list_ascii_of_string_app in H.
  change (list_ascii_of_string "_") with ["_"%char] in H.
  cbn [app] in H.
  apply split_at_separator in H as [H1 H];
    [| apply str_no_underscore | apply str_no_underscore].
  apply split_at_separator in H as [H2 H3];
    [| apply str_no_underscore | apply str_no_underscore].
  assert (Hstring : ∀ s t, list_ascii_of_string s = list_ascii_of_string t
                           → s = t).
  { intros s t Hst.
    rewrite <- (string_of_list_ascii_of_string s),
      <- (string_of_list_ascii_of_string t). by rewrite Hst. }
  apply Hstring, str_inj in H1, H2, H3. done.
Qed.
